(** * Admission controller and approval gate of the Slack bridge

    A shallow embedding of the two stateful cores of the bot:

    - [Admission]: the concurrency section of [SlackHandler]
      (src/slack-handler.ts: [handleMessage], [enqueueMessage],
      [processNextInQueue], and the prologue and [finally] block of
      [processClaudeQuery]);
    - [Posix]: the part of Node's [path] module that the approval gate
      calls ([path.resolve] with one argument, [path.sep]);
    - [Gate]: [PermissionHandler] (src/permission-handler.ts, the version
      with remembered approvals).

    The event loop is modelled by explicit events: every callback the
    source registers (an inbound message, a [setImmediate] callback, the
    completion of an execution, an HTTP request, the resolution of an
    awaited Slack call, a timer, a button action) is one atomic step on
    an explicit state record. *)

From stdpp Require Import gmap strings list.
From Stdlib Require Import ZArith Ascii String.

Open Scope string_scope.
Open Scope list_scope.
Open Scope Z_scope.

#[local] Set Warnings "-clear-no-such-hyp".


(** ** Insertion-ordered maps

    A JavaScript [Map] iterates in insertion order; [set] on an existing
    key keeps the key's position, [set] on a new key appends it. *)

Module OMap.

Section Defs.
Context {V : Type}.

Fixpoint get (k : string) (m : list (string * V)) : option V :=
  match m with
  | [] => None
  | (k', v) :: rest => if String.eqb k k' then Some v else get k rest
  end.

Definition has (k : string) (m : list (string * V)) : bool :=
  match get k m with Some _ => true | None => false end.

Fixpoint set (k : string) (v : V) (m : list (string * V)) : list (string * V) :=
  match m with
  | [] => [(k, v)]
  | (k', v') :: rest =>
      if String.eqb k k' then (k', v) :: rest else (k', v') :: set k v rest
  end.

Fixpoint delete (k : string) (m : list (string * V)) : list (string * V) :=
  match m with
  | [] => []
  | (k', v') :: rest =>
      if String.eqb k k' then delete k rest else (k', v') :: delete k rest
  end.

Definition keys (m : list (string * V)) : list string := map fst m.

End Defs.

End OMap.

(** ** The admission controller (src/slack-handler.ts) *)

Module Admission.

Record MessageEvent := {
  user : string;
  channel : string;
  thread_ts : option string;
  ts : string;
  text : option string
}.

(** [say] is a callback and plays no part in admission; the processed
    files are kept by name. *)
Record QueuedMessage := {
  event : MessageEvent;
  processedFiles : list string
}.

(** What the controller lets the outside see, in order: the two
    [logger.info] calls of the queue and the beginning and end of each
    [processClaudeQuery]. *)
Inductive Obs :=
| Queued (sessionKey : string) (m : QueuedMessage)
| Dequeued (sessionKey : string) (m : QueuedMessage)
| Started (sessionKey : string) (m : QueuedMessage)
| Finished (sessionKey : string) (m : QueuedMessage).

(** The "Concurrency control" fields of [SlackHandler], together with
    the two pieces of the JavaScript run time that the methods hand work
    to: the queue of callbacks registered with [setImmediate], and the
    invocations of [processClaudeQuery] that have passed the prologue and
    not yet reached [finally]. *)
Record SlackHandler := {
  activeSessions : gset string;
  sessionQueues : list (string * list QueuedMessage);
  activeConcurrency : Z;
  maxConcurrency : Z;
  immediates : list (string * QueuedMessage);
  executions : list (string * QueuedMessage);
  observed : list Obs
}.

Definition init (max : Z) : SlackHandler :=
  {| activeSessions := ∅; sessionQueues := []; activeConcurrency := 0;
     maxConcurrency := max; immediates := []; executions := [];
     observed := [] |}.

(** [enqueueMessage]: [queue = sessionQueues.get(k) || []], push at the
    tail, store back. *)
Definition enqueueMessage (sessionKey : string) (message : QueuedMessage)
    (s : SlackHandler) : SlackHandler :=
  let queue := default [] (OMap.get sessionKey (sessionQueues s)) in
  let queue' := queue ++ [message] in
  {| activeSessions := activeSessions s;
     sessionQueues := OMap.set sessionKey queue' (sessionQueues s);
     activeConcurrency := activeConcurrency s;
     maxConcurrency := maxConcurrency s;
     immediates := immediates s;
     executions := executions s;
     observed := observed s ++ [Queued sessionKey message] |}.

(** The loop of [processNextInQueue] over the entries of
    [sessionQueues].  Nothing is mutated before the iteration stops, so
    the entries are those of [s]. *)
Fixpoint scanQueues (entries : list (string * list QueuedMessage))
    (s : SlackHandler) : SlackHandler :=
  match entries with
  | [] => s
  | (sessionKey, queue) :: rest =>
      if bool_decide (sessionKey ∉ activeSessions s)
         && (0 <? Z.of_nat (List.length queue)) then
        if maxConcurrency s <=? activeConcurrency s then s
        else
          match queue with
          | [] => s
          | next :: queue' =>
              {| activeSessions := activeSessions s;
                 sessionQueues :=
                   match queue' with
                   | [] => OMap.delete sessionKey (sessionQueues s)
                   | _ => OMap.set sessionKey queue' (sessionQueues s)
                   end;
                 activeConcurrency := activeConcurrency s;
                 maxConcurrency := maxConcurrency s;
                 immediates := immediates s ++ [(sessionKey, next)];
                 executions := executions s;
                 observed := observed s ++ [Dequeued sessionKey next] |}
          end
      else scanQueues rest s
  end.

Definition processNextInQueue (s : SlackHandler) : SlackHandler :=
  scanQueues (sessionQueues s) s.

(** The prologue of [processClaudeQuery], up to its first [await]. *)
Definition processClaudeQuery_begin (sessionKey : string)
    (m : QueuedMessage) (s : SlackHandler) : SlackHandler :=
  {| activeSessions := {[sessionKey]} ∪ activeSessions s;
     sessionQueues := sessionQueues s;
     activeConcurrency := activeConcurrency s + 1;
     maxConcurrency := maxConcurrency s;
     immediates := immediates s;
     executions := executions s ++ [(sessionKey, m)];
     observed := observed s ++ [Started sessionKey m] |}.

(** The [finally] block of the execution at position [i] among those in
    flight: release the slot, then [processNextInQueue]. *)
Definition processClaudeQuery_finally (i : nat) (s : SlackHandler)
    : option SlackHandler :=
  match executions s !! i with
  | None => None
  | Some (sessionKey, m) =>
      Some (processNextInQueue
        {| activeSessions := activeSessions s ∖ {[sessionKey]};
           sessionQueues := sessionQueues s;
           activeConcurrency := activeConcurrency s - 1;
           maxConcurrency := maxConcurrency s;
           immediates := immediates s;
           executions := take i (executions s) ++ drop (S i) (executions s);
           observed := observed s ++ [Finished sessionKey m] |})
  end.

(** The "Concurrency / Queue check" of [handleMessage], for a message
    whose session key has been computed. *)
Definition handleMessage (sessionKey : string) (m : QueuedMessage)
    (s : SlackHandler) : SlackHandler :=
  if bool_decide (sessionKey ∈ activeSessions s) then
    enqueueMessage sessionKey m s
  else if maxConcurrency s <=? activeConcurrency s then
    enqueueMessage sessionKey m s
  else processClaudeQuery_begin sessionKey m s.

(** The oldest [setImmediate] callback runs. *)
Definition runImmediate (s : SlackHandler) : option SlackHandler :=
  match immediates s with
  | [] => None
  | (sessionKey, next) :: rest =>
      Some (processClaudeQuery_begin sessionKey next
        {| activeSessions := activeSessions s;
           sessionQueues := sessionQueues s;
           activeConcurrency := activeConcurrency s;
           maxConcurrency := maxConcurrency s;
           immediates := rest;
           executions := executions s;
           observed := observed s |})
  end.

Inductive Event :=
| Submit (sessionKey : string) (m : QueuedMessage)
| Immediate
| Complete (i : nat).

Definition step (e : Event) (s : SlackHandler) : option SlackHandler :=
  match e with
  | Submit k m => Some (handleMessage k m s)
  | Immediate => runImmediate s
  | Complete i => processClaudeQuery_finally i s
  end.

Fixpoint run (tr : list Event) (s : SlackHandler) : option SlackHandler :=
  match tr with
  | [] => Some s
  | e :: tr' =>
      match step e s with
      | Some s' => run tr' s'
      | None => None
      end
  end.

Definition reachable (max : Z) (s : SlackHandler) : Prop :=
  exists tr, run tr (init max) = Some s.

(** The executions in flight for one conversation key. *)
Definition running (k : string) (s : SlackHandler) : list QueuedMessage :=
  map snd (filter (fun e => fst e = k) (executions s)).

(** The invariant of the data model. *)
Definition counters_ok (s : SlackHandler) : Prop :=
  Z.of_nat (size (activeSessions s)) = activeConcurrency s
  /\ activeConcurrency s <= maxConcurrency s.

(** An entry of the queue map that [processNextInQueue] may start. *)
Definition eligible (active : gset string)
    (e : string * list QueuedMessage) : Prop :=
  (e.1 ∉ active) /\ e.2 <> [].

(** Projections of the observations on one conversation key. *)
Definition queuedOf (k : string) (l : list Obs) : list QueuedMessage :=
  omap (fun o => match o with
                 | Queued k' m => if String.eqb k' k then Some m else None
                 | _ => None
                 end) l.

Definition dequeuedOf (k : string) (l : list Obs) : list QueuedMessage :=
  omap (fun o => match o with
                 | Dequeued k' m => if String.eqb k' k then Some m else None
                 | _ => None
                 end) l.

Definition finishedOf (k : string) (l : list Obs) : list QueuedMessage :=
  omap (fun o => match o with
                 | Finished k' m => if String.eqb k' k then Some m else None
                 | _ => None
                 end) l.

(** The discipline under which no other event comes between a release
    and the [setImmediate] callback it registered. *)
Fixpoint drain (fuel : nat) (s : SlackHandler) : SlackHandler :=
  match fuel with
  | O => s
  | S fuel' =>
      match runImmediate s with
      | Some s' => drain fuel' s'
      | None => s
      end
  end.

Definition stepAtomic (e : Event) (s : SlackHandler) : option SlackHandler :=
  match step e s with
  | Some s' => Some (drain (List.length (immediates s')) s')
  | None => None
  end.

Fixpoint runAtomic (tr : list Event) (s : SlackHandler)
    : option SlackHandler :=
  match tr with
  | [] => Some s
  | e :: tr' =>
      match stepAtomic e s with
      | Some s' => runAtomic tr' s'
      | None => None
      end
  end.

(** The queue of every key holds what was put on it and not yet taken
    off, in order. *)
Definition queues_ok (s : SlackHandler) : Prop :=
  NoDup (OMap.keys (sessionQueues s))
  /\ forall k,
       queuedOf k (observed s)
       = dequeuedOf k (observed s)
         ++ default [] (OMap.get k (sessionQueues s)).

(** The executions in flight are exactly what the active set and the
    counter say, and nothing waits for a deferred start. *)
Definition atomic_ok (s : SlackHandler) : Prop :=
  immediates s = []
  /\ NoDup (map fst (executions s))
  /\ activeSessions s = list_to_set (map fst (executions s))
  /\ activeConcurrency s = Z.of_nat (List.length (executions s))
  /\ activeConcurrency s <= maxConcurrency s.

Definition msg (who what : string) : QueuedMessage :=
  {| event := {| user := who; channel := "C1"; thread_ts := None;
                 ts := what; text := Some what |};
     processedFiles := [] |}.

(** Scenarios.  A release registers the deferred start of a queued
    message; a fresh message is admitted before that callback runs. *)
Definition m1 := msg "U1" "1".
Definition m2 := msg "U1" "2".
Definition m3 := msg "U1" "3".
Definition m4 := msg "U1" "4".

Definition window_other_key : list Event :=
  [Submit "A" m1; Submit "B" m2; Complete 0; Submit "C" m3; Immediate].

Definition window_same_key : list Event :=
  [Submit "A" m1; Submit "A" m2; Complete 0; Submit "A" m3; Immediate].

Definition window_overtake : list Event :=
  [Submit "A" m1; Submit "A" m2; Submit "A" m3; Complete 0;
   Submit "A" m4; Immediate; Complete 0; Immediate; Complete 1;
   Complete 0].

Definition busy_state : SlackHandler :=
  {| activeSessions := {["A"; "B"]};
     sessionQueues := [("B", [m3]); ("C", [m2; m4])];
     activeConcurrency := 2; maxConcurrency := 2;
     immediates := []; executions := [("A", m1); ("B", m1)];
     observed := [] |}.

End Admission.

(** ** Node's [path] module, POSIX flavour

    [isPathWithinDirectory] calls [path.resolve] with one argument and
    [path.sep].  [resolve] follows Node's implementation: a path that does
    not begin with a slash is put after the current working directory of
    the process, then [normalizeString] walks the segments, dropping empty
    ones and [.], and letting [..] remove the last segment kept so far
    (nothing is removed at the root); the result is a slash followed by
    the kept segments joined by slashes, without a trailing slash. *)

Module Posix.

Definition sep : string := "/".

Definition isPosixPathSeparator (c : ascii) : bool := Ascii.eqb c "/".

Fixpoint split (s : string) : list string :=
  match s with
  | EmptyString => [EmptyString]
  | String c s' =>
      if isPosixPathSeparator c then EmptyString :: split s'
      else
        match split s' with
        | seg :: segs => String c seg :: segs
        | [] => [String c EmptyString]
        end
  end.

Fixpoint join (segs : list string) : string :=
  match segs with
  | [] => ""
  | [seg] => seg
  | seg :: rest => seg +:+ sep +:+ join rest
  end.

Definition pushSegment (res : list string) (seg : string) : list string :=
  if String.eqb seg "" then res
  else if String.eqb seg "." then res
  else if String.eqb seg ".." then removelast res
  else res ++ [seg].

Definition normalizeString (segs : list string) : list string :=
  fold_left pushSegment segs [].

Definition isAbsolute (p : string) : bool :=
  match p with
  | String c _ => isPosixPathSeparator c
  | EmptyString => false
  end.

(** The segments of [path.resolve(p)] when [process.cwd()] is [cwd]. *)
Definition segments (cwd p : string) : list string :=
  normalizeString (split (if isAbsolute p then p else cwd +:+ sep +:+ p)).

Definition resolve (cwd p : string) : string :=
  sep +:+ join (segments cwd p).

(** [s.startsWith(p)] *)
Fixpoint startsWith (s p : string) {struct p} : bool :=
  match p, s with
  | EmptyString, _ => true
  | String c p', String d s' => Ascii.eqb c d && startsWith s' p'
  | String _ _, EmptyString => false
  end.

(** A segment that [normalizeString] keeps: not empty, no separator
    inside. *)
Fixpoint hasSep (s : string) : bool :=
  match s with
  | EmptyString => false
  | String c s' => isPosixPathSeparator c || hasSep s'
  end.

Definition clean (seg : string) : Prop := seg <> "" /\ hasSep seg = false.

End Posix.

(** ** The approval gate (src/permission-handler.ts) *)

Module Gate.

(** The [input] of a tool call.  Only [file_path] and [path] are read by
    the gate; a field that is present holds a string, as the return type
    [string | undefined] of [extractToolTargetPath] says.  The other
    fields travel along untouched. *)
Record ToolInput := {
  file_path : option string;
  path : option string;
  others : list (string * string)
}.

(** The body of [POST /permission-request]. *)
Record PermissionRequest := {
  tool_name : string;
  input : ToolInput;
  channel : string;
  thread_ts : option string;
  user : option string;
  working_directory : option string
}.

(** [httpRes] is the identity of the [http.ServerResponse] object. *)
Record PendingPermission := {
  httpRes : nat;
  p_channel : string;
  threadTs : option string;
  p_user : option string;
  toolName : string;
  p_input : ToolInput;
  workingDirectory : option string;
  messageTs : option string
}.

Record Decision := {
  behavior : string;
  message : string
}.

Inductive Effect :=
| HttpWrite (res : nat) (status : Z) (body : option Decision)
| PostMessage (approvalId : string) (chan : string)
    (thread : option string) (tool : string) (dir : option string)
    (inp : ToolInput)
| UpdateMessage (chan : string) (ts : string) (approved : bool)
    (tool : string) (rememberNote : option string)
| ServerClose.

Inductive PostResult :=
| PostOk (ts : option string)
| PostFailed.

(** The fields of [PermissionHandler], the invocations of
    [handlePermissionRequest] suspended at [await postMessage], the timers
    armed with [setTimeout] (approval id and delay in milliseconds), and
    everything written to the outside so far. *)
Record PermissionHandler := {
  pending : list (string * PendingPermission);
  approvedTools : gmap string (gset string);
  posting : list string;
  timers : list (string * Z);
  effects : list Effect
}.

Definition init : PermissionHandler :=
  {| pending := []; approvedTools := ∅; posting := []; timers := [];
     effects := [] |}.

Definition emit (e : Effect) (s : PermissionHandler) : PermissionHandler :=
  {| pending := pending s; approvedTools := approvedTools s;
     posting := posting s; timers := timers s;
     effects := effects s ++ [e] |}.

Definition setPending (f : list (string * PendingPermission) ->
                            list (string * PendingPermission))
    (s : PermissionHandler) : PermissionHandler :=
  {| pending := f (pending s); approvedTools := approvedTools s;
     posting := posting s; timers := timers s; effects := effects s |}.

(** JavaScript truthiness of a value of type [string | undefined]. *)
Definition truthy (v : option string) : option string :=
  match v with
  | Some s => if String.eqb s "" then None else Some s
  | None => None
  end.

Definition extractToolTargetPath (toolName : string) (input : ToolInput)
    : option string :=
  match truthy (file_path input) with
  | Some p => Some p
  | None =>
      match truthy (path input) with
      | Some p => Some p
      | None => None
      end
  end.

Section Process.

(** [process.cwd()] and [JSON.parse] restricted to request bodies:
    [None] when it throws. *)
Variable cwd : string.
Variable JSON_parse : string -> option PermissionRequest.

Definition isPathWithinDirectory (targetPath directory : string) : bool :=
  let resolved := Posix.resolve cwd targetPath in
  let dir := Posix.resolve cwd directory in
  String.eqb resolved dir || Posix.startsWith resolved (dir +:+ Posix.sep).

Definition isAutoApproved (toolName : string) (input : ToolInput)
    (workingDirectory : string) (s : PermissionHandler) : bool :=
  match approvedTools s !! workingDirectory with
  | None => false
  | Some approved =>
      if bool_decide (toolName ∈ approved) then
        match truthy (extractToolTargetPath toolName input) with
        | Some targetPath => isPathWithinDirectory targetPath workingDirectory
        | None => true
        end
      else false
  end.

Definition rememberApproval (toolName workingDirectory : string)
    (s : PermissionHandler) : PermissionHandler :=
  let tools := default ∅ (approvedTools s !! workingDirectory) in
  {| pending := pending s;
     approvedTools := <[workingDirectory := tools ∪ {[toolName]}]> (approvedTools s);
     posting := posting s; timers := timers s; effects := effects s |}.

Definition clearApprovals (s : PermissionHandler) : PermissionHandler :=
  {| pending := pending s; approvedTools := ∅;
     posting := posting s; timers := timers s; effects := effects s |}.

Definition respond (approvalId : string) (approved : bool) (msg : string)
    (s : PermissionHandler) : PermissionHandler :=
  match OMap.get approvalId (pending s) with
  | None => s
  | Some p =>
      let response :=
        {| behavior := if approved then "allow" else "deny";
           message := msg |} in
      emit (HttpWrite (httpRes p) 200 (Some response))
           (setPending (OMap.delete approvalId) s)
  end.

Definition resolveApproval (approvalId : string) (approved : bool)
    (s : PermissionHandler) : PermissionHandler :=
  match OMap.get approvalId (pending s) with
  | None => s
  | Some p =>
      let s1 :=
        match approved, truthy (workingDirectory p) with
        | true, Some wd => rememberApproval (toolName p) wd s
        | _, _ => s
        end in
      let s2 :=
        match truthy (messageTs p) with
        | Some ts =>
            emit (UpdateMessage (p_channel p) ts approved (toolName p)
                    (if approved then truthy (workingDirectory p) else None))
                 s1
        | None => s1
        end in
      respond approvalId approved
        (if approved then "Approved by user" else "Denied by user") s2
  end.

Definition newApprovalId (now rnd : string) : string :=
  "approval_" +:+ now +:+ "_" +:+ rnd.

(** [handlePermissionRequest] up to [await postMessage]. *)
Definition handlePermissionRequest (data : PermissionRequest) (res : nat)
    (now rnd : string) (s : PermissionHandler) : PermissionHandler :=
  let auto :=
    match truthy (working_directory data) with
    | Some wd => isAutoApproved (tool_name data) (input data) wd s
    | None => false
    end in
  if auto then
    emit (HttpWrite res 200
            (Some {| behavior := "allow";
                     message := "Auto-approved (previously approved for this directory)" |}))
         s
  else
    let approvalId := newApprovalId now rnd in
    let record :=
      {| httpRes := res; p_channel := channel data;
         threadTs := thread_ts data; p_user := user data;
         toolName := tool_name data; p_input := input data;
         workingDirectory := working_directory data;
         messageTs := None |} in
    let s1 := setPending (OMap.set approvalId record) s in
    let s2 :=
      emit (PostMessage approvalId
              (if String.eqb (channel data) "" then "general" else channel data)
              (thread_ts data) (tool_name data) (working_directory data)
              (input data))
           s1 in
    {| pending := pending s2; approvedTools := approvedTools s2;
       posting := posting s2 ++ [approvalId]; timers := timers s2;
       effects := effects s2 |}.

Definition timeoutDelay : Z := 5 * 60 * 1000.

Definition setMessageTs (ts : string) (p : PendingPermission)
    : PendingPermission :=
  {| httpRes := httpRes p; p_channel := p_channel p; threadTs := threadTs p;
     p_user := p_user p; toolName := toolName p; p_input := p_input p;
     workingDirectory := workingDirectory p; messageTs := Some ts |}.

Fixpoint removeFirst (approvalId : string) (l : list string) : list string :=
  match l with
  | [] => []
  | x :: rest =>
      if String.eqb approvalId x then rest else x :: removeFirst approvalId rest
  end.

(** [handlePermissionRequest] from the point where [postMessage] has
    settled: record the message timestamp or deny, then arm the timer. *)
Definition handlePermissionRequest_resume (approvalId : string)
    (result : PostResult) (s : PermissionHandler) : PermissionHandler :=
  let s1 :=
    match result with
    | PostOk ts =>
        match OMap.get approvalId (pending s), truthy ts with
        | Some p, Some t =>
            setPending (OMap.set approvalId (setMessageTs t p)) s
        | _, _ => s
        end
    | PostFailed => respond approvalId false "Failed to send Slack message" s
    end in
  {| pending := pending s1; approvedTools := approvedTools s1;
     posting := removeFirst approvalId (posting s1);
     timers := timers s1 ++ [(approvalId, timeoutDelay)];
     effects := effects s1 |}.

(** The callback given to [setTimeout]. *)
Definition onTimeout (approvalId : string) (s : PermissionHandler)
    : PermissionHandler :=
  if OMap.has approvalId (pending s) then
    respond approvalId false "Permission request timed out" s
  else s.

Fixpoint removeTimer (approvalId : string) (l : list (string * Z))
    : list (string * Z) :=
  match l with
  | [] => []
  | (x, d) :: rest =>
      if String.eqb approvalId x then rest
      else (x, d) :: removeTimer approvalId rest
  end.

Definition handleRequest (method url body : string) (res : nat)
    (now rnd : string) (s : PermissionHandler) : PermissionHandler :=
  if String.eqb method "POST" && String.eqb url "/permission-request" then
    match JSON_parse body with
    | Some data => handlePermissionRequest data res now rnd s
    | None =>
        emit (HttpWrite res 400
                (Some {| behavior := "deny"; message := "Invalid request" |}))
             s
    end
  else emit (HttpWrite res 404 None) s.

(** [stop]: the loop visits every entry of [pending] once; [respond]
    deletes only the entry being visited. *)
Definition stop (s : PermissionHandler) : PermissionHandler :=
  emit ServerClose
    (fold_left (fun st approvalId => respond approvalId false "Server shutting down" st)
       (OMap.keys (pending s)) s).

Inductive Event :=
| Http (method url body : string) (res : nat) (now rnd : string)
| Posted (approvalId : string) (result : PostResult)
| TimerFires (approvalId : string)
| Action (approvalId : string) (approved : bool)
| ClearApprovals
| Stop.

Definition apply (e : Event) (s : PermissionHandler) : PermissionHandler :=
  match e with
  | Http method url body res now rnd => handleRequest method url body res now rnd s
  | Posted approvalId result => handlePermissionRequest_resume approvalId result s
  | TimerFires approvalId =>
      onTimeout approvalId
        {| pending := pending s; approvedTools := approvedTools s;
           posting := posting s; timers := removeTimer approvalId (timers s);
           effects := effects s |}
  | Action approvalId approved => resolveApproval approvalId approved s
  | ClearApprovals => clearApprovals s
  | Stop => stop s
  end.

(** What was written to the response object [h], in order. *)
Fixpoint writesTo (h : nat) (l : list Effect) : list (Z * option Decision) :=
  match l with
  | [] => []
  | HttpWrite res status body :: rest =>
      if Nat.eqb res h then (status, body) :: writesTo h rest
      else writesTo h rest
  | _ :: rest => writesTo h rest
  end.

Definition handles (s : PermissionHandler) : list nat :=
  map (fun e => httpRes (snd e)) (pending s).

(** What the run time guarantees about an event: a request arrives with
    a response object of its own, a suspended call resumes only if it was
    suspended, a timer fires only if it was armed. *)
Definition admissible (e : Event) (s : PermissionHandler) : Prop :=
  match e with
  | Http _ _ _ res _ _ => (res ∉ handles s) /\ writesTo res (effects s) = []
  | Posted approvalId _ => approvalId ∈ posting s
  | TimerFires approvalId => approvalId ∈ map fst (timers s)
  | _ => True
  end.

(** The ways an approval can be resolved; [ByShutdown] is the body of
    the loop of [stop] at that approval id. *)
Inductive Resolution := ByApprove | ByDeny | ByTimeout | ByShutdown.

Definition resolveBy (r : Resolution) (approvalId : string)
    (s : PermissionHandler) : PermissionHandler :=
  match r with
  | ByApprove => resolveApproval approvalId true s
  | ByDeny => resolveApproval approvalId false s
  | ByTimeout => onTimeout approvalId s
  | ByShutdown => respond approvalId false "Server shutting down" s
  end.

Definition deny (msg : string) : Decision :=
  {| behavior := "deny"; message := msg |}.

Definition autoApproved : Decision :=
  {| behavior := "allow";
     message := "Auto-approved (previously approved for this directory)" |}.

(** Every pending approval has a key and a response object of its own,
    nothing has been written to that object yet, and every timer was
    armed with the five-minute delay. *)
Definition wf (s : PermissionHandler) : Prop :=
  NoDup (OMap.keys (pending s))
  /\ NoDup (handles s)
  /\ (forall h, h ∈ handles s -> writesTo h (effects s) = [])
  /\ Forall (fun t => t.2 = timeoutDelay) (timers s).

(** The response object [h] is no longer held and [w] is what was
    written to it. *)
Definition answered (h : nat) (w : list (Z * option Decision))
    (s : PermissionHandler) : Prop :=
  (h ∉ handles s) /\ writesTo h (effects s) = w.

Inductive steps : PermissionHandler -> list Event -> PermissionHandler -> Prop :=
| steps_nil s : steps s [] s
| steps_cons s e tr s' :
    admissible e s -> steps (apply e s) tr s' -> steps s (e :: tr) s'.

Definition reachable (s : PermissionHandler) : Prop :=
  exists tr, steps init tr s.

End Process.

(** Scenarios. *)
Definition sample_cwd : string := "/home/bot".

Definition request (tool fp : string) (wd : option string)
    : PermissionRequest :=
  {| tool_name := tool;
     input := {| file_path := Some fp; path := None;
                 others := [("content", "hello")] |};
     channel := "C0123"; thread_ts := Some "1712.000100";
     user := Some "U42"; working_directory := wd |}.

Definition dq (s : string) : string :=
  String (Ascii.ascii_of_nat 34) (s +:+ String (Ascii.ascii_of_nat 34) "").

Definition sample_body : string :=
  "{" +:+ dq "tool_name" +:+ ":" +:+ dq "Write" +:+ ","
  +:+ dq "input" +:+ ":{" +:+ dq "file_path" +:+ ":" +:+ dq "/repo/sub/x.txt"
  +:+ "," +:+ dq "content" +:+ ":" +:+ dq "hello" +:+ "},"
  +:+ dq "channel" +:+ ":" +:+ dq "C0123" +:+ ","
  +:+ dq "thread_ts" +:+ ":" +:+ dq "1712.000100" +:+ ","
  +:+ dq "user" +:+ ":" +:+ dq "U42" +:+ ","
  +:+ dq "working_directory" +:+ ":" +:+ dq "/repo" +:+ "}".

(** [JSON.parse] on the bodies used below: it knows [sample_body] and
    throws on the truncated body ["{not json"]; the scenarios send no
    other body. *)
Definition sample_parse (body : string) : option PermissionRequest :=
  if String.eqb body sample_body
  then Some (request "Write" "/repo/sub/x.txt" (Some "/repo"))
  else None.

Definition id1 : string := newApprovalId "1712000000000" "k3j9x2m1q".
Definition id2 : string := newApprovalId "1712000060000" "z8c1v5b7n".

(** A request for [tool] on [fp] in [wd] is prompted, the prompt is
    posted, and the human approves. *)
Definition approved (tool fp wd : string) : PermissionHandler :=
  resolveApproval id1 true
    (handlePermissionRequest_resume id1 (PostOk (Some "1712.000200"))
       (handlePermissionRequest sample_cwd (request tool fp (Some wd)) 1
          "1712000000000" "k3j9x2m1q" init)).

(** The same, and the timer is left to fire instead. *)
Definition prompted (tool fp wd : string) : PermissionHandler :=
  handlePermissionRequest_resume id1 (PostOk (Some "1712.000200"))
    (handlePermissionRequest sample_cwd (request tool fp (Some wd)) 1
       "1712000000000" "k3j9x2m1q" init).

Definition prompted_trace : list Event :=
  [Http "POST" "/permission-request" sample_body 1
     "1712000000000" "k3j9x2m1q";
   Posted id1 (PostOk (Some "1712.000200"))].

End Gate.

(** ** The admission controller: what a run accounts for *)

Module Ledger.
Import Admission.

(** The messages handed to [handleMessage] along a run, in order. *)
Definition submittedOf (tr : list Event) : list (string * QueuedMessage) :=
  omap (fun e => match e with
                 | Submit k m => Some (k, m)
                 | _ => None
                 end) tr.

Definition submittedFor (k : string) (tr : list Event) : list QueuedMessage :=
  omap (fun e => match e with
                 | Submit k' m => if String.eqb k' k then Some m else None
                 | _ => None
                 end) tr.

(** The messages in the queue map, key by key. *)
Definition waiting (queues : list (string * list QueuedMessage))
    : list (string * QueuedMessage) :=
  flat_map (fun e => map (pair e.1) e.2) queues.

Definition finishedAll (l : list Obs) : list (string * QueuedMessage) :=
  omap (fun o => match o with
                 | Finished k m => Some (k, m)
                 | _ => None
                 end) l.

(** Where a message can be: in a queue, handed to [setImmediate], in an
    execution, or done. *)
Definition accounted (s : SlackHandler) : list (string * QueuedMessage) :=
  waiting (sessionQueues s) ++ immediates s ++ executions s
  ++ finishedAll (observed s).

(** The counter and the set against the executions in flight. *)
Definition counter_tracks (s : SlackHandler) : Prop :=
  activeConcurrency s = Z.of_nat (List.length (executions s))
  /\ forall k, k ∈ activeSessions s -> k ∈ map fst (executions s).

(** The queue map as [enqueueMessage] and [processNextInQueue] leave
    it. *)
Definition queues_tidy (s : SlackHandler) : Prop :=
  NoDup (OMap.keys (sessionQueues s))
  /\ Forall (fun e => e.2 <> []) (sessionQueues s).

(** With the window closed: a free slot means that no message that
    could start is waiting. *)
Definition work_conserving (s : SlackHandler) : Prop :=
  Exists (eligible (activeSessions s)) (sessionQueues s) ->
  maxConcurrency s <= activeConcurrency s.

(** The messages of one key in the order the controller has them:
    those finished, then the one running, then those waiting. *)
Definition ordered_key (k : string) (s : SlackHandler) : list QueuedMessage :=
  finishedOf k (observed s) ++ running k s
  ++ default [] (OMap.get k (sessionQueues s)).

Definition runningIn (k : string) (l : list (string * QueuedMessage))
    : list QueuedMessage :=
  map snd (filter (fun e => fst e = k) l).

Definition closed_ok (s : SlackHandler) : Prop :=
  atomic_ok s /\ queues_tidy s /\ work_conserving s.

End Ledger.

(** ** Message text (src/slack-handler.ts)

    A JavaScript string is a sequence of UTF-16 code units; [length],
    [substring], [lastIndexOf] and [trimStart] count and compare code
    units. *)

Module Text.

Definition isWhiteSpace (c : N) : bool :=
  ((9 <=? c) && (c <=? 13) || (c =? 32) || (c =? 160) || (c =? 5760)
   || (8192 <=? c) && (c <=? 8202) || (c =? 8232) || (c =? 8233)
   || (c =? 8239) || (c =? 8287) || (c =? 12288) || (c =? 65279))%N.

Fixpoint trimStart (s : list N) : list N :=
  match s with
  | c :: rest => if isWhiteSpace c then trimStart rest else s
  | [] => []
  end.

(** An index argument clamped to the string, as [substring] and
    [lastIndexOf] do. *)
Definition clamp (x : Z) (s : list N) : nat :=
  Z.to_nat (Z.min (Z.max x 0) (Z.of_nat (List.length s))).

(** [s.substring(a, b)] *)
Definition substring (s : list N) (a b : Z) : list N :=
  let from := Nat.min (clamp a s) (clamp b s) in
  let to := Nat.max (clamp a s) (clamp b s) in
  take (to - from) (drop from s).

(** [s.substring(a)] *)
Definition substringFrom (s : list N) (a : Z) : list N :=
  substring s a (Z.of_nat (List.length s)).

Definition matchesAt (s search : list N) (k : nat) : bool :=
  bool_decide (take (List.length search) (drop k s) = search).

Fixpoint lastIndexOfFrom (s search : list N) (k : nat) : Z :=
  if matchesAt s search k then Z.of_nat k
  else match k with
       | O => -1
       | S k' => lastIndexOfFrom s search k'
       end.

(** [s.lastIndexOf(search, position)] *)
Definition lastIndexOf (s search : list N) (position : Z) : Z :=
  lastIndexOfFrom s search (clamp position s).

Definition newline : N := 10.
Definition space : N := 32.

(** The [while] loop of [splitTextForBlocks]; [None] when the fuel runs
    out before the loop ends. *)
Fixpoint splitLoop (fuel : nat) (remaining : list N) (maxLength : Z)
    (chunks : list (list N)) : option (list (list N)) :=
  match fuel with
  | O => None
  | S fuel' =>
      if Z.of_nat (List.length remaining) <=? 0 then Some chunks
      else if Z.of_nat (List.length remaining) <=? maxLength then
        Some (chunks ++ [remaining])
      else
        let splitIndex := lastIndexOf remaining [newline; newline] maxLength in
        let splitIndex :=
          if splitIndex <=? 0 then lastIndexOf remaining [newline] maxLength
          else splitIndex in
        let splitIndex :=
          if splitIndex <=? 0 then lastIndexOf remaining [space] maxLength
          else splitIndex in
        let splitIndex :=
          if splitIndex <=? 0 then maxLength else splitIndex in
        splitLoop fuel' (trimStart (substringFrom remaining splitIndex))
          maxLength (chunks ++ [substring remaining 0 splitIndex])
  end.

Definition splitTextForBlocks (text : list N) (maxLength : Z)
    : option (list (list N)) :=
  splitLoop (S (List.length text)) text maxLength [].

(** A block is [{type: 'section', text: {type: 'mrkdwn', text}}]. *)
Record MrkdwnBlock := { block_text : list N }.

Record MrkdwnMessage := {
  message_text : list N;
  blocks : list MrkdwnBlock
}.

Definition BLOCK_TEXT_LIMIT : Z := 3000.

Definition buildMrkdwnMessage (text : list N) : option MrkdwnMessage :=
  if Z.of_nat (List.length text) <=? BLOCK_TEXT_LIMIT then
    Some {| message_text := text; blocks := [{| block_text := text |}] |}
  else
    match splitTextForBlocks text BLOCK_TEXT_LIMIT with
    | Some chunks =>
        Some {| message_text := text;
                blocks := map (fun c => {| block_text := c |}) chunks |}
    | None => None
    end.

Definition dots : list N := [46; 46; 46]%N.

(** [truncateString]; [None] is [undefined]. *)
Definition truncateString (str : option (list N)) (maxLength : Z) : list N :=
  match str with
  | None | Some [] => []
  | Some s =>
      if Z.of_nat (List.length s) <=? maxLength then s
      else substring s 0 maxLength ++ dots
  end.

(** Chunks and the white space removed after each of them, put back
    together. *)
Fixpoint weave (chunks gaps : list (list N)) : list N :=
  match chunks, gaps with
  | c :: cs, g :: gs => c ++ g ++ weave cs gs
  | _, _ => []
  end.

End Text.

(** ** The button handlers (src/slack-handler.ts, [setupEventHandlers])

    The [approve_tool] and [deny_tool] actions acknowledge, call
    [resolveApproval] with the approval id carried by the button, and
    answer the click with an ephemeral text. *)

Module Buttons.
Import Gate.

Definition approve_tool (approvalId : string) (s : PermissionHandler)
    : PermissionHandler * string :=
  (resolveApproval approvalId true s, "✅ Tool execution approved").

Definition deny_tool (approvalId : string) (s : PermissionHandler)
    : PermissionHandler * string :=
  (resolveApproval approvalId false s, "❌ Tool execution denied").

End Buttons.

(** ** The request as it arrives (src/permission-handler.ts)

    [handlePermissionRequest] declares [input: any], and [JSON.parse]
    can return [null].  The other fields are taken at the types the
    signature declares. *)

Module Untyped.

(** A value read from the parsed body.  [JsOther] is a number, a
    boolean, an array or an object, with its truthiness. *)
Inductive JsValue :=
| JsUndefined
| JsNull
| JsString (s : string)
| JsOther (truthy : bool).

Definition isTruthy (v : JsValue) : bool :=
  match v with
  | JsUndefined | JsNull => false
  | JsString s => negb (String.eqb s "")
  | JsOther truthy => truthy
  end.

(** [input?.file_path] and [input?.path]; both are [JsUndefined] when
    [input] is no object. *)
Record Input := {
  file_path : JsValue;
  path : JsValue
}.



Definition extractToolTargetPath (toolName : string) (input : Input)
    : JsValue :=
  if isTruthy (file_path input) then file_path input
  else if isTruthy (path input) then path input
  else JsUndefined.

Section Check.

Variable cwd : string.

(** [isPathWithinDirectory]; [None] when [path.resolve] throws its
    [TypeError], as it does on an argument that is no string. *)
Definition isPathWithinDirectory (targetPath : JsValue) (directory : string)
    : option bool :=
  match targetPath with
  | JsString t => Some (Gate.isPathWithinDirectory cwd t directory)
  | JsUndefined | JsNull | JsOther _ => None
  end.

Definition isAutoApproved (toolName : string) (input : Input)
    (workingDirectory : string) (s : Gate.PermissionHandler) : option bool :=
  match Gate.approvedTools s !! workingDirectory with
  | None => Some false
  | Some approved =>
      if bool_decide (toolName ∈ approved) then
        let targetPath := extractToolTargetPath toolName input in
        if isTruthy targetPath
        then isPathWithinDirectory targetPath workingDirectory
        else Some true
      else Some false
  end.


End Check.




End Untyped.

(** ** The relay to the gate (src/permission-mcp-server.ts)

    The child process that receives the [permission_prompt] tool call
    posts it to the gate's bridge. *)

Module Relay.

(** [JSON.parse(process.env.SLACK_CONTEXT || "{}")] *)
Record SlackContext := {
  channel : option string;
  threadTs : option string;
  user : option string
}.

(** The body of the POST, as the gate reads it after [JSON.parse]: the
    object literal has the fields [tool_name], [input], [channel],
    [thread_ts] and [user], and no [working_directory]. *)
Definition requestBody (tool_name : string) (input : Gate.ToolInput)
    (slackContext : SlackContext) : Gate.PermissionRequest :=
  {| Gate.tool_name := tool_name;
     Gate.input := input;
     Gate.channel := default "" (channel slackContext);
     Gate.thread_ts := threadTs slackContext;
     Gate.user := user slackContext;
     Gate.working_directory := None |}.

(** A bridge whose every request comes from the relay. *)
Definition relayed (JSON_parse : string -> option Gate.PermissionRequest)
    : Prop :=
  forall body data,
    JSON_parse body = Some data ->
    exists tool_name input slackContext,
      data = requestBody tool_name input slackContext.

Definition sample_request : Gate.PermissionRequest :=
  requestBody "Bash"
    {| Gate.file_path := None; Gate.path := None;
       Gate.others := [("command", "ls")] |}
    {| channel := Some "C0123"; threadTs := Some "1712.000100";
       user := Some "U42" |}.

(** [JSON.parse] that knows one body, the one the relay sends for
    [sample_request]. *)
Definition sample_parse (body : string) : option Gate.PermissionRequest :=
  if String.eqb body "bash-ls" then Some sample_request else None.

Definition sample_trace : list Gate.Event :=
  [Gate.Http "POST" "/permission-request" "bash-ls" 1
     "1712000000000" "k3j9x2m1q";
   Gate.Posted Gate.id1 (Gate.PostOk (Some "1712.000200"));
   Gate.Action Gate.id1 true].

End Relay.

(** ** The working directory of a conversation (class [WorkingDirectoryManager])

    [configs] is a JavaScript [Map]; the file at [persistPath] is part of
    the state.  [path.resolve] is [Posix.resolve]; [path.join] and the
    file system are parameters. *)

Module WorkDir.

Record WorkingDirectoryConfig := {
  channelId : string;
  threadTs : option string;
  userId : option string;
  directory : string;
  (** a [Date]; [None] is the Invalid Date *)
  setAt : option Z
}.

(** An entry of [working-directories.json].  [p_setAt] is the instant its
    [setAt] string denotes, [None] when [new Date] cannot read it. *)
Record PersistedWorkingDirectoryConfig := {
  p_channelId : string;
  p_userId : option string;
  p_directory : string;
  p_setAt : option Z
}.

(** The file at [persistPath]: absent, not JSON, or an array of entries. *)
Inductive PersistFile :=
| Missing
| Unparsable
| Entries (entries : list PersistedWorkingDirectoryConfig).

Record Manager := {
  configs : list (string * WorkingDirectoryConfig);
  file : PersistFile
}.

(** What the calls of [fs] answer while one method runs. *)
Record Fs := {
  existsSync : string -> bool;
  (** [fs.statSync(p).isDirectory()], [None] when [statSync] throws *)
  isDirectory : string -> option bool;
  (** whether [mkdirSync] and [writeFileSync] succeed *)
  writable : bool
}.

Inductive Source := thread | channel | dm.

Record SetResult := {
  success : bool;
  resolvedPath : option string;
  error : option string
}.

Definition truthy := Gate.truthy.

Section Manager.

(** [process.cwd()], [config.baseDirectory], [path.join]. *)
Variable cwd : string.
Variable baseDirectory : string.
Variable path_join : string -> string -> string.

Definition getConfigKey (channelId : string) (threadTs userId : option string)
    : string :=
  match truthy threadTs with
  | Some ts => channelId +:+ "-" +:+ ts
  | None =>
      match truthy userId with
      | Some u =>
          if Posix.startsWith channelId "D" then channelId +:+ "-" +:+ u
          else channelId
      | None => channelId
      end
  end.

(** The loop of [savePersistedConfigs]; [None] when [toISOString] throws
    on an Invalid Date. *)
Fixpoint persistedEntries (values : list WorkingDirectoryConfig)
    : option (list PersistedWorkingDirectoryConfig) :=
  match values with
  | [] => Some []
  | wdConfig :: rest =>
      match truthy (threadTs wdConfig) with
      | Some _ => persistedEntries rest
      | None =>
          match setAt wdConfig with
          | None => None
          | Some d =>
              match persistedEntries rest with
              | Some entries =>
                  Some ({| p_channelId := channelId wdConfig;
                           p_userId := userId wdConfig;
                           p_directory := directory wdConfig;
                           p_setAt := Some d |} :: entries)
              | None => None
              end
          end
      end
  end.

Definition savePersistedConfigs (fs : Fs) (s : Manager) : Manager :=
  match persistedEntries (map snd (configs s)) with
  | Some entries =>
      if writable fs
      then {| configs := configs s; file := Entries entries |}
      else s
  | None => s
  end.

Definition loadEntry (fs : Fs)
    (cfgs : list (string * WorkingDirectoryConfig))
    (entry : PersistedWorkingDirectoryConfig)
    : list (string * WorkingDirectoryConfig) :=
  if existsSync fs (p_directory entry)
  then OMap.set (getConfigKey (p_channelId entry) None (p_userId entry))
         {| channelId := p_channelId entry; threadTs := None;
            userId := p_userId entry; directory := p_directory entry;
            setAt := p_setAt entry |} cfgs
  else cfgs.

Definition loadPersistedConfigs (fs : Fs) (s : Manager) : Manager :=
  match file s with
  | Entries entries =>
      {| configs := fold_left (loadEntry fs) entries (configs s);
         file := file s |}
  | Missing | Unparsable => s
  end.

(** The constructor, when the file at [persistPath] is [f]. *)
Definition new (fs : Fs) (f : PersistFile) : Manager :=
  loadPersistedConfigs fs {| configs := []; file := f |}.

Definition resolveDirectory (fs : Fs) (directory : string) : option string :=
  if Posix.isAbsolute directory then
    if existsSync fs directory then Some (Posix.resolve cwd directory)
    else None
  else
    let viaCwd :=
      let cwdRelativePath := Posix.resolve cwd directory in
      if existsSync fs cwdRelativePath then Some cwdRelativePath else None in
    if String.eqb baseDirectory "" then viaCwd
    else
      let baseRelativePath := path_join baseDirectory directory in
      if existsSync fs baseRelativePath
      then Some (Posix.resolve cwd baseRelativePath)
      else viaCwd.

Definition notFound (directory : string) : string :=
  "Directory not found: " +:+ Gate.dq directory
  +:+ (if String.eqb baseDirectory "" then ""
       else " (checked in base directory: " +:+ baseDirectory +:+ ")").

Definition setWorkingDirectory (fs : Fs) (channelId directory : string)
    (threadTs userId : option string) (now : Z) (s : Manager)
    : Manager * SetResult :=
  match truthy (resolveDirectory fs directory) with
  | None =>
      (s, {| success := false; resolvedPath := None;
             error := Some (notFound directory) |})
  | Some resolvedPath =>
      match isDirectory fs resolvedPath with
      | None =>
          (s, {| success := false; resolvedPath := None;
                 error := Some "Directory does not exist or is not accessible" |})
      | Some false =>
          (s, {| success := false; resolvedPath := None;
                 error := Some "Path is not a directory" |})
      | Some true =>
          let key := getConfigKey channelId threadTs userId in
          let workingDirConfig :=
            {| channelId := channelId; threadTs := threadTs;
               userId := userId; directory := resolvedPath;
               setAt := Some now |} in
          (savePersistedConfigs fs
             {| configs := OMap.set key workingDirConfig (configs s);
                file := file s |},
           {| success := true; resolvedPath := Some resolvedPath;
              error := None |})
      end
  end.

Definition getWorkingDirectory (channelId : string)
    (threadTs userId : option string) (s : Manager) : option string :=
  let viaChannel :=
    match OMap.get (getConfigKey channelId None userId) (configs s) with
    | Some channelConfig => Some (directory channelConfig)
    | None => None
    end in
  match truthy threadTs with
  | Some ts =>
      match OMap.get (getConfigKey channelId (Some ts) None) (configs s) with
      | Some threadConfig => Some (directory threadConfig)
      | None => viaChannel
      end
  | None => viaChannel
  end.

Definition getWorkingDirectoryWithSource (channelId : string)
    (threadTs userId : option string) (s : Manager)
    : option (string * Source) :=
  let viaChannel :=
    match OMap.get (getConfigKey channelId None userId) (configs s) with
    | Some channelConfig =>
        Some (directory channelConfig,
              if Posix.startsWith channelId "D" then dm else channel)
    | None => None
    end in
  match truthy threadTs with
  | Some ts =>
      match OMap.get (getConfigKey channelId (Some ts) None) (configs s) with
      | Some threadConfig => Some (directory threadConfig, thread)
      | None => viaChannel
      end
  | None => viaChannel
  end.

Definition removeWorkingDirectory (fs : Fs) (channelId : string)
    (threadTs userId : option string) (s : Manager) : Manager * bool :=
  let key := getConfigKey channelId threadTs userId in
  if OMap.has key (configs s)
  then (savePersistedConfigs fs
          {| configs := OMap.delete key (configs s); file := file s |}, true)
  else (s, false).

Definition getChannelWorkingDirectory (channelId : string) (s : Manager)
    : option string :=
  match OMap.get (getConfigKey channelId None None) (configs s) with
  | Some cfg => Some (directory cfg)
  | None => None
  end.

Definition hasChannelWorkingDirectory (channelId : string) (s : Manager)
    : bool :=
  match truthy (getChannelWorkingDirectory channelId s) with
  | Some _ => true
  | None => false
  end.

(** The calls made on a manager over its life, restarts of the process
    included. *)
Inductive Op :=
| SetWorkingDirectory (fs : Fs) (channelId directory : string)
    (threadTs userId : option string) (now : Z)
| RemoveWorkingDirectory (fs : Fs) (channelId : string)
    (threadTs userId : option string)
| Restart (fs : Fs).

Definition apply (op : Op) (s : Manager) : Manager :=
  match op with
  | SetWorkingDirectory fs c d t u now =>
      (setWorkingDirectory fs c d t u now s).1
  | RemoveWorkingDirectory fs c t u => (removeWorkingDirectory fs c t u s).1
  | Restart fs => new fs (file s)
  end.

(** The states a manager goes through when it starts without a file. *)
Definition reachable (s : Manager) : Prop :=
  exists fs ops, s = fold_left (fun s op => apply op s) ops (new fs Missing).

(** What a restart keeps of an entry of [configs]. *)
Definition restored (e : string * WorkingDirectoryConfig)
    : string * WorkingDirectoryConfig :=
  (e.1, {| channelId := channelId e.2; threadTs := None;
           userId := userId e.2; directory := directory e.2;
           setAt := setAt e.2 |}).

Definition isThread (e : string * WorkingDirectoryConfig) : bool :=
  match truthy (threadTs e.2) with Some _ => true | None => false end.

Definition durable (cfgs : list (string * WorkingDirectoryConfig))
    : list (string * WorkingDirectoryConfig) :=
  List.filter (fun e => negb (isThread e)) cfgs.

Fixpoint hasDash (s : string) : bool :=
  match s with
  | EmptyString => false
  | String c s' => Ascii.eqb c "-" || hasDash s'
  end.

Definition tidy (s : Manager) : Prop :=
  NoDup (OMap.keys (configs s))
  /\ Forall (fun e =>
       e.1 = getConfigKey (channelId e.2) (threadTs e.2) (userId e.2)
       /\ setAt e.2 <> None) (configs s)
  /\ match file s with
     | Entries entries => Forall (fun e => p_setAt e <> None) entries
     | Missing => True
     | Unparsable => False
     end.

(** A path that [path.resolve] returns unchanged, whatever the current
    directory: absolute and normalised. *)
Definition canonical (d : string) : Prop :=
  forall cwd', Posix.resolve cwd' d = d.

(** What the constructor finds in the file of [s]: the entries of
    [configs] that are not thread overrides and whose directory [fs']
    still has, under the same keys and in the same order. *)
Definition restartsTo (s : Manager) : Prop :=
  forall fs',
    configs (new fs' (file s))
    = map restored
        (List.filter
           (fun e => negb (isThread e) && existsSync fs' (directory e.2))
           (configs s)).

End Manager.

(** A file system in which exactly the paths of [dirs] exist, all of them
    directories. *)
Definition sample_fs (dirs : list string) : Fs :=
  {| existsSync := fun p => bool_decide (p ∈ dirs);
     isDirectory := fun p => if bool_decide (p ∈ dirs) then Some true else None;
     writable := true |}.

(** [path.join] on the arguments used below, which need no
    normalisation. *)
Definition sample_join (a b : string) : string := a +:+ "/" +:+ b.

Definition sample_base : string := "/srv/projects".

(** A manager that starts without a file; a thread of channel C0123 is
    then given the directory [app] of the base directory. *)
Definition sample_set (fs : Fs) : Manager * SetResult :=
  setWorkingDirectory Gate.sample_cwd sample_base sample_join fs
    "C0123" "app" (Some "1712.000100") (Some "U42") 1712000000000
    (new fs Missing).

End WorkDir.

(** ** Downloaded files (class [FileHandler]) *)

Module Files.

(** A [Buffer] is a sequence of bytes. *)
Definition Buffer := list N.

(** [buffer.toString('ascii')]: the highest bit of each byte is unset. *)
Definition toAscii (buffer : Buffer) : list N :=
  map (fun b => N.land b 127) buffer.

Definition hexDigit (d : N) : string :=
  match d with
  | 0 => "0" | 1 => "1" | 2 => "2" | 3 => "3" | 4 => "4" | 5 => "5"
  | 6 => "6" | 7 => "7" | 8 => "8" | 9 => "9" | 10 => "a" | 11 => "b"
  | 12 => "c" | 13 => "d" | 14 => "e" | _ => "f"
  end%N.

(** [buffer.toString('hex')] *)
Fixpoint toHex (buffer : Buffer) : string :=
  match buffer with
  | [] => ""
  | b :: rest => hexDigit (b / 16) +:+ hexDigit (b mod 16) +:+ toHex rest
  end.

Record Signature := {
  mimetype : list string;
  magic : list N;
  offset : option nat;
  label : string
}.

Definition signatures : list Signature :=
  [ {| mimetype := ["application/pdf"]; magic := [37; 80; 68; 70]%N;
       offset := None; label := "PDF" |};
    {| mimetype := ["image/png"]; magic := [137; 80; 78; 71]%N;
       offset := None; label := "PNG" |};
    {| mimetype := ["image/jpeg"]; magic := [255; 216; 255]%N;
       offset := None; label := "JPEG" |};
    {| mimetype := ["image/gif"]; magic := [71; 73; 70; 56]%N;
       offset := None; label := "GIF" |};
    {| mimetype := ["image/webp"]; magic := [82; 73; 70; 70]%N;
       offset := None; label := "RIFF/WebP" |};
    {| mimetype :=
         ["application/zip";
          "application/vnd.openxmlformats-officedocument.wordprocessingml.document";
          "application/vnd.openxmlformats-officedocument.spreadsheetml.sheet"];
       magic := [80; 75; 3; 4]%N; offset := None; label := "ZIP/OOXML" |} ].

Record Validation := {
  valid : bool;
  detectedType : string;
  reason : string
}.

(** [list.includes(x)] on strings *)
Definition includes (l : list string) (x : string) : bool :=
  existsb (String.eqb x) l.

(** [magic.every((byte, i) => firstBytes[offset + i] === byte)], from
    index [i] on. *)
Fixpoint every (firstBytes : Buffer) (offset i : nat) (magic : list N)
    : bool :=
  match magic with
  | [] => true
  | byte :: rest =>
      match firstBytes !! (offset + i)%nat with
      | Some b => N.eqb b byte
      | None => false
      end && every firstBytes offset (S i) rest
  end.

(** ["<!DOCTYPE"] and ["<html"] *)
Definition doctype : list N := [60; 33; 68; 79; 67; 84; 89; 80; 69]%N.
Definition html : list N := [60; 104; 116; 109; 108]%N.

Definition looksHtml (buffer : Buffer) : bool :=
  let firstChars := toAscii (take 100 buffer) in
  Text.matchesAt (Text.trimStart firstChars) doctype 0
  || Text.matchesAt (Text.trimStart firstChars) html 0.

(** The inner loop: the first signature the content has. *)
Fixpoint detect (firstBytes : Buffer) (sigs : list Signature)
    : option Signature :=
  match sigs with
  | [] => None
  | otherSig :: rest =>
      if every firstBytes 0 0 (magic otherSig) then Some otherSig
      else detect firstBytes rest
  end.

(** The outer loop; [None] when it ends without a [return]. *)
Fixpoint checkSignatures (firstBytes : Buffer) (expectedMimetype : string)
    (sigs : list Signature) : option Validation :=
  match sigs with
  | [] => None
  | sig :: rest =>
      if includes (mimetype sig) expectedMimetype then
        if every firstBytes (default 0%nat (offset sig)) 0 (magic sig) then
          Some {| valid := true; detectedType := label sig;
                  reason := "Magic bytes match" |}
        else
          match detect firstBytes signatures with
          | Some otherSig =>
              Some {| valid := false; detectedType := label otherSig;
                      reason := "Expected " +:+ label sig
                                +:+ " but content is " +:+ label otherSig |}
          | None =>
              Some {| valid := false; detectedType := "unknown";
                      reason := "Expected " +:+ label sig
                                +:+ " but magic bytes don't match (got: "
                                +:+ toHex (take 4 firstBytes) +:+ ")" |}
          end
      else checkSignatures firstBytes expectedMimetype rest
  end.

Section Validate.

(** [isTextFile], which reads the extension of the file name. *)
Variable isTextFile : string -> string -> bool.

Definition validateFileContent (buffer : Buffer)
    (expectedMimetype filename : string) : Validation :=
  let firstBytes := take 16 buffer in
  if looksHtml buffer then
    {| valid := false; detectedType := "text/html";
       reason := "Content appears to be HTML (likely a Slack login/error page)" |}
  else
    match checkSignatures firstBytes expectedMimetype signatures with
    | Some result => result
    | None =>
        if Posix.startsWith expectedMimetype "text/"
           || isTextFile expectedMimetype filename
        then {| valid := true; detectedType := "text";
                reason := "Text file (no magic byte check needed)" |}
        else {| valid := true; detectedType := "passthrough";
                reason := "No specific validation for this type" |}
    end.

End Validate.

(** *** The redirect loop of [downloadFile] *)

Record Response := {
  status : Z;
  (** [response.headers.get('location')] *)
  location : option string
}.

(** What [await fetch] gives: a response, or an exception. *)
Inductive Fetched :=
| Resolved (response : Response)
| Rejected.

(** How step 3 of [downloadFile] ends: the loop is left with a response
    that is no redirect, or the method returns [null] from inside the
    loop, or an exception goes to the [catch] of the method. *)
Inductive Download :=
| Arrived (response : Response) (currentUrl : string) (redirectCount : nat)
| NoLocation (status : Z)
| LoginPage (currentUrl : string)
| TooManyRedirects (redirectCount : nat)
| Thrown.

(** [s.includes(sub)] *)
Fixpoint contains (s sub : string) : bool :=
  Posix.startsWith s sub
  || match s with
     | String _ s' => contains s' sub
     | EmptyString => false
     end.

Definition MAX_REDIRECTS : nat := 5.

Section Fetch.

(** The answer to the [n]-th call of [fetch], made with the bot token in
    its [Authorization] header, and [new URL(location, base).href],
    [None] when the constructor throws. *)
Variable fetch : nat -> string -> Fetched.
Variable URL_href : string -> string -> option string.

(** The loop, with the urls fetched so far; [None] when the fuel runs out
    before the loop ends. *)
Fixpoint fetchLoop (fuel : nat) (currentUrl : string) (redirectCount : nat)
    (fetched : list string) : option (Download * list string) :=
  match fuel with
  | O => None
  | S fuel' =>
      let fetched' := fetched ++ [currentUrl] in
      match fetch (List.length fetched) currentUrl with
      | Rejected => Some (Thrown, fetched')
      | Resolved response =>
          if (300 <=? status response) && (status response <? 400) then
            match Gate.truthy (location response) with
            | None => Some (NoLocation (status response), fetched')
            | Some location =>
                match URL_href location currentUrl with
                | None => Some (Thrown, fetched')
                | Some nextUrl =>
                    let redirectCount' := S redirectCount in
                    if contains nextUrl "?redir=" || contains nextUrl "/signin"
                    then Some (LoginPage nextUrl, fetched')
                    else if (MAX_REDIRECTS <? redirectCount')%nat
                    then Some (TooManyRedirects redirectCount', fetched')
                    else fetchLoop fuel' nextUrl redirectCount' fetched'
                end
            end
          else Some (Arrived response currentUrl redirectCount, fetched')
      end
  end.

End Fetch.

End Files.

(** ** Log levels (class [Logger]) *)

Module Logger.

(** [LOG_LEVELS[level]]; [None] when it is no number. *)
Definition LOG_LEVELS (level : string) : option Z :=
  if String.eqb level "trace" then Some 0
  else if String.eqb level "debug" then Some 1
  else if String.eqb level "info" then Some 2
  else if String.eqb level "warn" then Some 3
  else if String.eqb level "error" then Some 4
  else None.

(** [shouldLog]; a comparison with what is no number is false.  [logLevel] is
    [config.logLevel]. *)
Definition shouldLog (logLevel level : string) : bool :=
  match LOG_LEVELS level, LOG_LEVELS logLevel with
  | Some l, Some c => c <=? l
  | _, _ => false
  end.

End Logger.

(** * Properties *)

(** ** Insertion-ordered maps *)

Section OMapFacts.
Context {V : Type}.
Implicit Types (m : list (string * V)) (k : string) (v : V).

Lemma omap_get_set_eq k v m : OMap.get k (OMap.set k v m) = Some v.
Proof.
  induction m as [|[k' v'] m IH]; simpl.
  - by rewrite String.eqb_refl.
  - destruct (String.eqb_spec k k') as [->|Hne]; simpl.
    + by rewrite String.eqb_refl.
    + destruct (String.eqb_spec k k'); [done|apply IH].
Qed.

Lemma omap_get_set_ne k k' v m :
  k <> k' -> OMap.get k' (OMap.set k v m) = OMap.get k' m.
Proof.
  intros Hne. induction m as [|[k0 v0] m IH]; simpl.
  - destruct (String.eqb_spec k' k); [congruence|done].
  - destruct (String.eqb_spec k k0) as [->|Hk]; simpl.
    + destruct (String.eqb_spec k' k0); [congruence|done].
    + destruct (String.eqb_spec k' k0); [done|apply IH].
Qed.

Lemma omap_get_delete_eq k m : OMap.get k (OMap.delete k m) = None.
Proof.
  induction m as [|[k' v'] m IH]; simpl; [done|].
  destruct (String.eqb_spec k k') as [->|Hne]; simpl; [done|].
  destruct (String.eqb_spec k k'); [done|apply IH].
Qed.

Lemma omap_get_delete_ne k k' m :
  k <> k' -> OMap.get k' (OMap.delete k m) = OMap.get k' m.
Proof.
  intros Hne. induction m as [|[k0 v0] m IH]; simpl; [done|].
  destruct (String.eqb_spec k k0) as [->|Hk]; simpl.
  - destruct (String.eqb_spec k' k0); [congruence|apply IH].
  - destruct (String.eqb_spec k' k0); [done|apply IH].
Qed.

Lemma omap_get_None k m : OMap.get k m = None <-> k ∉ OMap.keys m.
Proof.
  induction m as [|[k' v'] m IH]; simpl.
  - split; [intros _; apply not_elem_of_nil|done].
  - destruct (String.eqb_spec k k') as [->|Hne].
    + split; [done|]. intros H. exfalso. apply H. left.
    + rewrite IH. rewrite not_elem_of_cons. naive_solver.
Qed.

Lemma omap_get_Some_elem k v m : OMap.get k m = Some v -> (k, v) ∈ m.
Proof.
  induction m as [|[k' v'] m IH]; simpl; [done|].
  destruct (String.eqb_spec k k') as [->|Hne].
  - intros [= ->]. left.
  - intros H. right. by apply IH.
Qed.

Lemma omap_keys_delete_subseteq k m : OMap.keys (OMap.delete k m) ⊆ OMap.keys m.
Proof.
  induction m as [|[k' v'] m IH]; simpl; [done|].
  destruct (String.eqb k k'); simpl.
  - by apply list_subseteq_cons.
  - intros x. rewrite !elem_of_cons. naive_solver.
Qed.

Lemma omap_NoDup_delete k m :
  NoDup (OMap.keys m) -> NoDup (OMap.keys (OMap.delete k m)).
Proof.
  induction m as [|[k' v'] m IH]; simpl; [done|].
  rewrite NoDup_cons. intros [Hk Hm].
  destruct (String.eqb k k'); simpl; [by apply IH|].
  apply NoDup_cons. split; [|by apply IH].
  intros Hin. apply Hk. by apply (omap_keys_delete_subseteq k m).
Qed.

Lemma omap_keys_set k v m :
  OMap.keys (OMap.set k v m)
  = if OMap.has k m then OMap.keys m else OMap.keys m ++ [k].
Proof.
  unfold OMap.has. induction m as [|[k' v'] m IH]; simpl; [done|].
  destruct (String.eqb_spec k k') as [->|Hne]; simpl; [done|].
  rewrite IH. by destruct (OMap.get k m).
Qed.

Lemma omap_NoDup_set k v m :
  NoDup (OMap.keys m) -> NoDup (OMap.keys (OMap.set k v m)).
Proof.
  intros Hnd. rewrite omap_keys_set. unfold OMap.has.
  destruct (OMap.get k m) eqn:Hg; [done|].
  apply NoDup_app. split; [done|]. split.
  - intros x Hx. rewrite list_elem_of_singleton. intros ->.
    by apply omap_get_None in Hg.
  - apply NoDup_singleton.
Qed.

Lemma omap_get_middle pre k v post :
  k ∉ OMap.keys pre -> OMap.get k (pre ++ (k, v) :: post) = Some v.
Proof.
  induction pre as [|[k' v'] pre IH]; simpl.
  - intros _. by rewrite String.eqb_refl.
  - rewrite not_elem_of_cons. intros [Hne Hpre].
    destruct (String.eqb_spec k k'); [done|by apply IH].
Qed.

Lemma omap_delete_notin k m : k ∉ OMap.keys m -> OMap.delete k m = m.
Proof.
  induction m as [|[k' v'] m IH]; simpl; [done|].
  rewrite not_elem_of_cons. intros [Hne Hm].
  destruct (String.eqb_spec k k'); [done|]. by rewrite IH.
Qed.

Lemma omap_delete_middle pre k v post :
  NoDup (OMap.keys (pre ++ (k, v) :: post)) ->
  OMap.delete k (pre ++ (k, v) :: post) = pre ++ post.
Proof.
  induction pre as [|[k' v'] pre IH]; simpl.
  - rewrite NoDup_cons. intros [Hk _]. rewrite String.eqb_refl.
    by apply omap_delete_notin.
  - rewrite NoDup_cons. intros [Hk Hnd].
    destruct (String.eqb_spec k k') as [->|Hne].
    + exfalso. apply Hk. unfold OMap.keys. rewrite map_app.
      apply elem_of_app. right. left.
    + by rewrite IH.
Qed.

Lemma omap_set_middle pre k v v' post :
  k ∉ OMap.keys pre ->
  OMap.set k v' (pre ++ (k, v) :: post) = pre ++ (k, v') :: post.
Proof.
  induction pre as [|[k0 v0] pre IH]; simpl.
  - intros _. by rewrite String.eqb_refl.
  - rewrite not_elem_of_cons. intros [Hne Hpre].
    destruct (String.eqb_spec k k0); [done|]. by rewrite IH.
Qed.

Lemma omap_get_split k v m :
  OMap.get k m = Some v ->
  exists pre post, m = pre ++ (k, v) :: post /\ k ∉ OMap.keys pre.
Proof.
  induction m as [|[k' v'] m IH]; simpl; [done|].
  destruct (String.eqb_spec k k') as [->|Hne].
  - intros [= ->]. exists [], m. split; [done|apply not_elem_of_nil].
  - intros H. destruct (IH H) as (pre & post & -> & Hpre).
    exists ((k', v') :: pre), post. split; [done|].
    simpl. rewrite not_elem_of_cons. by split.
Qed.

Lemma omap_set_absent k v m :
  OMap.get k m = None -> OMap.set k v m = m ++ [(k, v)].
Proof.
  induction m as [|[k' v'] m IH]; simpl; [done|].
  destruct (String.eqb_spec k k'); [done|]. intros H. by rewrite IH.
Qed.

Lemma omap_delete_sublist k m : sublist (OMap.delete k m) m.
Proof.
  induction m as [|[k' v'] m IH]; simpl; [constructor|].
  destruct (String.eqb k k'); by constructor.
Qed.

End OMapFacts.

(** ** The admission controller *)

Section AdmissionFacts.
Import Admission.

(** The record that [processNextInQueue] builds when it takes [next]
    from the head of [sessionKey]'s queue. *)
Lemma scanQueues_cases entries s :
  (scanQueues entries s = s
   /\ (Forall (fun e => ~ eligible (activeSessions s) e) entries
       \/ maxConcurrency s <= activeConcurrency s))
  \/ (exists pre k next rest post,
        entries = pre ++ (k, next :: rest) :: post
        /\ Forall (fun e => ~ eligible (activeSessions s) e) pre
        /\ (k ∉ activeSessions s)
        /\ activeConcurrency s < maxConcurrency s
        /\ scanQueues entries s =
           {| activeSessions := activeSessions s;
              sessionQueues :=
                match rest with
                | [] => OMap.delete k (sessionQueues s)
                | _ => OMap.set k rest (sessionQueues s)
                end;
              activeConcurrency := activeConcurrency s;
              maxConcurrency := maxConcurrency s;
              immediates := immediates s ++ [(k, next)];
              executions := executions s;
              observed := observed s ++ [Dequeued k next] |}).
Proof.
  induction entries as [|[k queue] entries IH]; simpl.
  - left. split; [done|]. left. constructor.
  - destruct (bool_decide (k ∉ activeSessions s)) eqn:Hact; simpl.
    + apply bool_decide_eq_true in Hact.
      destruct queue as [|next rest]; simpl.
      * destruct IH as [[Heq Hno]|(pre & k' & next & rest & post & -> & Hpre & Hk & Hcap & Heq)].
        -- left. split; [done|]. destruct Hno as [Hno|Hfull]; [left|by right].
           constructor; [|done]. intros [_ Hq]. by apply Hq.
        -- right. exists (((k, []) :: pre)), k', next, rest, post.
           split; [done|]. split; [|done].
           constructor; [|done]. intros [_ Hq]. by apply Hq.
      * destruct (maxConcurrency s <=? activeConcurrency s) eqn:Hcap.
        -- left. split; [done|]. right. by apply Z.leb_le.
        -- right. exists [], k, next, rest, entries.
           apply Z.leb_gt in Hcap. by repeat split.
    + apply bool_decide_eq_false in Hact.
      destruct IH as [[Heq Hno]|(pre & k' & next & rest & post & -> & Hpre & Hk & Hcap & Heq)].
      * left. split; [done|]. destruct Hno as [Hno|Hfull]; [left|by right].
        constructor; [|done]. intros [Hk _]. by apply Hact.
      * right. exists (((k, queue) :: pre)), k', next, rest, post.
        split; [done|]. split; [|done].
        constructor; [|done]. intros [Hk' _]. by apply Hact.
Qed.

(** *** The scenarios of the specification *)

(** One slot: the message of [B] waits until the execution of [A] has
    released it. *)
Example scenario_one_slot :
  (exists s, run [Submit "A" m1; Submit "B" m2] (init 1) = Some s
     /\ executions s = [("A", m1)] /\ sessionQueues s = [("B", [m2])])
  /\ (exists s, run [Submit "A" m1; Submit "B" m2; Complete 0; Immediate]
                  (init 1) = Some s
       /\ executions s = [("B", m2)] /\ sessionQueues s = []).
Proof. split; eexists; (split; [vm_compute; reflexivity|]); by split. Qed.

(** Three messages of one conversation back to back: the second and the
    third wait in arrival order and run one after the other. *)
Example scenario_back_to_back :
  (exists s, run [Submit "A" m1; Submit "A" m2; Submit "A" m3] (init 5) = Some s
     /\ executions s = [("A", m1)] /\ sessionQueues s = [("A", [m2; m3])])
  /\ (exists s, run [Submit "A" m1; Submit "A" m2; Submit "A" m3;
                     Complete 0; Immediate] (init 5) = Some s
       /\ executions s = [("A", m2)] /\ sessionQueues s = [("A", [m3])])
  /\ (exists s, run [Submit "A" m1; Submit "A" m2; Submit "A" m3;
                     Complete 0; Immediate; Complete 0; Immediate]
                  (init 5) = Some s
       /\ executions s = [("A", m3)] /\ sessionQueues s = []
       /\ finishedOf "A" (observed s) = [m1; m2]).
Proof.
  repeat split; eexists; (split; [vm_compute; reflexivity|]); by repeat split.
Qed.

(** *** Release *)

(** C7 — a release removes the finished key from the active set and
    decrements the counter; it starts nothing inline; then either the
    queue map and the deferred callbacks are left as they were (no entry
    of the map has an inactive key and a non-empty queue, or there is no
    capacity), or the first such entry in insertion order loses its oldest
    message, disappears from the map when that was its last one, and
    exactly that one message is registered for a deferred start. *)
Theorem release_starts_at_most_one (i : nat) (s : SlackHandler)
    (k : string) (m : QueuedMessage) :
  executions s !! i = Some (k, m) ->
  NoDup (OMap.keys (sessionQueues s)) ->
  exists s',
    processClaudeQuery_finally i s = Some s'
    /\ activeSessions s' = activeSessions s ∖ {[k]}
    /\ activeConcurrency s' = activeConcurrency s - 1
    /\ maxConcurrency s' = maxConcurrency s
    /\ executions s' = take i (executions s) ++ drop (S i) (executions s)
    /\ ((sessionQueues s' = sessionQueues s
         /\ immediates s' = immediates s
         /\ (Forall (fun e => ~ eligible (activeSessions s ∖ {[k]}) e)
               (sessionQueues s)
             \/ maxConcurrency s <= activeConcurrency s - 1))
        \/ (exists pre k' next rest post,
              sessionQueues s = pre ++ (k', next :: rest) :: post
              /\ Forall (fun e => ~ eligible (activeSessions s ∖ {[k]}) e) pre
              /\ (k' ∉ activeSessions s ∖ {[k]})
              /\ activeConcurrency s - 1 < maxConcurrency s
              /\ sessionQueues s' =
                 pre ++ match rest with [] => [] | _ => [(k', rest)] end ++ post
              /\ immediates s' = immediates s ++ [(k', next)])).
Proof.
  intros Hex Hnd. unfold processClaudeQuery_finally. rewrite Hex.
  eexists. split; [reflexivity|]. unfold processNextInQueue.
  match goal with |- context [scanQueues ?es ?st] =>
    destruct (scanQueues_cases es st)
      as [[Heq Hno]|(pre & k' & next & rest & post & Hes & Hpre & Hk & Hcap & Heq)];
    rewrite Heq; clear Heq; simpl in *
  end.
  - repeat split; try done. by left.
  - repeat split; try done. right.
    exists pre, k', next, rest, post. repeat split; try done.
    rewrite Hes in Hnd |- *.
    assert (k' ∉ OMap.keys pre) as Hfresh.
    { unfold OMap.keys in Hnd. rewrite map_app in Hnd.
      apply NoDup_app in Hnd as (_ & Hdisj & _).
      intros Hin. apply (Hdisj _ Hin). left. }
    destruct rest as [|r rest]; simpl.
    + by apply omap_delete_middle.
    + by apply omap_set_middle.
Qed.

Lemma release_starts_at_most_one_witness :
  executions busy_state !! 0%nat = Some ("A", m1)
  /\ NoDup (OMap.keys (sessionQueues busy_state))
  /\ exists s',
       processClaudeQuery_finally 0 busy_state = Some s'
       /\ activeSessions s' = activeSessions busy_state ∖ {["A"]}
       /\ immediates s' = [("C", m2)]
       /\ sessionQueues s' = [("B", [m3]); ("C", [m4])].
Proof.
  assert (NoDup (OMap.keys (sessionQueues busy_state))) as Hnd.
  { vm_compute. repeat constructor; set_solver. }
  split; [reflexivity|]. split; [exact Hnd|].
  destruct (release_starts_at_most_one 0 busy_state "A" m1 eq_refl Hnd)
    as (s' & Hfin & Hact & _).
  exists s'. split; [exact Hfin|]. split; [exact Hact|].
  vm_compute in Hfin. injection Hfin as <-. split; reflexivity.
Defined.

(** *** The window between a release and the deferred start

    [processNextInQueue] takes a message off its queue and hands it to
    [setImmediate] without adding its key to [activeSessions] or counting
    it in [activeConcurrency]; both happen only when the callback runs.
    A message handled in between is checked against the old values. *)

(** C1 — the counters after a message of another conversation is
    admitted inside the window: two executions with a limit of one.  With
    a message of the same conversation the set has one key and the
    counter is two. *)
Theorem window_breaks_counters :
  (exists s, run window_other_key (init 1) = Some s
     /\ activeSessions s = {["C"; "B"]}
     /\ activeConcurrency s = 2 /\ maxConcurrency s = 1
     /\ ~ counters_ok s)
  /\ (exists s, run window_same_key (init 1) = Some s
     /\ activeSessions s = {["A"]}
     /\ activeConcurrency s = 2 /\ maxConcurrency s = 1
     /\ ~ counters_ok s).
Proof.
  split; eexists; (split; [vm_compute; reflexivity|]);
    (repeat split; try reflexivity); intros [_ Hle]; simpl in Hle; lia.
Qed.

(** C2 — one conversation key in two executions at once: a message of
    the conversation is admitted inside the window, then the deferred
    start of the queued one runs. *)
Theorem window_runs_key_twice :
  exists s, run window_same_key (init 1) = Some s
    /\ running "A" s = [m3; m2]
    /\ reachable 1 s.
Proof.
  eexists. split; [vm_compute; reflexivity|]. split; [reflexivity|].
  exists window_same_key. vm_compute. reflexivity.
Qed.

(** C6 — completions out of submission order: [m2] and [m3] are queued
    and taken off the queue in that order, [m4] is admitted inside the
    window ahead of both, and [m3] finishes while [m2] is still
    running. *)
Theorem window_reorders_completions :
  exists s, run window_overtake (init 2) = Some s
    /\ queuedOf "A" (observed s) = [m2; m3]
    /\ dequeuedOf "A" (observed s) = [m2; m3]
    /\ finishedOf "A" (observed s) = [m1; m4; m3; m2].
Proof.
  eexists. split; [vm_compute; reflexivity|]. repeat split.
Qed.

(** *** What holds in every reachable state: the queues

    Whatever the interleaving, the messages taken off the queue of a key
    are those put on it, in the same order, and the rest is still
    waiting in that order. *)

Lemma queues_ok_init max : queues_ok (init max).
Proof. split; [constructor|done]. Qed.

Lemma queues_ok_enqueue k m s :
  queues_ok s -> queues_ok (enqueueMessage k m s).
Proof.
  intros [Hnd Hq]. split; simpl.
  - by apply omap_NoDup_set.
  - intros k'. unfold queuedOf, dequeuedOf in *. rewrite !omap_app. simpl.
    destruct (String.eqb_spec k k') as [->|Hne].
    + rewrite omap_get_set_eq, Hq. simpl.
      by rewrite app_nil_r, app_assoc.
    + rewrite omap_get_set_ne by done. by rewrite Hq, !app_nil_r.
Qed.

Lemma queues_ok_begin k m s :
  queues_ok s -> queues_ok (processClaudeQuery_begin k m s).
Proof.
  intros [Hnd Hq]. split; simpl; [done|].
  intros k'. unfold queuedOf, dequeuedOf in *. rewrite !omap_app. simpl.
  by rewrite Hq, !app_nil_r.
Qed.

Lemma queues_ok_next s : queues_ok s -> queues_ok (processNextInQueue s).
Proof.
  intros [Hnd Hq]. unfold processNextInQueue.
  destruct (scanQueues_cases (sessionQueues s) s)
    as [[-> _]|(pre & k & next & rest & post & Hes & _ & _ & _ & ->)];
    [by split|].
  assert (k ∉ OMap.keys pre) as Hfresh.
  { rewrite Hes in Hnd. unfold OMap.keys in Hnd. rewrite map_app in Hnd.
    apply NoDup_app in Hnd as (_ & Hdisj & _).
    intros Hin. apply (Hdisj _ Hin). left. }
  assert (OMap.get k (sessionQueues s) = Some (next :: rest)) as Hget.
  { rewrite Hes. by apply omap_get_middle. }
  split; simpl.
  - destruct rest; [by apply omap_NoDup_delete|by apply omap_NoDup_set].
  - intros k'. unfold queuedOf, dequeuedOf in *. rewrite !omap_app. simpl.
    rewrite app_nil_r, Hq.
    destruct (String.eqb_spec k k') as [->|Hne].
    + rewrite Hget. simpl. rewrite <- app_assoc. simpl. do 2 f_equal.
      destruct rest; [by rewrite omap_get_delete_eq|by rewrite omap_get_set_eq].
    + rewrite app_nil_r. f_equal.
      destruct rest;
        [by rewrite omap_get_delete_ne|by rewrite omap_get_set_ne].
Qed.

Lemma queues_ok_step e s s' :
  queues_ok s -> step e s = Some s' -> queues_ok s'.
Proof.
  intros Hok. destruct e as [k m| |i]; simpl.
  - intros [= <-]. unfold handleMessage.
    repeat case_match; auto using queues_ok_enqueue, queues_ok_begin.
  - unfold runImmediate. destruct (immediates s) as [|[k m] rest] eqn:Him;
      [done|]. intros [= <-]. apply queues_ok_begin.
    destruct Hok as [Hnd Hq]. by split.
  - unfold processClaudeQuery_finally.
    destruct (executions s !! i) as [[k m]|]; [|done]. intros [= <-].
    apply queues_ok_next. destruct Hok as [Hnd Hq]. split; simpl; [done|].
    intros k'. unfold queuedOf, dequeuedOf in *. rewrite !omap_app. simpl.
    by rewrite Hq, !app_nil_r.
Qed.

Lemma queues_ok_run tr s s' :
  queues_ok s -> run tr s = Some s' -> queues_ok s'.
Proof.
  revert s. induction tr as [|e tr IH]; simpl; intros s Hok.
  - by intros [= <-].
  - destruct (step e s) as [s1|] eqn:Hstep; [|done].
    apply IH. by eapply queues_ok_step.
Qed.

(** Dispatch from the queue of a key is first in, first out, in every
    reachable state. *)
Lemma queue_dispatch_fifo max s k :
  reachable max s ->
  queuedOf k (observed s)
  = dequeuedOf k (observed s) ++ default [] (OMap.get k (sessionQueues s)).
Proof.
  intros [tr Hrun].
  by destruct (queues_ok_run tr _ _ (queues_ok_init max) Hrun) as [_ Hq].
Qed.

(** *** What holds when the window is closed

    If the deferred start runs before any other event, the counters and
    the active set describe the executions in flight exactly. *)

Lemma atomic_ok_begin k m s :
  immediates s = [] ->
  NoDup (map fst (executions s)) ->
  activeSessions s = list_to_set (map fst (executions s)) ->
  activeConcurrency s = Z.of_nat (List.length (executions s)) ->
  k ∉ activeSessions s ->
  activeConcurrency s < maxConcurrency s ->
  atomic_ok (processClaudeQuery_begin k m s).
Proof.
  intros Him Hnd Hact Hcnt Hk Hcap. unfold atomic_ok. simpl.
  split; [done|]. rewrite map_app. simpl. split; [|split; [|split]].
  - apply NoDup_app. split; [done|]. split; [|apply NoDup_singleton].
    intros x Hx. rewrite list_elem_of_singleton. intros ->.
    apply Hk. rewrite Hact. by apply elem_of_list_to_set.
  - rewrite Hact, list_to_set_app_L. simpl. set_solver.
  - rewrite length_app. simpl. lia.
  - lia.
Qed.

Lemma atomic_ok_release i k m (l : list (string * QueuedMessage)) :
  NoDup (map fst l) -> l !! i = Some (k, m) ->
  NoDup (map fst (take i l ++ drop (S i) l))
  /\ (list_to_set (map fst l) ∖ {[k]} : gset string)
     = list_to_set (map fst (take i l ++ drop (S i) l))
  /\ Z.of_nat (List.length (take i l ++ drop (S i) l))
     = Z.of_nat (List.length l) - 1.
Proof.
  intros Hnd Hi. pose proof (take_drop_middle l i _ Hi) as Hl.
  set (pre := take i l) in *. set (post := drop (S i) l) in *.
  rewrite <- Hl in Hnd |- *. clearbody pre post. clear Hl Hi.
  rewrite !map_app in *. simpl in *.
  apply NoDup_app in Hnd as (Hpre & Hdisj & Hpost).
  apply NoDup_cons in Hpost as [Hk Hpost].
  split; [|split].
  - apply NoDup_app. split; [done|]. split; [|done].
    intros x Hx Hx'. apply (Hdisj x Hx). by right.
  - assert (k ∉ map fst pre) as Hkpre.
    { intros Hin. apply (Hdisj k Hin). left. }
    rewrite !list_to_set_app_L. simpl.
    apply set_eq. intros x.
    rewrite elem_of_difference, !elem_of_union, !elem_of_list_to_set,
      elem_of_singleton.
    split; [tauto|]. intros [Hx|Hx]; (split; [tauto|]); by intros ->.
  - rewrite !length_app. simpl. lia.
Qed.

Lemma atomic_ok_step e s s' :
  atomic_ok s -> stepAtomic e s = Some s' -> atomic_ok s'.
Proof.
  intros (Him & Hnd & Hact & Hcnt & Hcap). unfold stepAtomic.
  destruct e as [k m| |i]; simpl.
  - unfold handleMessage.
    destruct (bool_decide (k ∈ activeSessions s)) eqn:Hk; simpl.
    { rewrite Him. simpl. intros [= <-]. by repeat split. }
    destruct (maxConcurrency s <=? activeConcurrency s) eqn:Hfull; simpl.
    { rewrite Him. simpl. intros [= <-]. by repeat split. }
    rewrite Him. simpl. intros [= <-].
    apply bool_decide_eq_false in Hk. apply Z.leb_gt in Hfull.
    by apply atomic_ok_begin.
  - unfold runImmediate. by rewrite Him.
  - unfold processClaudeQuery_finally.
    destruct (executions s !! i) as [[k m]|] eqn:Hi; [|done].
    destruct (atomic_ok_release i k m _ Hnd Hi) as (Hnd' & Hact' & Hlen').
    unfold processNextInQueue. simpl.
    match goal with |- context [scanQueues ?es ?st] =>
      destruct (scanQueues_cases es st)
        as [[-> _]|(pre & k' & next & rest & post & _ & _ & Hk' & Hcap' & ->)]
    end; simpl in *.
    + rewrite Him. simpl. intros [= <-]. unfold atomic_ok. simpl.
      rewrite Hact, Hcnt. repeat split; try done; lia.
    + rewrite Him. simpl. intros [= <-].
      apply atomic_ok_begin; simpl; try done.
      * by rewrite Hact.
      * lia.
Qed.

Lemma atomic_ok_run tr s s' :
  atomic_ok s -> runAtomic tr s = Some s' -> atomic_ok s'.
Proof.
  revert s. induction tr as [|e tr IH]; simpl; intros s Hok.
  - by intros [= <-].
  - destruct (stepAtomic e s) as [s1|] eqn:Hstep; [|done].
    apply IH. by eapply atomic_ok_step.
Qed.

Lemma executions_of_absent_key (k : string)
    (l : list (string * QueuedMessage)) :
  k ∉ map fst l -> filter (fun e => fst e = k) l = [].
Proof.
  induction l as [|[k' m'] l IH]; simpl; [done|].
  rewrite not_elem_of_cons. intros [Hne Hl].
  rewrite filter_cons_False by (simpl; congruence). by apply IH.
Qed.

Lemma executions_of_key_single (k : string)
    (l : list (string * QueuedMessage)) :
  NoDup (map fst l) ->
  (List.length (filter (fun e => fst e = k) l) <= 1)%nat.
Proof.
  induction l as [|[k' m'] l IH]; simpl; [lia|].
  rewrite NoDup_cons. intros [Hk' Hnd].
  destruct (decide (k' = k)) as [->|Hne].
  - rewrite filter_cons_True by done.
    rewrite executions_of_absent_key by done. simpl. lia.
  - rewrite filter_cons_False by done. by apply IH.
Qed.

(** With the window closed, the invariant of the data model holds and
    no key runs twice. *)
Lemma closed_window_counters max tr s k :
  0 <= max -> runAtomic tr (init max) = Some s ->
  counters_ok s /\ (List.length (running k s) <= 1)%nat.
Proof.
  intros Hmax Hrun.
  assert (atomic_ok (init max)) as Hinit.
  { unfold atomic_ok. simpl. repeat split; try done. constructor. }
  destruct (atomic_ok_run tr _ _ Hinit Hrun) as (_ & Hnd & Hact & Hcnt & Hcap).
  split; [split; [|done]|].
  - rewrite Hact, Hcnt. f_equal. unfold size, set_size. simpl.
    by rewrite (Permutation_length (elements_list_to_set _ Hnd)), length_map.
  - unfold running. rewrite length_map. by apply executions_of_key_single.
Qed.

End AdmissionFacts.

(** ** Paths *)

Section PosixFacts.
Import Posix.

(** [path.resolve] on the shapes of path the gate meets. *)
Example resolve_relative : resolve "/home/bot" "work/../x/" = "/home/bot/x".
Proof. reflexivity. Qed.

Example resolve_doubled_slash : resolve "/home/bot" "/foo/bar//baz/" = "/foo/bar/baz".
Proof. reflexivity. Qed.

Example resolve_empty : resolve "/home/bot" "" = "/home/bot".
Proof. reflexivity. Qed.

Example resolve_above_root : resolve "/home/bot" "/../.." = "/".
Proof. reflexivity. Qed.

Lemma startsWith_spec s p :
  startsWith s p = true <-> exists r, s = p +:+ r.
Proof.
  revert s. induction p as [|c p IH]; intros s; simpl.
  - split; [intros _; by exists s|done].
  - destruct s as [|d s].
    + split; [done|]. by intros [r [=]].
    + rewrite andb_true_iff, IH. split.
      * intros [Hc [r ->]]. apply Ascii.eqb_eq in Hc as ->. by exists r.
      * intros [r [= -> ->]]. split; [apply Ascii.eqb_refl|by exists r].
Qed.

Lemma split_no_sep s : Forall (fun seg => hasSep seg = false) (split s).
Proof.
  induction s as [|c s IH]; simpl.
  - by repeat constructor.
  - destruct (isPosixPathSeparator c) eqn:Hc.
    + by constructor.
    + destruct (split s) as [|seg segs].
      * repeat constructor. simpl. by rewrite Hc.
      * apply Forall_cons in IH as [Hseg Hsegs]. constructor; [|done].
        simpl. by rewrite Hc.
Qed.

Lemma Forall_removelast {A} (P : A -> Prop) (l : list A) :
  Forall P l -> Forall P (removelast l).
Proof.
  induction 1 as [|x l Hx Hl IH]; simpl; [constructor|].
  destruct l; [constructor|]. by constructor.
Qed.

Lemma pushSegment_clean res seg :
  Forall clean res -> hasSep seg = false -> Forall clean (pushSegment res seg).
Proof.
  intros Hres Hseg. unfold pushSegment.
  destruct (String.eqb_spec seg "") as [->|Hne]; [done|].
  destruct (String.eqb seg "."); [done|].
  destruct (String.eqb seg ".."); [by apply Forall_removelast|].
  apply Forall_app. split; [done|]. by repeat constructor.
Qed.

Lemma fold_pushSegment_clean segs res :
  Forall clean res ->
  Forall (fun seg => hasSep seg = false) segs ->
  Forall clean (fold_left pushSegment segs res).
Proof.
  revert res. induction segs as [|seg segs IH]; intros res Hres Hsegs;
    simpl; [done|].
  apply Forall_cons in Hsegs as [Hseg Hsegs].
  apply IH; [|done]. by apply pushSegment_clean.
Qed.

Lemma normalizeString_clean segs :
  Forall (fun seg => hasSep seg = false) segs ->
  Forall clean (normalizeString segs).
Proof. apply fold_pushSegment_clean. constructor. Qed.

Lemma segments_clean cwd p : Forall clean (segments cwd p).
Proof. apply normalizeString_clean, split_no_sep. Qed.

Lemma append_nil_l s : "" +:+ s = s.
Proof. reflexivity. Qed.

Lemma append_cons c s t : String c s +:+ t = String c (s +:+ t).
Proof. reflexivity. Qed.

Lemma append_assoc x y z : (x +:+ y) +:+ z = x +:+ y +:+ z.
Proof.
  induction x as [|c x IH]; [done|]. rewrite !append_cons. by f_equal.
Qed.

Lemma append_slash_inj x y a b :
  hasSep x = false -> hasSep y = false ->
  x +:+ String "/" a = y +:+ String "/" b -> x = y /\ a = b.
Proof.
  revert y. induction x as [|c x IH]; intros [|d y];
    rewrite ?append_nil_l, ?append_cons; simpl.
  - by intros _ _ [= ->].
  - intros _ Hy [= <- _]. done.
  - intros Hx _ [= -> _]. done.
  - intros Hx Hy [= -> Heq].
    apply orb_false_iff in Hx as [_ Hx]. apply orb_false_iff in Hy as [_ Hy].
    destruct (IH y Hx Hy Heq) as [-> ->]. done.
Qed.

Lemma append_sep_inj x y a b :
  hasSep x = false -> hasSep y = false ->
  x +:+ sep +:+ a = y +:+ sep +:+ b -> x = y /\ a = b.
Proof. exact (append_slash_inj x y a b). Qed.

Lemma append_slash_has_sep x a : hasSep (x +:+ String "/" a) = true.
Proof.
  induction x as [|c x IH]; rewrite ?append_nil_l, ?append_cons; simpl;
    [done|].
  rewrite IH. apply orb_true_r.
Qed.

Lemma append_sep_has_sep x a : hasSep (x +:+ sep +:+ a) = true.
Proof. exact (append_slash_has_sep x a). Qed.

Lemma append_sep_nonempty x a : x +:+ sep +:+ a <> "".
Proof. unfold sep. by destruct x. Qed.

Lemma join_single x : join [x] = x.
Proof. done. Qed.

Lemma join_cons2 x y l : join (x :: y :: l) = x +:+ sep +:+ join (y :: l).
Proof. done. Qed.

Lemma join_inj D T :
  Forall clean D -> Forall clean T -> join D = join T -> D = T.
Proof.
  revert T. induction D as [|d D IH]; intros T HD HT Heq.
  - destruct T as [|t [|t' T]]; [done| |].
    + apply Forall_cons in HT as [[Ht _] _].
      rewrite join_single in Heq. simpl in Heq. congruence.
    + rewrite join_cons2 in Heq. simpl in Heq. symmetry in Heq.
      by apply append_sep_nonempty in Heq.
  - apply Forall_cons in HD as [[Hd Hds] HD].
    destruct T as [|t T].
    { destruct D as [|d' D].
      - rewrite join_single in Heq. simpl in Heq. congruence.
      - rewrite join_cons2 in Heq. simpl in Heq.
        by apply append_sep_nonempty in Heq. }
    apply Forall_cons in HT as [[Ht Hts] HT].
    destruct D as [|d' D], T as [|t' T].
    + rewrite !join_single in Heq. by subst.
    + rewrite join_cons2, join_single in Heq. subst d.
      by rewrite append_sep_has_sep in Hds.
    + rewrite join_cons2, join_single in Heq. subst t.
      by rewrite append_sep_has_sep in Hts.
    + rewrite !join_cons2 in Heq.
      apply append_sep_inj in Heq as [-> Heq]; [|done..].
      f_equal. by apply IH.
Qed.

Lemma join_prefix D T r :
  D <> [] -> Forall clean D -> Forall clean T ->
  join T = join D +:+ sep +:+ r -> D `prefix_of` T.
Proof.
  revert T. induction D as [|d D IH]; intros T HDne HD HT Heq; [done|].
  apply Forall_cons in HD as [[Hd Hds] HD].
  destruct T as [|t [|t' T]].
  - simpl in Heq. symmetry in Heq. by apply append_sep_nonempty in Heq.
  - apply Forall_cons in HT as [[Ht Hts] _].
    rewrite join_single in Heq. subst t.
    destruct D as [|d' D].
    + rewrite join_single in Hts. by rewrite append_sep_has_sep in Hts.
    + rewrite join_cons2 in Hts.
      rewrite !append_assoc in Hts.
      by rewrite append_sep_has_sep in Hts.
  - apply Forall_cons in HT as [[Ht Hts] HT].
    rewrite join_cons2 in Heq. destruct D as [|d' D].
    + rewrite join_single in Heq.
      apply append_sep_inj in Heq as [-> _]; [|done..].
      by exists (t' :: T).
    + rewrite join_cons2 in Heq.
      rewrite !append_assoc in Heq.
      apply append_sep_inj in Heq as [-> Heq]; [|done..].
      destruct (IH (t' :: T)) as [k Hk]; [done|done|done|done|].
      exists k. by rewrite Hk.
Qed.

Lemma join_app D K :
  D <> [] -> K <> [] -> join (D ++ K) = join D +:+ sep +:+ join K.
Proof.
  intros HD HK. induction D as [|d D IH]; [done|].
  destruct D as [|d' D].
  - destruct K as [|k K]; [done|]. change ([d] ++ k :: K) with (d :: k :: K).
    by rewrite join_cons2, join_single.
  - change ((d :: d' :: D) ++ K) with (d :: d' :: (D ++ K)).
    rewrite !join_cons2. change (d' :: D ++ K) with ((d' :: D) ++ K).
    rewrite IH by done. by rewrite !append_assoc.
Qed.

End PosixFacts.

(** ** The approval gate *)

Section GateFacts.
Import Gate.

Variable cwd : string.
Variable JSON_parse : string -> option PermissionRequest.

Lemma writesTo_app h l1 l2 :
  writesTo h (l1 ++ l2) = writesTo h l1 ++ writesTo h l2.
Proof.
  induction l1 as [|e l1 IH]; simpl; [done|].
  destruct e; try done. destruct (Nat.eqb res h); simpl; by rewrite IH.
Qed.

Lemma respond_absent id a msg s :
  OMap.get id (pending s) = None -> respond id a msg s = s.
Proof. intros H. unfold respond. by rewrite H. Qed.

Lemma respond_present id a msg s p :
  OMap.get id (pending s) = Some p ->
  respond id a msg s
  = emit (HttpWrite (httpRes p) 200
            (Some {| behavior := if a then "allow" else "deny";
                     message := msg |}))
         (setPending (OMap.delete id) s).
Proof. intros H. unfold respond. by rewrite H. Qed.

Lemma respond_forgets id a msg s :
  OMap.get id (pending (respond id a msg s)) = None.
Proof.
  unfold respond. destruct (OMap.get id (pending s)) eqn:H; [|done].
  simpl. apply omap_get_delete_eq.
Qed.

Lemma respond_memory id a msg s :
  approvedTools (respond id a msg s) = approvedTools s.
Proof. unfold respond. by destruct (OMap.get id (pending s)). Qed.

Lemma resolveApproval_forgets id a s :
  OMap.get id (pending (resolveApproval id a s)) = None.
Proof.
  unfold resolveApproval. destruct (OMap.get id (pending s)) eqn:H; [|done].
  apply respond_forgets.
Qed.

Lemma onTimeout_forgets id s : OMap.get id (pending (onTimeout id s)) = None.
Proof.
  unfold onTimeout, OMap.has.
  destruct (OMap.get id (pending s)) eqn:H; [apply respond_forgets|done].
Qed.

Lemma resolveBy_forgets r id s :
  OMap.get id (pending (resolveBy r id s)) = None.
Proof.
  destruct r; simpl;
    auto using resolveApproval_forgets, onTimeout_forgets, respond_forgets.
Qed.

Lemma resolveBy_absent r id s :
  OMap.get id (pending s) = None -> resolveBy r id s = s.
Proof.
  intros H. destruct r; simpl;
    unfold resolveApproval, onTimeout, OMap.has, respond; by rewrite H.
Qed.

(** *** The HTTP front *)

(** C9 — a POST to /permission-request whose body does not parse is
    answered 400 with a deny decision "Invalid request", and nothing else
    changes; a request with another path or method is answered 404, and
    nothing else changes. *)
Theorem bridge_rejects_malformed (method url body : string) (res : nat)
    (now rnd : string) (s : PermissionHandler) :
  let s' := handleRequest cwd JSON_parse method url body res now rnd s in
  (method = "POST" -> url = "/permission-request" ->
   JSON_parse body = None ->
     effects s' = effects s ++ [HttpWrite res 400 (Some (deny "Invalid request"))]
     /\ pending s' = pending s /\ approvedTools s' = approvedTools s
     /\ posting s' = posting s /\ timers s' = timers s)
  /\ (method <> "POST" \/ url <> "/permission-request" ->
     effects s' = effects s ++ [HttpWrite res 404 None]
     /\ pending s' = pending s /\ approvedTools s' = approvedTools s
     /\ posting s' = posting s /\ timers s' = timers s).
Proof.
  intros s'. subst s'. unfold handleRequest. split.
  - intros -> -> Hparse. simpl. by rewrite Hparse.
  - intros Hne.
    destruct (String.eqb_spec method "POST") as [->|Hm]; simpl; [|done].
    destruct (String.eqb_spec url "/permission-request") as [->|Hu];
      simpl; [|done].
    by destruct Hne.
Qed.

(** *** Resolution *)

(** C5 — after a resolution of an approval id by approve, deny, timeout
    or shutdown, the id has no pending record, so that a second
    resolution of any of the four kinds returns the state as it is, and
    the loop of [stop] does not visit the id. *)
Theorem second_resolution_is_noop (r1 r2 : Resolution)
    (approvalId : string) (s : PermissionHandler) :
  let s1 := resolveBy r1 approvalId s in
  OMap.get approvalId (pending s1) = None
  /\ resolveBy r2 approvalId s1 = s1
  /\ approvalId ∉ OMap.keys (pending s1).
Proof.
  intros s1. pose proof (resolveBy_forgets r1 approvalId s) as Hgone.
  split; [done|]. split.
  - by apply resolveBy_absent.
  - by apply omap_get_None.
Qed.

Lemma stop_loop msg (ents : list (string * PendingPermission)) s :
  pending s = ents -> NoDup (OMap.keys ents) ->
  fold_left (fun st id => respond id false msg st) (OMap.keys ents) s
  = {| pending := []; approvedTools := approvedTools s;
       posting := posting s; timers := timers s;
       effects := effects s
         ++ map (fun e => HttpWrite (httpRes e.2) 200 (Some (deny msg))) ents |}.
Proof.
  revert s. induction ents as [|[id p] ents IH]; intros s Hp Hnd; simpl.
  - destruct s; simpl in *. by rewrite Hp, app_nil_r.
  - apply NoDup_cons in Hnd as [Hid Hnd].
    assert (OMap.get id (pending s) = Some p) as Hget.
    { rewrite Hp. simpl. by rewrite String.eqb_refl. }
    rewrite (respond_present _ _ _ _ _ Hget), IH; simpl; [| |done].
    + by rewrite <- app_assoc.
    + rewrite Hp. simpl. rewrite String.eqb_refl.
      by apply omap_delete_notin.
Qed.

Lemma handlePermissionRequest_memory data res now rnd s :
  approvedTools (handlePermissionRequest cwd data res now rnd s)
  = approvedTools s.
Proof. unfold handlePermissionRequest. by repeat case_match. Qed.

Lemma resume_memory id r s :
  approvedTools (handlePermissionRequest_resume id r s) = approvedTools s.
Proof.
  unfold handlePermissionRequest_resume. simpl.
  destruct r; [by repeat case_match|apply respond_memory].
Qed.

Lemma onTimeout_memory id s : approvedTools (onTimeout id s) = approvedTools s.
Proof. unfold onTimeout. case_match; [apply respond_memory|done]. Qed.

Lemma stop_memory s : approvedTools (stop s) = approvedTools s.
Proof.
  unfold stop. simpl. generalize (OMap.keys (pending s)). intros l.
  revert s. induction l as [|id l IH]; intros s; simpl; [done|].
  by rewrite IH, respond_memory.
Qed.

(** C8 — a denial by the human, a timeout and a shutdown leave the
    approval memory as it was and write a deny decision whose message
    names the cause ("Denied by user", "Permission request timed out",
    "Server shutting down"); and whatever the event, a tool that is in
    the memory of a directory afterwards was there before, or the event is
    a human approval of a pending request for that tool that carried that
    directory. *)
Theorem denials_leave_memory_untouched (s : PermissionHandler) :
  NoDup (OMap.keys (pending s)) ->
  (forall id p, OMap.get id (pending s) = Some p ->
     (approvedTools (resolveApproval id false s) = approvedTools s
      /\ effects (resolveApproval id false s)
         = effects s
           ++ match truthy (messageTs p) with
              | Some ts => [UpdateMessage (p_channel p) ts false (toolName p) None]
              | None => []
              end
           ++ [HttpWrite (httpRes p) 200 (Some (deny "Denied by user"))])
     /\ (approvedTools (onTimeout id s) = approvedTools s
         /\ effects (onTimeout id s)
            = effects s
              ++ [HttpWrite (httpRes p) 200
                    (Some (deny "Permission request timed out"))]))
  /\ (approvedTools (stop s) = approvedTools s
      /\ effects (stop s)
         = effects s
           ++ map (fun e => HttpWrite (httpRes e.2) 200
                              (Some (deny "Server shutting down")))
                  (pending s)
           ++ [ServerClose])
  /\ (forall e D T,
        T ∈ default ∅ (approvedTools (apply cwd JSON_parse e s) !! D) ->
        T ∈ default ∅ (approvedTools s !! D)
        \/ exists id p, e = Action id true
             /\ OMap.get id (pending s) = Some p
             /\ truthy (workingDirectory p) = Some D
             /\ toolName p = T).
Proof.
  intros Hnd. split; [|split].
  - intros id p Hget. split; [split|split].
    + unfold resolveApproval. rewrite Hget.
      rewrite respond_memory. by case_match.
    + unfold resolveApproval. rewrite Hget.
      destruct (truthy (messageTs p)) as [ts|]; simpl.
      * rewrite (respond_present _ _ _ _ p) by done. simpl.
        by rewrite <- app_assoc.
      * by rewrite (respond_present _ _ _ _ p).
    + apply onTimeout_memory.
    + unfold onTimeout, OMap.has. rewrite Hget.
      by rewrite (respond_present _ _ _ _ p).
  - split; [apply stop_memory|].
    unfold stop. rewrite (stop_loop _ (pending s)) by done. simpl.
    by rewrite <- app_assoc.
  - intros e D T. destruct e as [method url body res now rnd|id r|id|id a| |];
      cbn [apply].
    + unfold handleRequest.
      repeat case_match; simpl; rewrite ?handlePermissionRequest_memory; auto.
    + rewrite resume_memory. auto.
    + rewrite onTimeout_memory. auto.
    + unfold resolveApproval.
      destruct (OMap.get id (pending s)) as [p|] eqn:Hget; [|auto].
      rewrite respond_memory.
      destruct a; [|case_match; simpl; auto].
      destruct (truthy (workingDirectory p)) as [wd|] eqn:Hwd;
        [|case_match; simpl; auto].
      assert (forall s0, approvedTools
                (match truthy (messageTs p) with
                 | Some ts => emit (UpdateMessage (p_channel p) ts true
                                      (toolName p) (Some wd)) s0
                 | None => s0
                 end) = approvedTools s0) as ->
        by (intros s0; by case_match).
      simpl. destruct (decide (wd = D)) as [->|Hne].
      * rewrite lookup_insert_eq. simpl.
        rewrite elem_of_union, elem_of_singleton.
        intros [HT| ->]; [by left|]. right. by exists id, p.
      * rewrite lookup_insert_ne by done. auto.
    + unfold clearApprovals. simpl. rewrite lookup_empty. simpl. set_solver.
    + rewrite stop_memory. auto.
Qed.

(** *** Response objects are written once *)

Lemma handles_delete_subseteq id s :
  handles (setPending (OMap.delete id) s) ⊆ handles s.
Proof.
  unfold handles. simpl. apply sublist_subseteq.
  apply (fmap_sublist (fun e => httpRes e.2)), omap_delete_sublist.
Qed.

Lemma handles_held id p s :
  OMap.get id (pending s) = Some p -> httpRes p ∈ handles s.
Proof.
  intros H. apply omap_get_Some_elem in H. unfold handles.
  apply list_elem_of_fmap. by exists (id, p).
Qed.

Lemma handles_set id p s :
  handles (setPending (OMap.set id p) s) ⊆ httpRes p :: handles s.
Proof.
  unfold handles. simpl. generalize (pending s). intros m.
  induction m as [|[k v] m IH]; simpl.
  - set_solver.
  - destruct (String.eqb k id) eqn:E; rewrite String.eqb_sym in E;
      rewrite E; simpl; set_solver.
Qed.

Lemma wf_emit_write res status body s :
  res ∉ handles s -> wf s -> wf (emit (HttpWrite res status body) s).
Proof.
  intros Hres (Hk & Hh & Hw & Ht). repeat split; try done.
  intros h Hin. simpl. rewrite writesTo_app, (Hw h Hin). simpl.
  destruct (Nat.eqb_spec res h) as [->|]; [done|done].
Qed.

Lemma wf_emit_other e s :
  (forall res status body, e <> HttpWrite res status body) ->
  wf s -> wf (emit e s).
Proof.
  intros He (Hk & Hh & Hw & Ht). repeat split; try done.
  intros h Hin. simpl. rewrite writesTo_app, (Hw h Hin). simpl.
  destruct e; try done. by destruct (He res status body).
Qed.

Lemma wf_respond id a msg s : wf s -> wf (respond id a msg s).
Proof.
  intros (Hk & Hh & Hw & Ht). unfold respond.
  destruct (OMap.get id (pending s)) as [p|] eqn:Hget; [|done].
  destruct (omap_get_split _ _ _ Hget) as (pre & post & Hm & Hpre).
  assert (pending (setPending (OMap.delete id) s) = pre ++ post) as Hdel.
  { simpl. rewrite Hm. apply omap_delete_middle. by rewrite <- Hm. }
  unfold handles in *. rewrite Hm in Hh, Hw, Hk.
  rewrite map_app in Hh. simpl in Hh.
  apply NoDup_app in Hh as (Hh1 & Hh2 & Hh3).
  apply NoDup_cons in Hh3 as [Hh3 Hh4].
  repeat split; unfold handles; simpl.
  - rewrite Hm. by apply omap_NoDup_delete.
  - simpl in Hdel. rewrite Hdel, map_app. apply NoDup_app.
    split; [done|]. split; [|done]. intros x Hx Hx'.
    apply (Hh2 x Hx). by right.
  - simpl in Hdel. rewrite Hdel. intros h Hin.
    rewrite writesTo_app, Hw; simpl.
    + destruct (Nat.eqb_spec (httpRes p) h) as [<-|]; [|done].
      rewrite map_app, elem_of_app in Hin. destruct Hin as [Hin|Hin]; [|done].
      exfalso. apply (Hh2 _ Hin). left.
    + rewrite map_app, elem_of_app in Hin |- *. simpl.
      destruct Hin; [by left|right; by right].
  - done.
Qed.

Lemma wf_set_fresh id p s :
  httpRes p ∉ handles s -> writesTo (httpRes p) (effects s) = [] ->
  wf s -> wf (setPending (OMap.set id p) s).
Proof.
  intros Hres Hnew (Hk & Hh & Hw & Ht). unfold handles in *.
  repeat split; unfold handles; simpl; [by apply omap_NoDup_set| | |done].
  - destruct (OMap.get id (pending s)) as [q|] eqn:Hget.
    + destruct (omap_get_split _ _ _ Hget) as (pre & post & Hm & Hpre).
      rewrite Hm in Hh, Hres |- *. rewrite omap_set_middle by done.
      rewrite map_app in *. simpl in *.
      apply NoDup_app in Hh as (Hh1 & Hh2 & Hh3).
      apply NoDup_cons in Hh3 as [Hh3 Hh4].
      rewrite elem_of_app, elem_of_cons in Hres.
      apply NoDup_app. split; [done|]. split.
      * intros x Hx. rewrite elem_of_cons. intros [->|Hx'];
          [tauto|]. apply (Hh2 x Hx). by right.
      * apply NoDup_cons. split; [tauto|done].
    + rewrite omap_set_absent by done. rewrite map_app. simpl.
      apply NoDup_app. split; [done|]. split; [|apply NoDup_singleton].
      intros x Hx. rewrite list_elem_of_singleton. by intros ->.
  - intros h Hin.
    pose proof (handles_set id p s h) as Hsub. unfold handles in Hsub.
    simpl in Hsub. apply Hsub in Hin. apply elem_of_cons in Hin as [->|Hin];
      [done|by apply Hw].
Qed.

Lemma wf_set_same id p q s :
  OMap.get id (pending s) = Some p -> httpRes q = httpRes p ->
  wf s -> wf (setPending (OMap.set id q) s).
Proof.
  intros Hget Hq (Hk & Hh & Hw & Ht).
  destruct (omap_get_split _ _ _ Hget) as (pre & post & Hm & Hpre).
  assert (handles (setPending (OMap.set id q) s) = handles s) as Hsame.
  { unfold handles. simpl. rewrite Hm, omap_set_middle by done.
    rewrite !map_app. simpl. by rewrite Hq. }
  repeat split; simpl; [by apply omap_NoDup_set| | |done].
  - by rewrite Hsame.
  - intros h. rewrite Hsame. apply Hw.
Qed.

Lemma wf_timers_app id s :
  wf s ->
  wf {| pending := pending s; approvedTools := approvedTools s;
        posting := removeFirst id (posting s);
        timers := timers s ++ [(id, timeoutDelay)];
        effects := effects s |}.
Proof.
  intros (Hk & Hh & Hw & Ht). repeat split; try done. simpl.
  apply Forall_app. split; [done|]. by constructor.
Qed.

Lemma removeTimer_Forall (P : string * Z -> Prop) id l :
  Forall P l -> Forall P (removeTimer id l).
Proof.
  induction 1 as [|[x d] l Hx Hl IH]; simpl; [constructor|].
  destruct (String.eqb id x); [done|by constructor].
Qed.

Lemma wf_init : wf init.
Proof. repeat split; unfold handles; simpl; constructor. Qed.

Lemma wf_apply e s :
  admissible e s -> wf s -> wf (apply cwd JSON_parse e s).
Proof.
  intros Hadm Hwf.
  destruct e as [method url body res now rnd|id r|id|id a| |]; cbn [apply].
  - destruct Hadm as [Hres Hnew]. unfold handleRequest.
    destruct (String.eqb method "POST" && String.eqb url "/permission-request");
      [|by apply wf_emit_write].
    destruct (JSON_parse body) as [data|]; [|by apply wf_emit_write].
    unfold handlePermissionRequest.
    match goal with |- context [if ?b then _ else _] => destruct b end;
      [by apply wf_emit_write|].
    match goal with |- wf {| pending := pending ?s2 |} =>
      assert (wf s2) as (Hk & Hh & Hw & Ht); [|by repeat split]
    end.
    apply wf_emit_other; [done|]. by apply wf_set_fresh.
  - unfold handlePermissionRequest_resume. apply wf_timers_app.
    destruct r as [ts|]; [|by apply wf_respond].
    destruct (OMap.get id (pending s)) as [p|] eqn:Hget; [|done].
    destruct (truthy ts); [|done]. by apply (wf_set_same id p).
  - unfold onTimeout. simpl.
    assert (wf {| pending := pending s; approvedTools := approvedTools s;
                  posting := posting s;
                  timers := removeTimer id (timers s);
                  effects := effects s |}) as Hwf'.
    { destruct Hwf as (Hk & Hh & Hw & Ht). repeat split; try done. simpl.
      by apply removeTimer_Forall. }
    destruct (OMap.has id (pending s)); [by apply wf_respond|done].
  - unfold resolveApproval.
    destruct (OMap.get id (pending s)) as [p|] eqn:Hget; [|done].
    apply wf_respond.
    assert (forall s0, wf s0 ->
              wf (match truthy (messageTs p) with
                  | Some ts => emit (UpdateMessage (p_channel p) ts a
                       (toolName p)
                       (if a then truthy (workingDirectory p) else None)) s0
                  | None => s0
                  end)) as Hupd.
    { intros s0 H0. destruct (truthy (messageTs p)); [|done].
      by apply wf_emit_other. }
    apply Hupd. destruct a; [|done].
    destruct (truthy (workingDirectory p)); [|done].
    destruct Hwf as (Hk & Hh & Hw & Ht). by repeat split.
  - destruct Hwf as (Hk & Hh & Hw & Ht). by repeat split.
  - unfold stop. apply wf_emit_other; [done|].
    generalize (OMap.keys (pending s)). intros l. revert s Hadm Hwf.
    induction l as [|id l IH]; intros s Hadm Hwf; simpl; [done|].
    apply IH; [done|]. by apply wf_respond.
Qed.

Lemma wf_steps s tr s' :
  steps cwd JSON_parse s tr s' -> wf s -> wf s'.
Proof. induction 1; [done|]. intros Hwf. by apply IHsteps, wf_apply. Qed.

Lemma wf_reachable s : reachable cwd JSON_parse s -> wf s.
Proof. intros [tr Htr]. eapply wf_steps; [done|apply wf_init]. Qed.

Lemma answered_emit_other h w e s :
  (forall res status body, e <> HttpWrite res status body) ->
  answered h w s -> answered h w (emit e s).
Proof.
  intros He [Hh Hw]. split; [done|]. simpl. rewrite writesTo_app, Hw.
  destruct e; simpl; try apply app_nil_r. by destruct (He res status body).
Qed.

Lemma answered_emit_write h w res status body s :
  res <> h -> answered h w s ->
  answered h w (emit (HttpWrite res status body) s).
Proof.
  intros Hne [Hh Hw]. split; [done|]. simpl. rewrite writesTo_app, Hw. simpl.
  destruct (Nat.eqb_spec res h); [done|apply app_nil_r].
Qed.

Lemma answered_respond h w id a msg s :
  answered h w s -> answered h w (respond id a msg s).
Proof.
  intros [Hh Hw]. unfold respond.
  destruct (OMap.get id (pending s)) as [p|] eqn:Hget; [|done].
  apply answered_emit_write.
  - intros <-. apply Hh. by eapply handles_held.
  - split; [|done]. intros Hin. apply Hh.
    by apply (handles_delete_subseteq id s).
Qed.

Lemma answered_apply h w e s :
  w <> [] -> admissible e s ->
  answered h w s -> answered h w (apply cwd JSON_parse e s).
Proof.
  intros Hne Hadm Hans.
  destruct e as [method url body res now rnd|id r|id|id a| |]; cbn [apply].
  - destruct Hadm as [_ Hnew].
    assert (res <> h) as Hres.
    { intros ->. destruct Hans as [_ Hw]. congruence. }
    unfold handleRequest.
    destruct (String.eqb method "POST" && String.eqb url "/permission-request");
      [|by apply answered_emit_write].
    destruct (JSON_parse body) as [data|]; [|by apply answered_emit_write].
    unfold handlePermissionRequest.
    match goal with |- context [if ?b then _ else _] => destruct b end;
      [by apply answered_emit_write|].
    match goal with |- answered _ _ {| pending := pending ?s2 |} =>
      assert (answered h w s2) as [Hh Hw]; [|by split]
    end.
    apply answered_emit_other; [done|]. destruct Hans as [Hh Hw].
    split; [|done]. intros Hin. apply handles_set in Hin. simpl in Hin.
    apply elem_of_cons in Hin as [Hin|Hin]; [congruence|by apply Hh].
  - unfold handlePermissionRequest_resume.
    match goal with |- answered _ _ {| pending := pending ?s1 |} =>
      assert (answered h w s1) as [Hh Hw]; [|by split]
    end.
    destruct r as [ts|]; [|by apply answered_respond].
    destruct (OMap.get id (pending s)) as [p|] eqn:Hget; [|done].
    destruct (truthy ts); [|done]. destruct Hans as [Hh Hw].
    split; [|done]. intros Hin. apply handles_set in Hin. simpl in Hin.
    apply elem_of_cons in Hin as [Hin|Hin]; [|by apply Hh].
    apply Hh. rewrite Hin. by eapply handles_held.
  - unfold onTimeout. simpl. destruct (OMap.has id (pending s)).
    + apply answered_respond. destruct Hans. by split.
    + destruct Hans. by split.
  - unfold resolveApproval.
    destruct (OMap.get id (pending s)) as [p|] eqn:Hget; [|done].
    apply answered_respond.
    assert (forall s0, answered h w s0 ->
              answered h w
                 (match truthy (messageTs p) with
                  | Some ts => emit (UpdateMessage (p_channel p) ts a
                       (toolName p)
                       (if a then truthy (workingDirectory p) else None)) s0
                  | None => s0
                  end)) as Hupd.
    { intros s0 H0. destruct (truthy (messageTs p)); [|done].
      by apply answered_emit_other. }
    apply Hupd. destruct a; [|done].
    destruct (truthy (workingDirectory p)); [|done].
    destruct Hans. by split.
  - destruct Hans. by split.
  - unfold stop. apply answered_emit_other; [done|].
    generalize (OMap.keys (pending s)). intros l. clear Hadm. revert s Hans.
    induction l as [|id l IH]; intros s Hans; simpl; [done|].
    apply IH. by apply answered_respond.
Qed.

Lemma answered_steps h w s tr s' :
  w <> [] -> steps cwd JSON_parse s tr s' ->
  answered h w s -> answered h w s'.
Proof.
  intros Hne. induction 1; [done|]. intros Hans.
  by apply IHsteps, answered_apply.
Qed.

(** *** Timeout *)

(** C4 — when the timer of an approval that is still pending fires (a
    timer armed with a delay of five minutes), the response object of
    that approval receives status 200 with a deny decision "Permission
    request timed out", the approval is no longer pending, and whatever
    happens afterwards, that is the only thing ever written to that
    response object. *)
Theorem timeout_denies_exactly_once (s : PermissionHandler)
    (approvalId : string) (delay : Z) (p : PendingPermission) :
  reachable cwd JSON_parse s ->
  (approvalId, delay) ∈ timers s ->
  OMap.get approvalId (pending s) = Some p ->
  let s' := apply cwd JSON_parse (TimerFires approvalId) s in
  let timedOut := (200, Some (deny "Permission request timed out")) in
  delay = 300000
  /\ effects s' = effects s ++ [HttpWrite (httpRes p) 200 (snd timedOut)]
  /\ OMap.get approvalId (pending s') = None
  /\ approvedTools s' = approvedTools s
  /\ forall tr s'',
       steps cwd JSON_parse s' tr s'' ->
       writesTo (httpRes p) (effects s'') = [timedOut].
Proof.
  intros Hreach Htimer Hget s' timedOut.
  pose proof (wf_reachable s Hreach) as Hwf.
  assert (admissible (TimerFires approvalId) s) as Hadm.
  { simpl. apply list_elem_of_fmap. by exists (approvalId, delay). }
  pose proof (wf_apply _ _ Hadm Hwf) as Hwf'. fold s' in Hwf'.
  destruct Hwf as (Hk & Hh & Hw & Ht).
  assert (effects s' = effects s ++ [HttpWrite (httpRes p) 200 (snd timedOut)])
    as Heff.
  { subst s'. cbn [apply]. unfold onTimeout, OMap.has. simpl. rewrite Hget.
    unfold respond. simpl. by rewrite Hget. }
  assert (OMap.get approvalId (pending s') = None) as Hgone.
  { subst s'. cbn [apply]. apply onTimeout_forgets. }
  split; [|split; [done|split; [done|split]]].
  - rewrite Forall_forall in Ht. by apply (Ht _ Htimer).
  - subst s'. cbn [apply]. by rewrite onTimeout_memory.
  - intros tr s'' Hsteps.
    assert (answered (httpRes p) [timedOut] s') as Hans.
    { split.
      - subst s'. cbn [apply]. unfold onTimeout, OMap.has. simpl.
        rewrite Hget. unfold respond. simpl. rewrite Hget.
        destruct (omap_get_split _ _ _ Hget) as (pre & post & Hm & Hpre).
        unfold handles in *. simpl. rewrite Hm in Hh, Hk |- *.
        rewrite omap_delete_middle by done.
        rewrite map_app in *. simpl in Hh.
        apply NoDup_app in Hh as (Hh1 & Hh2 & Hh3).
        apply NoDup_cons in Hh3 as [Hh3 Hh4].
        rewrite elem_of_app. intros [Hin|Hin]; [|done].
        apply (Hh2 _ Hin). left.
      - rewrite Heff, writesTo_app.
        rewrite (Hw _ (handles_held _ _ _ Hget)). simpl.
        by rewrite Nat.eqb_refl. }
    by destruct (answered_steps _ [timedOut] _ _ _ ltac:(done) Hsteps Hans).
Qed.

(** *** Containment *)

Lemma within_spec t d :
  isPathWithinDirectory cwd t d = true
  <-> Posix.resolve cwd t = Posix.resolve cwd d
      \/ exists rest,
           Posix.resolve cwd t = Posix.resolve cwd d +:+ Posix.sep +:+ rest.
Proof.
  unfold isPathWithinDirectory. rewrite orb_true_iff, String.eqb_eq.
  rewrite startsWith_spec. split; (intros [H|[r H]]; [by left|right]);
    exists r; rewrite H; [apply append_assoc|symmetry; apply append_assoc].
Qed.

Lemma within_sound t d :
  isPathWithinDirectory cwd t d = true ->
  Posix.segments cwd d `prefix_of` Posix.segments cwd t.
Proof.
  rewrite within_spec. unfold Posix.resolve.
  pose proof (segments_clean cwd t) as HT.
  pose proof (segments_clean cwd d) as HD.
  intros [Heq|[rest Heq]].
  - injection Heq as Heq. apply join_inj in Heq; [|done..].
    by rewrite Heq.
  - rewrite append_assoc in Heq. injection Heq as Heq.
    destruct (Posix.segments cwd d) as [|d0 D] eqn:Hd; [apply prefix_nil|].
    by eapply join_prefix.
Qed.

Lemma within_complete t d :
  Posix.segments cwd d <> [] ->
  Posix.segments cwd d `prefix_of` Posix.segments cwd t ->
  isPathWithinDirectory cwd t d = true.
Proof.
  intros Hne [K HK]. apply within_spec. unfold Posix.resolve. rewrite HK.
  destruct K as [|k K].
  - left. by rewrite app_nil_r.
  - right. exists (Posix.join (k :: K)).
    rewrite join_app by done. by rewrite append_assoc.
Qed.

Lemma extract_truthy tool inp t :
  extractToolTargetPath tool inp = Some t -> truthy (Some t) = Some t.
Proof.
  unfold extractToolTargetPath.
  assert (forall v u, truthy v = Some u -> truthy (Some u) = Some u) as Haux.
  { intros [v|] u; simpl; [|done]. destruct (String.eqb v "") eqn:E; [done|].
    intros [= <-]. by rewrite E. }
  destruct (truthy (file_path inp)) eqn:E1.
  - intros [= <-]. by eapply Haux.
  - destruct (truthy (path inp)) eqn:E2; [|done]. intros [= <-]. by eapply Haux.
Qed.

Lemma outside_not_auto_approved tool inp D s t :
  extractToolTargetPath tool inp = Some t ->
  ~ Posix.segments cwd D `prefix_of` Posix.segments cwd t ->
  isAutoApproved cwd tool inp D s = false.
Proof.
  intros Hext Hout. unfold isAutoApproved.
  destruct (approvedTools s !! D) as [tools|]; [|done].
  case_bool_decide; [|done].
  rewrite Hext, (extract_truthy _ _ _ Hext).
  destruct (isPathWithinDirectory cwd t D) eqn:Hin; [|done].
  by apply within_sound in Hin.
Qed.

(** C10 — the containment test is true exactly when the resolved target
    is the resolved directory or begins with the resolved directory
    followed by the separator; when it is true the segments of the
    resolved directory begin the segments of the resolved target.  A
    request is answered from memory exactly when its tool is remembered
    for the directory and its target — [file_path] if that is not empty,
    else [path] if that is not empty — passes this test; so a request
    whose target lies elsewhere (a sibling whose name extends the
    directory's name, a path that leaves through [..]) is not approved
    from memory, whatever is remembered. *)
Theorem containment_is_prefix_test :
  (forall t d,
     isPathWithinDirectory cwd t d = true
     <-> Posix.resolve cwd t = Posix.resolve cwd d
         \/ exists rest,
              Posix.resolve cwd t = Posix.resolve cwd d +:+ Posix.sep +:+ rest)
  /\ (forall t d,
        isPathWithinDirectory cwd t d = true ->
        Posix.segments cwd d `prefix_of` Posix.segments cwd t)
  /\ (forall tool inp D s,
        isAutoApproved cwd tool inp D s = true
        <-> tool ∈ default ∅ (approvedTools s !! D)
            /\ match truthy (file_path inp), truthy (path inp) with
               | Some t, _ | None, Some t =>
                   isPathWithinDirectory cwd t D = true
               | None, None => True
               end)
  /\ (forall tool inp D s t,
        truthy (file_path inp) = Some t
        \/ (truthy (file_path inp) = None /\ truthy (path inp) = Some t) ->
        ~ Posix.segments cwd D `prefix_of` Posix.segments cwd t ->
        isAutoApproved cwd tool inp D s = false)
  /\ (forall tool p others s,
        isAutoApproved cwd tool
          {| file_path := Some "/repo2/x"; path := p; others := others |}
          "/repo" s = false
        /\ isAutoApproved cwd tool
             {| file_path := Some "/repo/../etc/passwd"; path := p;
                others := others |} "/repo" s = false
        /\ isAutoApproved cwd tool
             {| file_path := None; path := Some "/repo2/x";
                others := others |} "/repo" s = false)
  /\ isPathWithinDirectory cwd "/repo2/x" "/repo" = false
  /\ Posix.resolve cwd "/repo/../etc/passwd" = "/etc/passwd"
  /\ isPathWithinDirectory cwd "/repo/../etc/passwd" "/repo" = false
  /\ isPathWithinDirectory cwd "/repo/sub/../x" "/repo" = true.
Proof.
  assert (forall v u, truthy v = Some u -> truthy (Some u) = Some u) as Hidem.
  { intros [v|] u; simpl; [|done]. destruct (String.eqb v "") eqn:E; [done|].
    intros [= <-]. by rewrite E. }
  assert (forall tool inp D s,
            isAutoApproved cwd tool inp D s = true
            <-> tool ∈ default ∅ (approvedTools s !! D)
                /\ match truthy (file_path inp), truthy (path inp) with
                   | Some t, _ | None, Some t =>
                       isPathWithinDirectory cwd t D = true
                   | None, None => True
                   end) as Hiff.
  { intros tool inp D s. unfold isAutoApproved, extractToolTargetPath.
    destruct (approvedTools s !! D) as [tools|]; simpl;
      [|split; [done|intros [Hin _]; set_solver]].
    case_bool_decide as Htool; [|split; [done|by intros [Hin _]]].
    destruct (truthy (file_path inp)) as [t|] eqn:Hfp.
    - rewrite (Hidem _ _ Hfp). split; [by split|by intros [_ Hin]].
    - destruct (truthy (path inp)) as [t|] eqn:Hp.
      + rewrite (Hidem _ _ Hp). split; [by split|by intros [_ Hin]].
      + done. }
  assert (forall tool inp D s t,
            truthy (file_path inp) = Some t
            \/ (truthy (file_path inp) = None /\ truthy (path inp) = Some t) ->
            ~ Posix.segments cwd D `prefix_of` Posix.segments cwd t ->
            isAutoApproved cwd tool inp D s = false) as Hout.
  { intros tool inp D s t Ht Hnot.
    destruct (isAutoApproved cwd tool inp D s) eqn:Hauto; [|done].
    apply Hiff in Hauto as [_ Hin]. exfalso. apply Hnot, within_sound.
    destruct Ht as [Ht|[Hfp Ht]]; rewrite ?Hfp, Ht in Hin; exact Hin. }
  assert (forall tool inp D s t,
            truthy (file_path inp) = Some t
            \/ (truthy (file_path inp) = None /\ truthy (path inp) = Some t) ->
            isPathWithinDirectory cwd t D = false ->
            isAutoApproved cwd tool inp D s = false) as Hfalse.
  { intros tool inp D s t Ht Hnot.
    destruct (isAutoApproved cwd tool inp D s) eqn:Hauto; [|done].
    apply Hiff in Hauto as [_ Hin].
    destruct Ht as [Ht|[Hfp Ht]]; rewrite ?Hfp, Ht in Hin; congruence. }
  split; [apply within_spec|]. split; [apply within_sound|].
  split; [exact Hiff|]. split; [exact Hout|]. split; [|by repeat split].
  intros tool p others s. repeat split.
  - by apply (Hfalse _ _ _ _ "/repo2/x"); [left|].
  - by apply (Hfalse _ _ _ _ "/repo/../etc/passwd"); [left|].
  - by apply (Hfalse _ _ _ _ "/repo2/x"); [right|].
Qed.

(** *** Approval from memory *)

Lemma approval_is_remembered id p D s :
  OMap.get id (pending s) = Some p ->
  truthy (workingDirectory p) = Some D ->
  toolName p ∈ default ∅ (approvedTools (resolveApproval id true s) !! D).
Proof.
  intros Hget HD. unfold resolveApproval. rewrite Hget, HD.
  rewrite respond_memory.
  assert (forall s0, approvedTools
            (match truthy (messageTs p) with
             | Some ts => emit (UpdateMessage (p_channel p) ts true
                                  (toolName p) (Some D)) s0
             | None => s0
             end) = approvedTools s0) as ->
    by (intros s0; by case_match).
  simpl. rewrite lookup_insert_eq. simpl. set_solver.
Qed.

Lemma memory_kept_by_event e T D s :
  e <> ClearApprovals ->
  T ∈ default ∅ (approvedTools s !! D) ->
  T ∈ default ∅ (approvedTools (apply cwd JSON_parse e s) !! D).
Proof.
  intros He HT.
  destruct e as [method url body res now rnd|id r|id|id a| |]; cbn [apply].
  - unfold handleRequest.
    repeat case_match; simpl; by rewrite ?handlePermissionRequest_memory.
  - by rewrite resume_memory.
  - by rewrite onTimeout_memory.
  - unfold resolveApproval.
    destruct (OMap.get id (pending s)) as [p|] eqn:Hget; [|done].
    rewrite respond_memory.
    assert (forall s0, approvedTools
              (match truthy (messageTs p) with
               | Some ts => emit (UpdateMessage (p_channel p) ts a
                    (toolName p)
                    (if a then truthy (workingDirectory p) else None)) s0
               | None => s0
               end) = approvedTools s0) as ->
      by (intros s0; by case_match).
    destruct a; [|done]. destruct (truthy (workingDirectory p)) as [wd|]; [|done].
    simpl. destruct (decide (wd = D)) as [->|Hne].
    + rewrite lookup_insert_eq. simpl. set_solver.
    + by rewrite lookup_insert_ne.
  - done.
  - by rewrite stop_memory.
Qed.

(** Without [clearApprovals], an approval stays in memory. *)
Lemma memory_kept s tr s' T D :
  steps cwd JSON_parse s tr s' -> ClearApprovals ∉ tr ->
  T ∈ default ∅ (approvedTools s !! D) ->
  T ∈ default ∅ (approvedTools s' !! D).
Proof.
  induction 1 as [|s e tr s' Hadm Hsteps IH]; [done|].
  rewrite not_elem_of_cons. intros [He Htr] HT.
  apply IH; [done|]. apply memory_kept_by_event; [congruence|done].
Qed.

(** A tool remembered for a directory that is not the root: a request
    whose target resolves to the directory or below it is allowed at once,
    nothing is stored and nothing is posted. *)
Lemma remembered_inside_is_allowed data res now rnd D t s :
  truthy (working_directory data) = Some D ->
  tool_name data ∈ default ∅ (approvedTools s !! D) ->
  extractToolTargetPath (tool_name data) (input data) = Some t ->
  Posix.segments cwd D <> [] ->
  Posix.segments cwd D `prefix_of` Posix.segments cwd t ->
  handlePermissionRequest cwd data res now rnd s
  = emit (HttpWrite res 200 (Some autoApproved)) s.
Proof.
  intros HD HT Hext Hne Hin. unfold handlePermissionRequest, isAutoApproved.
  rewrite HD. destruct (approvedTools s !! D) as [tools|]; simpl in HT;
    [|set_solver].
  rewrite bool_decide_eq_true_2 by done.
  rewrite Hext, (extract_truthy _ _ _ Hext).
  by rewrite within_complete.
Qed.

(** Whatever is remembered, a request whose target resolves outside the
    directory is stored as pending and a prompt is posted. *)
Lemma outside_is_prompted data res now rnd t s :
  extractToolTargetPath (tool_name data) (input data) = Some t ->
  (forall D, truthy (working_directory data) = Some D ->
     ~ Posix.segments cwd D `prefix_of` Posix.segments cwd t) ->
  let s' := handlePermissionRequest cwd data res now rnd s in
  let id := newApprovalId now rnd in
  exists record,
    OMap.get id (pending s') = Some record
    /\ httpRes record = res /\ toolName record = tool_name data
    /\ effects s'
       = effects s
         ++ [PostMessage id
               (if String.eqb (channel data) "" then "general" else channel data)
               (thread_ts data) (tool_name data) (working_directory data)
               (input data)].
Proof.
  intros Hext Hout s' id. subst s' id. unfold handlePermissionRequest.
  assert (match truthy (working_directory data) with
          | Some wd => isAutoApproved cwd (tool_name data) (input data) wd s
          | None => false
          end = false) as ->.
  { destruct (truthy (working_directory data)) as [D|] eqn:HD; [|done].
    eapply outside_not_auto_approved; [done|]. by apply Hout. }
  simpl. eexists. split; [apply omap_get_set_eq|]. by repeat split.
Qed.

(** C3 — the human approves Read for the directory [/]; a later request
    for Read on [/etc/hosts], which is below [/], carrying that working
    directory is not answered from memory: the containment test compares
    with the directory followed by the separator, which for the root is
    two slashes, so the request is stored as pending and a prompt is
    posted. *)
Theorem root_directory_is_prompted_again :
  let s := approved "Read" "/etc/hosts" "/" in
  let s' := handlePermissionRequest sample_cwd
              (request "Read" "/etc/hosts" (Some "/")) 2
              "1712000060000" "z8c1v5b7n" s in
  approvedTools s !! "/" = Some {["Read"]}
  /\ Posix.resolve sample_cwd "/" = "/"
  /\ Posix.resolve sample_cwd "/etc/hosts" = "/etc/hosts"
  /\ Posix.segments sample_cwd "/" `prefix_of` Posix.segments sample_cwd "/etc/hosts"
  /\ isPathWithinDirectory sample_cwd "/etc/hosts" "/" = false
  /\ writesTo 2 (effects s') = []
  /\ OMap.keys (pending s') = [id2]
  /\ last (effects s')
     = Some (PostMessage id2 "C0123" (Some "1712.000100") "Read" (Some "/")
               (input (request "Read" "/etc/hosts" (Some "/")))).
Proof.
  intros s s'. split; [by vm_compute|]. split; [reflexivity|].
  split; [reflexivity|]. split; [apply prefix_nil|].
  split; [reflexivity|]. split; [reflexivity|]. split; reflexivity.
Qed.

(** The fourth scenario of the specification: Write is approved for
    [/repo]; [/repo/sub/x.txt] is then allowed from memory and
    [/etc/passwd] is prompted. *)
Example scenario_repo :
  let s := approved "Write" "/repo/a.txt" "/repo" in
  handlePermissionRequest sample_cwd
    (request "Write" "/repo/sub/x.txt" (Some "/repo")) 2
    "1712000060000" "z8c1v5b7n" s
  = emit (HttpWrite 2 200 (Some autoApproved)) s
  /\ OMap.keys (pending
       (handlePermissionRequest sample_cwd
          (request "Write" "/etc/passwd" (Some "/repo")) 2
          "1712000060000" "z8c1v5b7n" s)) = [id2].
Proof. split; reflexivity. Qed.

End GateFacts.

(** ** The theorems at concrete states *)

Section Witnesses.
Import Gate.

Lemma prompted_reachable :
  reachable sample_cwd sample_parse (prompted "Write" "/repo/sub/x.txt" "/repo").
Proof.
  exists prompted_trace. unfold prompted_trace.
  apply steps_cons.
  { split; [apply not_elem_of_nil|reflexivity]. }
  apply steps_cons.
  { vm_compute. left. }
  apply steps_nil.
Defined.

Lemma timeout_denies_exactly_once_witness :
  let s := prompted "Write" "/repo/sub/x.txt" "/repo" in
  reachable sample_cwd sample_parse s
  /\ (id1, 300000) ∈ timers s
  /\ exists p,
       OMap.get id1 (pending s) = Some p
       /\ httpRes p = 1%nat
       /\ writesTo 1
            (effects (apply sample_cwd sample_parse (TimerFires id1) s))
          = [(200, Some (deny "Permission request timed out"))].
Proof.
  intros s.
  assert ((id1, 300000) ∈ timers s) as Htimer by (vm_compute; left).
  split; [apply prompted_reachable|]. split; [exact Htimer|].
  destruct (OMap.get id1 (pending s)) as [p|] eqn:Hget;
    [|vm_compute in Hget; discriminate].
  exists p. split; [reflexivity|].
  assert (httpRes p = 1%nat) as Hres.
  { vm_compute in Hget. by injection Hget as <-. }
  split; [exact Hres|].
  destruct (timeout_denies_exactly_once sample_cwd sample_parse s id1 300000 p
              prompted_reachable Htimer Hget) as (_ & _ & _ & _ & Honce).
  rewrite <- Hres. apply (Honce []). apply steps_nil.
Defined.

Lemma denials_leave_memory_untouched_witness :
  let s := prompted "Write" "/repo/sub/x.txt" "/repo" in
  NoDup (OMap.keys (pending s))
  /\ approvedTools (resolveApproval id1 false s) = approvedTools s
  /\ approvedTools (stop s) = approvedTools s.
Proof.
  intros s.
  assert (NoDup (OMap.keys (pending s))) as Hnd.
  { vm_compute. apply NoDup_singleton. }
  split; [exact Hnd|].
  destruct (denials_leave_memory_untouched sample_cwd sample_parse s Hnd)
    as (Hone & [Hstop _] & _).
  split; [|exact Hstop].
  destruct (OMap.get id1 (pending s)) as [p|] eqn:Hget;
    [|vm_compute in Hget; discriminate].
  by destruct (Hone id1 p Hget) as [[Hmem _] _].
Defined.

Lemma bridge_rejects_malformed_witness :
  sample_parse "{not json" = None
  /\ effects (handleRequest sample_cwd sample_parse "POST"
                "/permission-request" "{not json" 7 "1712000000000"
                "k3j9x2m1q" init)
     = [HttpWrite 7 400 (Some (deny "Invalid request"))]
  /\ effects (handleRequest sample_cwd sample_parse "GET"
                "/permission-request" "" 8 "1712000000000" "k3j9x2m1q" init)
     = [HttpWrite 8 404 None].
Proof.
  split; [reflexivity|].
  destruct (bridge_rejects_malformed sample_cwd sample_parse "POST"
              "/permission-request" "{not json" 7 "1712000000000"
              "k3j9x2m1q" init) as [Hbad _].
  destruct (bridge_rejects_malformed sample_cwd sample_parse "GET"
              "/permission-request" "" 8 "1712000000000"
              "k3j9x2m1q" init) as [_ Hother].
  split.
  - by destruct (Hbad eq_refl eq_refl eq_refl) as [-> _].
  - assert ("GET" <> "POST") as Hne by discriminate.
    by destruct (Hother (or_introl Hne)) as [-> _].
Defined.

Lemma containment_is_prefix_test_witness :
  let s := approved "Write" "/repo/a.txt" "/repo" in
  "Write" ∈ default ∅ (approvedTools s !! "/repo")
  /\ isAutoApproved sample_cwd "Write"
       (input (request "Write" "/repo/sub/../x" (Some "/repo"))) "/repo" s
     = true
  /\ isAutoApproved sample_cwd "Write"
       (input (request "Write" "/repo2/x" (Some "/repo"))) "/repo" s = false
  /\ isAutoApproved sample_cwd "Write"
       (input (request "Write" "/repo/../etc/passwd" (Some "/repo"))) "/repo" s
     = false
  /\ OMap.has id2
       (pending (handlePermissionRequest sample_cwd
                   (request "Write" "/repo2/x" (Some "/repo")) 2
                   "1712000060000" "z8c1v5b7n" s)) = true
  /\ Posix.segments sample_cwd "work"
     `prefix_of` Posix.segments sample_cwd "work/../work/notes.md".
Proof.
  intros s.
  destruct (containment_is_prefix_test sample_cwd)
    as (_ & Hsound & Hiff & Hout & _).
  assert ("Write" ∈ default ∅ (approvedTools s !! "/repo")) as Hmem.
  { apply (approval_is_remembered sample_parse id1
             {| httpRes := 1; p_channel := "C0123";
                threadTs := Some "1712.000100"; p_user := Some "U42";
                toolName := "Write";
                p_input := input (request "Write" "/repo/a.txt" (Some "/repo"));
                workingDirectory := Some "/repo";
                messageTs := Some "1712.000200" |} "/repo");
      reflexivity. }
  assert (forall fp,
            isPathWithinDirectory sample_cwd fp "/repo" = false ->
            truthy (Some fp) = Some fp ->
            isAutoApproved sample_cwd "Write"
              (input (request "Write" fp (Some "/repo"))) "/repo" s = false)
    as Hno.
  { intros fp Hfp Htruthy.
    destruct (isAutoApproved sample_cwd "Write"
                (input (request "Write" fp (Some "/repo"))) "/repo" s)
      eqn:Hauto; [|done].
    apply Hiff in Hauto as [_ Hin]. cbn [input request file_path] in Hin.
    rewrite Htruthy in Hin. congruence. }
  assert (isAutoApproved sample_cwd "Write"
            (input (request "Write" "/repo2/x" (Some "/repo"))) "/repo" s
          = false) as Hsibling by (by apply Hno).
  split; [exact Hmem|]. split.
  { apply Hiff. split; [exact Hmem|]. reflexivity. }
  split; [exact Hsibling|]. split; [by apply Hno|]. split.
  { unfold handlePermissionRequest.
    change (truthy (working_directory
                      (request "Write" "/repo2/x" (Some "/repo"))))
      with (Some "/repo").
    change (tool_name (request "Write" "/repo2/x" (Some "/repo")))
      with "Write".
    cbv iota. rewrite Hsibling. reflexivity. }
  apply Hsound. reflexivity.
Defined.

End Witnesses.

Section OMapMoreFacts.

Lemma omap_Forall_set {V} (P : string * V -> Prop) k v (m : list (string * V)) :
  (forall k', P (k', v)) -> Forall P m -> Forall P (OMap.set k v m).
Proof.
  intros Hv. induction 1 as [|[k' v'] m Hx Hm IH]; simpl.
  - by repeat constructor.
  - destruct (String.eqb k k'); by constructor.
Qed.

Lemma omap_Forall_set_key {V} (P : string * V -> Prop) k v
    (m : list (string * V)) :
  P (k, v) -> Forall P m -> Forall P (OMap.set k v m).
Proof.
  intros Hv. induction 1 as [|[k' v'] m Hx Hm IH]; simpl.
  - by repeat constructor.
  - destruct (String.eqb_spec k k') as [<-|]; by constructor.
Qed.

Lemma omap_Forall_delete {V} (P : string * V -> Prop) k (m : list (string * V)) :
  Forall P m -> Forall P (OMap.delete k m).
Proof.
  induction 1 as [|[k' v'] m Hx Hm IH]; simpl; [constructor|].
  destruct (String.eqb k k'); [done|by constructor].
Qed.

End OMapMoreFacts.

(** ** The admission controller: what a run accounts for *)

Section LedgerFacts.
Import Admission Ledger.

Lemma waiting_enqueue k x (m : list (string * list QueuedMessage)) :
  waiting (OMap.set k (default [] (OMap.get k m) ++ [x]) m)
  ≡ₚ waiting m ++ [(k, x)].
Proof.
  unfold waiting. induction m as [|[k' q] m IH]; simpl; [done|].
  destruct (String.eqb_spec k k') as [->|Hne]; simpl.
  - rewrite map_app. simpl. rewrite <- !app_assoc.
    apply Permutation_app_head. apply Permutation_app_comm.
  - rewrite IH. by rewrite app_assoc.
Qed.

Lemma waiting_app a b : waiting (a ++ b) = waiting a ++ waiting b.
Proof. unfold waiting. by rewrite flat_map_app. Qed.

Ltac perm_middle :=
  rewrite <- ?app_assoc; simpl; rewrite <- ?Permutation_middle;
  rewrite ?app_nil_r; done.

Lemma finishedAll_other l o :
  (forall k m, o <> Finished k m) -> finishedAll (l ++ [o]) = finishedAll l.
Proof.
  intros Ho. unfold finishedAll. rewrite omap_app. simpl.
  destruct o; try apply app_nil_r. by destruct (Ho sessionKey m).
Qed.

Lemma accounted_next s :
  NoDup (OMap.keys (sessionQueues s)) ->
  accounted (processNextInQueue s) ≡ₚ accounted s.
Proof.
  intros Hnd. unfold processNextInQueue.
  destruct (scanQueues_cases (sessionQueues s) s)
    as [[-> _]|(pre & k & next & rest & post & Hes & _ & _ & _ & ->)];
    [done|].
  assert (k ∉ OMap.keys pre) as Hfresh.
  { rewrite Hes in Hnd. unfold OMap.keys in Hnd. rewrite map_app in Hnd.
    apply NoDup_app in Hnd as (_ & Hdisj & _).
    intros Hin. apply (Hdisj _ Hin). left. }
  unfold accounted. simpl. rewrite finishedAll_other by done.
  assert (match rest with
          | [] => OMap.delete k (sessionQueues s)
          | _ :: _ => OMap.set k rest (sessionQueues s)
          end = pre ++ match rest with [] => [] | _ => [(k, rest)] end ++ post)
    as ->.
  { rewrite Hes in Hnd |- *. destruct rest; simpl;
      [by apply omap_delete_middle|by apply omap_set_middle]. }
  assert (waiting (sessionQueues s)
          = waiting pre ++ (k, next)
              :: waiting (match rest with [] => [] | _ => [(k, rest)] end ++ post))
    as ->.
  { rewrite Hes, !waiting_app. f_equal. destruct rest; simpl; [done|].
    by rewrite app_nil_r. }
  rewrite (waiting_app pre). rewrite <- !app_assoc.
  apply Permutation_app_head. simpl. by rewrite <- !Permutation_middle.
Qed.

Lemma accounted_begin k m s :
  accounted (processClaudeQuery_begin k m s) ≡ₚ accounted s ++ [(k, m)].
Proof.
  unfold accounted. simpl. rewrite finishedAll_other by done.
  rewrite <- !app_assoc. do 3 apply Permutation_app_head.
  apply Permutation_app_comm.
Qed.

Lemma accounted_enqueue k m s :
  accounted (enqueueMessage k m s) ≡ₚ accounted s ++ [(k, m)].
Proof.
  unfold accounted. simpl. rewrite finishedAll_other by done.
  rewrite waiting_enqueue. rewrite <- !app_assoc.
  apply Permutation_app_head. simpl. rewrite <- !Permutation_middle.
  by rewrite app_nil_r.
Qed.

Lemma accounted_step e s s' :
  NoDup (OMap.keys (sessionQueues s)) -> step e s = Some s' ->
  accounted s' ≡ₚ accounted s ++ submittedOf [e].
Proof.
  intros Hnd. destruct e as [k m| |i]; simpl.
  - intros [= <-]. unfold handleMessage.
    repeat case_match; auto using accounted_enqueue, accounted_begin.
  - unfold runImmediate. destruct (immediates s) as [|[k m] rest] eqn:Him;
      [done|]. intros [= <-]. rewrite accounted_begin, app_nil_r.
    unfold accounted. simpl. rewrite Him. rewrite <- !app_assoc.
    apply Permutation_app_head. perm_middle.
  - unfold processClaudeQuery_finally.
    destruct (executions s !! i) as [[k m]|] eqn:Hi; [|done]. intros [= <-].
    rewrite accounted_next by done. rewrite app_nil_r.
    unfold accounted. simpl.
    assert (finishedAll (observed s ++ [Finished k m])
            = finishedAll (observed s) ++ [(k, m)]) as ->.
    { unfold finishedAll. by rewrite omap_app. }
    do 2 apply Permutation_app_head.
    rewrite <- (take_drop_middle (executions s) i (k, m)) at 3 by done.
    rewrite <- !app_assoc. apply Permutation_app_head. perm_middle.
Qed.

Lemma submittedOf_cons e tr : submittedOf (e :: tr) = submittedOf [e] ++ submittedOf tr.
Proof. unfold submittedOf. simpl. by destruct e. Qed.

Lemma accounted_run tr s s' :
  queues_ok s -> run tr s = Some s' ->
  accounted s' ≡ₚ accounted s ++ submittedOf tr.
Proof.
  revert s. induction tr as [|e tr IH]; simpl; intros s Hok.
  - intros [= <-]. by rewrite app_nil_r.
  - destruct (step e s) as [s1|] eqn:Hstep; [|done]. intros Hrun.
    rewrite (IH s1); [|by eapply queues_ok_step|done].
    rewrite (accounted_step e s s1); [|by destruct Hok|done].
    rewrite <- app_assoc. apply Permutation_app_head. by destruct e.
Qed.

(** X1 — every message handed to [handleMessage] is, in every reachable
    state, in exactly one place: in a queue, handed to [setImmediate], in
    an execution, or finished.  Nothing is dropped and nothing is
    duplicated, whatever the interleaving. *)
Theorem every_message_accounted_for (max : Z) (tr : list Event)
    (s : SlackHandler) :
  run tr (init max) = Some s ->
  accounted s ≡ₚ submittedOf tr.
Proof.
  intros Hrun. by rewrite (accounted_run tr _ _ (queues_ok_init max) Hrun).
Qed.

Lemma every_message_accounted_for_witness :
  run window_overtake (init 2)
  = Some (default (init 2) (run window_overtake (init 2)))
  /\ accounted (default (init 2) (run window_overtake (init 2)))
     ≡ₚ [("A", m1); ("A", m2); ("A", m3); ("A", m4)].
Proof.
  assert (run window_overtake (init 2)
          = Some (default (init 2) (run window_overtake (init 2)))) as Hrun
    by (vm_compute; reflexivity).
  split; [exact Hrun|].
  exact (every_message_accounted_for 2 window_overtake _ Hrun).
Defined.

(** *** The counter *)

Lemma counter_tracks_next s :
  counter_tracks s -> counter_tracks (processNextInQueue s).
Proof.
  unfold processNextInQueue.
  by destruct (scanQueues_cases (sessionQueues s) s)
    as [[-> _]|(pre & k & next & rest & post & _ & _ & _ & _ & ->)].
Qed.

Lemma counter_tracks_begin k m s :
  counter_tracks s -> counter_tracks (processClaudeQuery_begin k m s).
Proof.
  intros [Hcnt Hsub]. split; simpl.
  - rewrite length_app. simpl. lia.
  - intros k'. rewrite map_app, elem_of_app, elem_of_union, elem_of_singleton.
    intros [->|Hk']; [right; left|left; by apply Hsub].
Qed.

Lemma counter_tracks_step e s s' :
  counter_tracks s -> step e s = Some s' -> counter_tracks s'.
Proof.
  intros Hok. destruct e as [k m| |i]; simpl.
  - intros [= <-]. unfold handleMessage.
    repeat case_match; auto using counter_tracks_begin.
  - unfold runImmediate. destruct (immediates s) as [|[k m] rest]; [done|].
    intros [= <-]. by apply counter_tracks_begin.
  - unfold processClaudeQuery_finally.
    destruct (executions s !! i) as [[k m]|] eqn:Hi; [|done]. intros [= <-].
    apply counter_tracks_next. destruct Hok as [Hcnt Hsub]. split; simpl.
    + pose proof (take_drop_middle _ _ _ Hi) as Hl.
      rewrite <- Hl in Hcnt. rewrite length_app in Hcnt |- *.
      simpl in Hcnt. lia.
    + intros k'. rewrite elem_of_difference, elem_of_singleton.
      intros [Hk' Hne]. apply Hsub in Hk'.
      rewrite <- (take_drop_middle _ _ _ Hi) in Hk'.
      rewrite map_app, elem_of_app in Hk' |- *. simpl in Hk'.
      rewrite elem_of_cons in Hk'. tauto.
Qed.

Lemma counter_tracks_run tr s s' :
  counter_tracks s -> run tr s = Some s' -> counter_tracks s'.
Proof.
  revert s. induction tr as [|e tr IH]; simpl; intros s Hok.
  - by intros [= <-].
  - destruct (step e s) as [s1|] eqn:Hstep; [|done].
    apply IH. by eapply counter_tracks_step.
Qed.

Lemma size_le_of_subset (X : gset string) (l : list string) :
  (forall k, k ∈ X -> k ∈ l) -> (size X <= List.length l)%nat.
Proof.
  revert X. induction l as [|x l IH]; intros X Hsub.
  - assert (X = ∅) as -> by (apply set_eq; intros k; split;
      [intros Hk; by apply Hsub, elem_of_nil in Hk|set_solver]).
    by rewrite size_empty.
  - transitivity (size (X ∖ {[x]}) + 1)%nat.
    + destruct (decide (x ∈ X)) as [Hx|Hx].
      * rewrite (union_difference_L {[x]} X) at 1 by set_solver.
        rewrite size_union by set_solver. rewrite size_singleton. lia.
      * assert (X ∖ {[x]} = X) as -> by set_solver. lia.
    + simpl. assert (size (X ∖ {[x]}) <= List.length l)%nat; [|lia].
      apply IH. intros k. rewrite elem_of_difference, elem_of_singleton.
      intros [Hk Hne]. apply Hsub, elem_of_cons in Hk. tauto.
Qed.

(** X2 — in every reachable state, whatever the interleaving, the
    counter is the number of executions in flight, so it is never
    negative, and every active key has an execution in flight, so the
    active set is never larger than the counter. *)
Theorem counter_counts_executions (max : Z) (s : SlackHandler) :
  reachable max s ->
  activeConcurrency s = Z.of_nat (List.length (executions s))
  /\ 0 <= activeConcurrency s
  /\ (forall k, k ∈ activeSessions s -> running k s <> [])
  /\ Z.of_nat (size (activeSessions s)) <= activeConcurrency s.
Proof.
  intros [tr Hrun].
  assert (counter_tracks (init max)) as Hinit.
  { split; [done|]. simpl. set_solver. }
  destruct (counter_tracks_run tr _ _ Hinit Hrun) as [Hcnt Hsub].
  split; [done|]. split; [lia|]. split.
  - intros k Hk. apply Hsub in Hk. unfold running.
    apply list_elem_of_fmap in Hk as ([k' m] & -> & Hin). simpl.
    intros Hnil. apply fmap_nil_inv in Hnil.
    assert ((k', m) ∈ filter (fun e => e.1 = k') (executions s)) as Hf
      by (by apply list_elem_of_filter).
    rewrite Hnil in Hf. by apply elem_of_nil in Hf.
  - rewrite Hcnt. apply Nat2Z.inj_le.
    rewrite <- (length_map fst). by apply size_le_of_subset.
Qed.

Lemma counter_counts_executions_witness :
  reachable 1 (default (init 1) (run window_same_key (init 1)))
  /\ activeConcurrency (default (init 1) (run window_same_key (init 1))) = 2
  /\ size (activeSessions (default (init 1) (run window_same_key (init 1))))
     = 1%nat.
Proof.
  assert (reachable 1 (default (init 1) (run window_same_key (init 1))))
    as Hreach by (exists window_same_key; vm_compute; reflexivity).
  split; [exact Hreach|].
  destruct (counter_counts_executions 1 _ Hreach) as (Hcnt & _).
  split; [rewrite Hcnt|]; reflexivity.
Defined.

(** *** The queue map *)

Lemma queues_tidy_step e s s' :
  queues_tidy s -> step e s = Some s' -> queues_tidy s'.
Proof.
  assert (forall k m s, queues_tidy s -> queues_tidy (enqueueMessage k m s))
    as Henq.
  { intros k m s0 [Hnd Hne]. split; simpl; [by apply omap_NoDup_set|].
    apply omap_Forall_set; [|done]. intros k'. simpl. by destruct (default _ _). }
  assert (forall s, queues_tidy s -> queues_tidy (processNextInQueue s))
    as Hnext.
  { intros s0 [Hnd Hne]. unfold processNextInQueue.
    destruct (scanQueues_cases (sessionQueues s0) s0)
      as [[-> _]|(pre & k & next & rest & post & _ & _ & _ & _ & ->)];
      [done|].
    split; simpl.
    - destruct rest; [by apply omap_NoDup_delete|by apply omap_NoDup_set].
    - destruct rest; [by apply omap_Forall_delete|].
      by apply omap_Forall_set. }
  intros Hok. destruct e as [k m| |i]; simpl.
  - intros [= <-]. unfold handleMessage. repeat case_match; auto.
  - unfold runImmediate. destruct (immediates s) as [|[k m] rest]; [done|].
    by intros [= <-].
  - unfold processClaudeQuery_finally.
    destruct (executions s !! i) as [[k m]|]; [|done]. intros [= <-].
    by apply Hnext.
Qed.

Lemma queues_tidy_run tr s s' :
  queues_tidy s -> run tr s = Some s' -> queues_tidy s'.
Proof.
  revert s. induction tr as [|e tr IH]; simpl; intros s Hok.
  - by intros [= <-].
  - destruct (step e s) as [s1|] eqn:Hstep; [|done].
    apply IH. by eapply queues_tidy_step.
Qed.

Lemma queues_tidy_init max : queues_tidy (init max).
Proof. split; constructor. Qed.

(** X3 — in every reachable state the queue map has one entry per key
    and no entry with an empty queue: a key whose last message is taken
    leaves the map. *)
Theorem queue_map_has_no_empty_queue (max : Z) (s : SlackHandler) :
  reachable max s ->
  NoDup (OMap.keys (sessionQueues s))
  /\ forall k q, OMap.get k (sessionQueues s) = Some q -> q <> [].
Proof.
  intros [tr Hrun].
  destruct (queues_tidy_run tr _ _ (queues_tidy_init max) Hrun) as [Hnd Hne].
  split; [done|]. intros k q Hget. apply omap_get_Some_elem in Hget.
  rewrite Forall_forall in Hne. by apply (Hne _ Hget).
Qed.

Lemma queue_map_has_no_empty_queue_witness :
  let s := default (init 5)
             (run [Submit "A" m1; Submit "A" m2; Submit "A" m3; Complete 0]
                (init 5)) in
  reachable 5 s
  /\ OMap.get "A" (sessionQueues s) = Some [m3]
  /\ forall q, OMap.get "A" (sessionQueues s) = Some q -> q <> [].
Proof.
  intros s.
  assert (reachable 5 s) as Hreach.
  { exists [Submit "A" m1; Submit "A" m2; Submit "A" m3; Complete 0%nat].
    vm_compute. reflexivity. }
  split; [exact Hreach|]. split; [reflexivity|].
  destruct (queue_map_has_no_empty_queue 5 s Hreach) as [_ Hne].
  exact (Hne "A").
Defined.

(** *** With the window closed *)

Lemma stepAtomic_submit k m s s' :
  immediates s = [] -> stepAtomic (Submit k m) s = Some s' ->
  ((k ∈ activeSessions s \/ maxConcurrency s <= activeConcurrency s)
   /\ s' = enqueueMessage k m s)
  \/ ((k ∉ activeSessions s) /\ activeConcurrency s < maxConcurrency s
      /\ s' = processClaudeQuery_begin k m s).
Proof.
  intros Him. unfold stepAtomic. simpl. unfold handleMessage.
  case_bool_decide as Hk; simpl.
  { rewrite Him. simpl. intros [= <-]. left. split; [by left|done]. }
  destruct (maxConcurrency s <=? activeConcurrency s) eqn:Hfull; simpl.
  { rewrite Him. simpl. intros [= <-]. left. apply Z.leb_le in Hfull.
    split; [by right|done]. }
  rewrite Him. simpl. intros [= <-]. right. apply Z.leb_gt in Hfull. done.
Qed.

Lemma stepAtomic_complete i s s' :
  immediates s = [] -> stepAtomic (Complete i) s = Some s' ->
  exists k m,
    executions s !! i = Some (k, m)
    /\ ((s' = {| activeSessions := activeSessions s ∖ {[k]};
                 sessionQueues := sessionQueues s;
                 activeConcurrency := activeConcurrency s - 1;
                 maxConcurrency := maxConcurrency s;
                 immediates := [];
                 executions :=
                   take i (executions s) ++ drop (S i) (executions s);
                 observed := observed s ++ [Finished k m] |}
         /\ (Forall (fun e => ~ eligible (activeSessions s ∖ {[k]}) e)
               (sessionQueues s)
             \/ maxConcurrency s <= activeConcurrency s - 1))
        \/ exists pre k' next rest post,
             sessionQueues s = pre ++ (k', next :: rest) :: post
             /\ Forall (fun e => ~ eligible (activeSessions s ∖ {[k]}) e) pre
             /\ (k' ∉ activeSessions s ∖ {[k]})
             /\ activeConcurrency s - 1 < maxConcurrency s
             /\ s' = {| activeSessions :=
                          {[k']} ∪ (activeSessions s ∖ {[k]});
                        sessionQueues :=
                          match rest with
                          | [] => OMap.delete k' (sessionQueues s)
                          | _ => OMap.set k' rest (sessionQueues s)
                          end;
                        activeConcurrency := activeConcurrency s - 1 + 1;
                        maxConcurrency := maxConcurrency s;
                        immediates := [];
                        executions :=
                          (take i (executions s) ++ drop (S i) (executions s))
                          ++ [(k', next)];
                        observed :=
                          ((observed s ++ [Finished k m])
                           ++ [Dequeued k' next]) ++ [Started k' next] |}).
Proof.
  intros Him. unfold stepAtomic. simpl. unfold processClaudeQuery_finally.
  destruct (executions s !! i) as [[k m]|] eqn:Hi; [|done].
  unfold processNextInQueue. simpl.
  match goal with |- context [scanQueues ?es ?st] =>
    destruct (scanQueues_cases es st)
      as [[-> Hno]|(pre & k' & next & rest & post & Hes & Hpre & Hk' & Hcap' & ->)]
  end; simpl in *.
  - rewrite Him. simpl. intros [= <-]. exists k, m. split; [done|].
    by left.
  - rewrite Him. simpl. intros [= <-]. exists k, m. split; [done|].
    right. by exists pre, k', next, rest, post.
Qed.

Lemma drain_queues n s : sessionQueues (drain n s) = sessionQueues s.
Proof.
  revert s. induction n as [|n IH]; intros s; simpl; [done|].
  unfold runImmediate. destruct (immediates s) as [|[k m] rest]; [done|].
  by rewrite IH.
Qed.

Lemma queues_tidy_stepAtomic e s s' :
  queues_tidy s -> stepAtomic e s = Some s' -> queues_tidy s'.
Proof.
  intros Hok. unfold stepAtomic.
  destruct (step e s) as [s1|] eqn:Hstep; [|done]. intros [= <-].
  destruct (queues_tidy_step e s s1 Hok Hstep) as [Hnd Hne].
  split; by rewrite drain_queues.
Qed.

Lemma eligible_mono (A A' : gset string) e :
  A ⊆ A' -> eligible A' e -> eligible A e.
Proof. intros Hsub [Hk Hq]. split; [set_solver|done]. Qed.

Lemma Exists_omap_set {V} (P : string * V -> Prop) k v (m : list (string * V)) :
  Exists P (OMap.set k v m) -> P (k, v) \/ Exists P m.
Proof.
  induction m as [|[k' v'] m IH]; simpl.
  - rewrite Exists_cons, Exists_nil. tauto.
  - destruct (String.eqb_spec k k') as [->|Hne];
      rewrite !Exists_cons; [tauto|]. intros [H|H]; [tauto|].
    destruct (IH H); tauto.
Qed.

Lemma work_conserving_stepAtomic e s s' :
  closed_ok s -> stepAtomic e s = Some s' -> work_conserving s'.
Proof.
  intros ((Him & Hnd & Hact & Hcnt & Hcap) & [Hkeys Hne] & Hwork).
  destruct e as [k m| |i].
  - intros Hstep.
    destruct (stepAtomic_submit k m s s' Him Hstep)
      as [[Hwhy ->]|(Hk & Hfree & ->)]; unfold work_conserving; simpl.
    + intros Hex. destruct Hwhy as [Hk|Hfull]; [|done].
      apply Exists_omap_set in Hex as [[Hk' _]|Hex]; [done|by apply Hwork].
    + intros Hex. exfalso. assert (maxConcurrency s <= activeConcurrency s);
        [|lia]. apply Hwork. eapply Exists_impl; [exact Hex|].
      intros e. apply eligible_mono. set_solver.
  - unfold stepAtomic. simpl. unfold runImmediate. by rewrite Him.
  - intros Hstep.
    destruct (stepAtomic_complete i s s' Him Hstep)
      as (k & m & Hi & [[-> Hno]|(pre & k' & next & rest & post & Hes & Hpre & Hk' & Hfree & ->)]);
      unfold work_conserving; simpl; clear Hstep.
    + intros Hex. destruct Hno as [Hno|Hfull]; [|done].
      exfalso. apply Exists_exists in Hex as (e & Hin & Hel).
      rewrite Forall_forall in Hno. by apply (Hno e Hin).
    + assert (k' ∉ OMap.keys pre) as Hfresh.
      { rewrite Hes in Hkeys. unfold OMap.keys in Hkeys.
        rewrite map_app in Hkeys.
        apply NoDup_app in Hkeys as (_ & Hdisj & _).
        intros Hin. apply (Hdisj _ Hin). left. }
      assert (match rest with
              | [] => OMap.delete k' (sessionQueues s)
              | _ :: _ => OMap.set k' rest (sessionQueues s)
              end = pre ++ match rest with [] => [] | _ => [(k', rest)] end ++ post)
        as ->.
      { rewrite Hes in Hkeys |- *. destruct rest; simpl;
          [by apply omap_delete_middle|by apply omap_set_middle]. }
      intros Hex. assert (maxConcurrency s <= activeConcurrency s); [|lia].
      apply Hwork.
      rewrite !Exists_app in Hex. destruct Hex as [Hex|[Hex|Hex]].
      * exfalso. apply Exists_exists in Hex as (e & Hin & Hel).
        rewrite Forall_forall in Hpre. apply (Hpre e Hin).
        eapply eligible_mono; [|exact Hel]. set_solver.
      * exfalso. destruct rest; [by apply Exists_nil in Hex|].
        apply Exists_cons in Hex as [[Hk'' _]|Hex];
          [|by apply Exists_nil in Hex]. simpl in Hk''. set_solver.
      * apply Exists_exists in Hex as ([k0 q0] & Hin & [Hk0 Hq0]).
        simpl in Hk0, Hq0. rewrite Hes.
        destruct (decide (k0 ∈ activeSessions s)) as [Hk0act|Hk0act].
        -- assert (k0 = k) as Heq.
           { destruct (decide (k0 = k)); [done|]. exfalso. apply Hk0.
             apply elem_of_union. right. apply elem_of_difference.
             split; [done|]. by rewrite elem_of_singleton. }
           subst k0.
           assert (k' <> k) as Hkk.
           { intros ->. rewrite Hes in Hkeys. unfold OMap.keys in Hkeys.
             rewrite map_app in Hkeys. simpl in Hkeys.
             apply NoDup_app in Hkeys as (_ & _ & Hk).
             apply NoDup_cons in Hk as [Hk _]. apply Hk.
             apply list_elem_of_fmap. by exists (k, q0). }
           apply Exists_app. right. apply Exists_cons. left.
           split; simpl; [set_solver|done].
        -- apply Exists_app. right. apply Exists_cons. right.
           apply Exists_exists. exists (k0, q0). by split.
Qed.

Lemma closed_ok_stepAtomic e s s' :
  closed_ok s -> stepAtomic e s = Some s' -> closed_ok s'.
Proof.
  intros Hok Hstep. pose proof Hok as (Hat & Htidy & Hwork).
  split; [by eapply atomic_ok_step|].
  split; [by eapply queues_tidy_stepAtomic|by eapply work_conserving_stepAtomic].
Qed.

Lemma finishedOf_snoc k l o :
  finishedOf k (l ++ [o])
  = finishedOf k l
    ++ match o with
       | Finished k' m => if String.eqb k' k then [m] else []
       | _ => []
       end.
Proof.
  unfold finishedOf. rewrite omap_app. f_equal. simpl.
  destruct o; try done. by destruct (String.eqb sessionKey k).
Qed.

Lemma runningIn_snoc k l k' x :
  runningIn k (l ++ [(k', x)])
  = runningIn k l ++ if String.eqb k' k then [x] else [].
Proof.
  unfold runningIn. rewrite filter_app, map_app. f_equal.
  destruct (String.eqb_spec k' k) as [->|Hne].
  - by rewrite filter_cons_True.
  - by rewrite filter_cons_False.
Qed.

Lemma runningIn_absent k l : k ∉ map fst l -> runningIn k l = [].
Proof. intros H. unfold runningIn. by rewrite executions_of_absent_key. Qed.

Lemma runningIn_remove k i k' x (l : list (string * QueuedMessage)) :
  NoDup (map fst l) -> l !! i = Some (k', x) ->
  runningIn k l
  = (if String.eqb k' k then [x] else [])
    ++ runningIn k (take i l ++ drop (S i) l).
Proof.
  intros Hnd Hi. pose proof (take_drop_middle l i _ Hi) as Hl.
  set (pre := take i l) in *. set (post := drop (S i) l) in *.
  rewrite <- Hl in Hnd |- *. clearbody pre post. clear Hl Hi.
  rewrite map_app in Hnd. simpl in Hnd.
  apply NoDup_app in Hnd as (_ & Hdisj & Hpost).
  apply NoDup_cons in Hpost as [Hk' _].
  unfold runningIn. rewrite !filter_app, !map_app.
  destruct (String.eqb_spec k' k) as [->|Hne].
  - rewrite filter_cons_True by done.
    rewrite !executions_of_absent_key; [done|done|].
    intros Hin. apply (Hdisj k Hin). left.
  - by rewrite filter_cons_False.
Qed.

Lemma ordered_stepAtomic e s s' k :
  closed_ok s -> stepAtomic e s = Some s' ->
  ordered_key k s' = ordered_key k s ++ submittedFor k [e].
Proof.
  intros ((Him & Hnd & Hact & Hcnt & Hcap) & [Hkeys Hne] & Hwork).
  unfold ordered_key, running. fold (runningIn k (executions s')).
  fold (runningIn k (executions s)).
  destruct e as [k0 m| |i].
  - intros Hstep.
    destruct (stepAtomic_submit k0 m s s' Him Hstep)
      as [[Hwhy ->]|(Hk & Hfree & ->)]; simpl; clear Hstep.
    + rewrite finishedOf_snoc. simpl. rewrite app_nil_r.
      destruct (String.eqb_spec k0 k) as [->|Hkk].
      * rewrite omap_get_set_eq. simpl. by rewrite !app_assoc.
      * rewrite omap_get_set_ne by done. by rewrite app_nil_r.
    + rewrite finishedOf_snoc. simpl. rewrite app_nil_r, runningIn_snoc.
      destruct (String.eqb_spec k0 k) as [->|Hkk]; [|by rewrite !app_nil_r].
      assert (OMap.get k (sessionQueues s) = None) as ->.
      { destruct (OMap.get k (sessionQueues s)) as [q|] eqn:Hget; [|done].
        exfalso. assert (maxConcurrency s <= activeConcurrency s); [|lia].
        apply Hwork. apply omap_get_Some_elem in Hget.
        apply Exists_exists. exists (k, q). split; [done|].
        split; [done|]. rewrite Forall_forall in Hne. by apply (Hne _ Hget). }
      simpl. by rewrite !app_nil_r, app_assoc.
  - unfold stepAtomic. simpl. unfold runImmediate. by rewrite Him.
  - intros Hstep.
    destruct (stepAtomic_complete i s s' Him Hstep)
      as (k0 & m & Hi & [[-> Hno]|(pre & k' & next & rest & post & Hes & Hpre & Hk' & Hfree & ->)]);
      simpl; clear Hstep; rewrite app_nil_r;
      rewrite (runningIn_remove k i k0 m (executions s)) by done.
    + rewrite finishedOf_snoc. by rewrite <- !app_assoc.
    + rewrite !finishedOf_snoc. simpl. rewrite !app_nil_r, runningIn_snoc.
      rewrite <- !app_assoc. do 2 f_equal.
      assert (k' ∉ OMap.keys pre) as Hfresh.
      { rewrite Hes in Hkeys. unfold OMap.keys in Hkeys.
        rewrite map_app in Hkeys.
        apply NoDup_app in Hkeys as (_ & Hdisj & _).
        intros Hin. apply (Hdisj _ Hin). left. }
      assert (OMap.get k' (sessionQueues s) = Some (next :: rest)) as Hget.
      { rewrite Hes. by apply omap_get_middle. }
      destruct (String.eqb_spec k' k) as [->|Hkk].
      * rewrite Hget. simpl.
        assert (runningIn k (take i (executions s) ++ drop (S i) (executions s))
                = []) as ->.
        { apply runningIn_absent.
          destruct (atomic_ok_release i k0 m _ Hnd Hi) as (_ & Hset & _).
          intros Hin. apply Hk'. rewrite Hact, Hset.
          by apply elem_of_list_to_set. }
        simpl. f_equal.
        destruct rest; [by rewrite omap_get_delete_eq|by rewrite omap_get_set_eq].
      * simpl. f_equal.
        destruct rest; [by rewrite omap_get_delete_ne|by rewrite omap_get_set_ne].
Qed.

Lemma closed_window_run tr s s' k :
  closed_ok s -> runAtomic tr s = Some s' ->
  closed_ok s' /\ ordered_key k s' = ordered_key k s ++ submittedFor k tr.
Proof.
  revert s. induction tr as [|e tr IH]; simpl; intros s Hok.
  - intros [= <-]. split; [done|]. by rewrite app_nil_r.
  - destruct (stepAtomic e s) as [s1|] eqn:Hstep; [|done]. intros Hrun.
    destruct (IH s1) as [Hok' Hord]; [by eapply closed_ok_stepAtomic|done|].
    split; [done|]. rewrite Hord, (ordered_stepAtomic e s s1) by done.
    rewrite <- app_assoc. f_equal. unfold submittedFor. simpl.
    by repeat case_match.
Qed.

(** X4 — if the deferred start runs before any other event, then for
    every conversation key the messages submitted are, in the order of
    submission, those finished, then the one running (at most one), then
    those waiting: messages of one conversation start and complete in the
    order they were submitted, and while a slot is free no message that
    could start is left waiting. *)
Theorem closed_window_is_fifo (max : Z) (tr : list Event) (s : SlackHandler)
    (k : string) :
  0 <= max -> runAtomic tr (init max) = Some s ->
  submittedFor k tr
  = finishedOf k (observed s) ++ running k s
    ++ default [] (OMap.get k (sessionQueues s))
  /\ (List.length (running k s) <= 1)%nat
  /\ (activeConcurrency s < maxConcurrency s ->
      Forall (fun e => ~ eligible (activeSessions s) e) (sessionQueues s)).
Proof.
  intros Hmax Hrun.
  assert (closed_ok (init max)) as Hinit.
  { split; [|split].
    - unfold atomic_ok. simpl. repeat split; try done. constructor.
    - apply queues_tidy_init.
    - intros Hex. by apply Exists_nil in Hex. }
  destruct (closed_window_run tr _ _ k Hinit Hrun) as [(Hat & _ & Hwork) Hord].
  split; [exact (eq_sym Hord)|]. split.
  - destruct Hat as (_ & Hnd & _). unfold running. rewrite length_map.
    by apply executions_of_key_single.
  - intros Hfree. apply Forall_forall. intros e Hin Hel.
    assert (maxConcurrency s <= activeConcurrency s); [|lia].
    apply Hwork. apply Exists_exists. by exists e.
Qed.

Lemma closed_window_is_fifo_witness :
  let tr := [Submit "A" m1; Submit "A" m2; Submit "B" m4; Submit "A" m3;
             Complete 0; Complete 0] in
  let s := default (init 2) (runAtomic tr (init 2)) in
  0 <= 2
  /\ runAtomic tr (init 2) = Some s
  /\ finishedOf "A" (observed s) = [m1]
  /\ running "A" s = [m2]
  /\ OMap.get "A" (sessionQueues s) = Some [m3]
  /\ submittedFor "A" tr = [m1] ++ [m2] ++ [m3].
Proof.
  intros tr s.
  assert (runAtomic tr (init 2) = Some s) as Hrun by (vm_compute; reflexivity).
  split; [lia|]. split; [exact Hrun|].
  destruct (closed_window_is_fifo 2 tr s "A" ltac:(lia) Hrun) as (Hord & _).
  assert (finishedOf "A" (observed s) = [m1]) as Hf by reflexivity.
  assert (running "A" s = [m2]) as Hr by reflexivity.
  assert (OMap.get "A" (sessionQueues s) = Some [m3]) as Hq by reflexivity.
  split; [exact Hf|]. split; [exact Hr|]. split; [exact Hq|].
  rewrite Hord, Hf, Hr, Hq. reflexivity.
Defined.

End LedgerFacts.

(** ** Message text *)

Section TextFacts.
Import Text.

Lemma trimStart_gap s :
  exists g, s = g ++ trimStart s /\ Forall (fun c => isWhiteSpace c = true) g.
Proof.
  induction s as [|c s (g & Hs & Hg)]; simpl.
  - by exists [].
  - destruct (isWhiteSpace c) eqn:Hc.
    + exists (c :: g). split; [simpl; by f_equal|by constructor].
    + by exists [].
Qed.

Lemma trimStart_length s : (List.length (trimStart s) <= List.length s)%nat.
Proof.
  destruct (trimStart_gap s) as (g & Hs & _). rewrite Hs at 2.
  rewrite length_app. lia.
Qed.

Lemma lastIndexOfFrom_bounds s search k :
  -1 <= lastIndexOfFrom s search k <= Z.of_nat k.
Proof.
  induction k as [|k IH]; simpl; destruct (matchesAt s search _); lia.
Qed.

Lemma clamp_inside x s :
  0 <= x <= Z.of_nat (List.length s) -> Z.of_nat (clamp x s) = x.
Proof. intros H. unfold clamp. lia. Qed.

Lemma substring_prefix s n :
  0 <= n <= Z.of_nat (List.length s) -> substring s 0 n = take (Z.to_nat n) s.
Proof.
  intros H. unfold substring.
  assert (clamp 0 s = 0%nat) as -> by (unfold clamp; lia).
  assert (clamp n s = Z.to_nat n) as -> by (unfold clamp; lia).
  rewrite Nat.min_0_l, Nat.max_0_l, Nat.sub_0_r. done.
Qed.

Lemma substringFrom_suffix s n :
  0 <= n <= Z.of_nat (List.length s) -> substringFrom s n = drop (Z.to_nat n) s.
Proof.
  intros H. unfold substringFrom, substring.
  assert (clamp (Z.of_nat (List.length s)) s = List.length s) as ->
    by (unfold clamp; lia).
  assert (clamp n s = Z.to_nat n) as -> by (unfold clamp; lia).
  rewrite Nat.min_l, Nat.max_r by lia.
  apply take_ge. rewrite length_drop. lia.
Qed.

(** The index at which the loop cuts. *)
Lemma splitIndex_bounds s maxLength :
  1 <= maxLength < Z.of_nat (List.length s) ->
  let i1 := lastIndexOf s [newline; newline] maxLength in
  let i2 := if i1 <=? 0 then lastIndexOf s [newline] maxLength else i1 in
  let i3 := if i2 <=? 0 then lastIndexOf s [space] maxLength else i2 in
  let i4 := if i3 <=? 0 then maxLength else i3 in
  1 <= i4 <= maxLength.
Proof.
  intros H. unfold lastIndexOf.
  pose proof (clamp_inside maxLength s ltac:(lia)) as Hc.
  pose proof (lastIndexOfFrom_bounds s [newline; newline] (clamp maxLength s)).
  pose proof (lastIndexOfFrom_bounds s [newline] (clamp maxLength s)).
  pose proof (lastIndexOfFrom_bounds s [space] (clamp maxLength s)).
  simpl. repeat (case_match; try rewrite Z.leb_le in *;
                 try rewrite Z.leb_gt in *); lia.
Qed.

Lemma splitLoop_spec maxLength fuel remaining chunks :
  1 <= maxLength -> (List.length remaining < fuel)%nat ->
  exists new gaps,
    splitLoop fuel remaining maxLength chunks = Some (chunks ++ new)
    /\ Forall (fun c => 1 <= Z.of_nat (List.length c) <= maxLength) new
    /\ List.length gaps = List.length new
    /\ Forall (Forall (fun c => isWhiteSpace c = true)) gaps
    /\ remaining = weave new gaps
    /\ (new = [] <-> remaining = []).
Proof.
  intros Hmax. revert remaining chunks.
  induction fuel as [|fuel IH]; intros remaining chunks Hfuel; [lia|].
  simpl. destruct (Z.of_nat (List.length remaining) <=? 0) eqn:Hempty.
  { apply Z.leb_le in Hempty. destruct remaining; [|simpl in Hempty; lia].
    exists [], []. rewrite app_nil_r. by repeat split. }
  apply Z.leb_gt in Hempty.
  destruct (Z.of_nat (List.length remaining) <=? maxLength) eqn:Hfits.
  { apply Z.leb_le in Hfits. exists [remaining], [[]].
    repeat split; try done.
    - repeat constructor; lia.
    - by repeat constructor.
    - simpl. by rewrite !app_nil_r.
    - intros ->. simpl in Hempty. lia. }
  apply Z.leb_gt in Hfits.
  pose proof (splitIndex_bounds remaining maxLength ltac:(lia)) as Hidx.
  simpl in Hidx.
  match goal with |- context [substring remaining 0 ?i] => set (idx := i) in * end.
  rewrite substring_prefix, substringFrom_suffix by lia.
  destruct (trimStart_gap (drop (Z.to_nat idx) remaining)) as (g & Hg & Hws).
  destruct (IH (trimStart (drop (Z.to_nat idx) remaining))
               (chunks ++ [take (Z.to_nat idx) remaining]))
    as (new & gaps & Hrun & Hnew & Hlen & Hgaps & Hweave & _).
  { pose proof (trimStart_length (drop (Z.to_nat idx) remaining)) as Hl.
    rewrite length_drop in Hl. lia. }
  exists (take (Z.to_nat idx) remaining :: new), (g :: gaps).
  split; [by rewrite Hrun, <- app_assoc|]. split.
  { constructor; [|done]. rewrite length_take. lia. }
  split; [simpl; by rewrite Hlen|]. split; [by constructor|]. split.
  - simpl. rewrite <- Hweave, <- Hg. by rewrite take_drop.
  - split; [done|]. intros ->. simpl in Hempty. lia.
Qed.

(** X5 — for a limit of at least one, [splitTextForBlocks] ends and
    returns chunks that are each between one code unit and the limit
    long; the text is the chunks in order with only white space removed
    between them (and after the last), so no other character is lost,
    added or moved; and the result is empty only for the empty text. *)
Theorem split_chunks_fit_and_keep_text (text : list N) (maxLength : Z) :
  1 <= maxLength ->
  exists chunks gaps,
    splitTextForBlocks text maxLength = Some chunks
    /\ Forall (fun c => 1 <= Z.of_nat (List.length c) <= maxLength) chunks
    /\ List.length gaps = List.length chunks
    /\ Forall (Forall (fun c => isWhiteSpace c = true)) gaps
    /\ text = weave chunks gaps
    /\ (chunks = [] <-> text = []).
Proof.
  intros Hmax. unfold splitTextForBlocks.
  destruct (splitLoop_spec maxLength (S (List.length text)) text [] Hmax)
    as (new & gaps & Hrun & H); [lia|].
  exists new, gaps. by split.
Qed.

Lemma split_chunks_fit_and_keep_text_witness :
  1 <= 3
  /\ splitTextForBlocks [97; 98; 32; 32; 99; 100; 101; 102]%N 3
     = Some [[97; 98; 32]; [99; 100; 101]; [102]]%N
  /\ exists gaps,
       [97; 98; 32; 32; 99; 100; 101; 102]%N
       = weave [[97; 98; 32]; [99; 100; 101]; [102]]%N gaps.
Proof.
  split; [lia|]. split; [reflexivity|].
  destruct (split_chunks_fit_and_keep_text
              [97; 98; 32; 32; 99; 100; 101; 102]%N 3 ltac:(lia))
    as (chunks & gaps & Hrun & _ & _ & _ & Hweave & _).
  vm_compute in Hrun. injection Hrun as <-. by exists gaps.
Defined.

(** X6 — [buildMrkdwnMessage] always returns: the message text is the
    text given, there is at least one block, no block is longer than 3000
    code units, and a text of at most 3000 code units is one block holding
    the text itself. *)
Theorem blocks_fit_the_limit (text : list N) :
  exists msg,
    buildMrkdwnMessage text = Some msg
    /\ message_text msg = text
    /\ blocks msg <> []
    /\ Forall (fun b => Z.of_nat (List.length (block_text b)) <= 3000)
         (blocks msg)
    /\ (Z.of_nat (List.length text) <= 3000 ->
        blocks msg = [{| block_text := text |}]).
Proof.
  unfold buildMrkdwnMessage, BLOCK_TEXT_LIMIT.
  destruct (Z.of_nat (List.length text) <=? 3000) eqn:Hfits.
  - apply Z.leb_le in Hfits. eexists. split; [reflexivity|]. simpl.
    repeat split; try done. by repeat constructor.
  - apply Z.leb_gt in Hfits.
    unfold splitTextForBlocks.
    destruct (splitLoop_spec 3000 (S (List.length text)) text [] ltac:(lia))
      as (chunks & gaps & -> & Hfit & _ & _ & _ & Hnil); [lia|].
    eexists. split; [reflexivity|]. simpl. repeat split.
    + intros Hmap. apply fmap_nil_inv in Hmap. apply Hnil in Hmap.
      subst text. simpl in Hfits. lia.
    + apply Forall_fmap. eapply Forall_impl; [exact Hfit|].
      intros c [_ Hc]. exact Hc.
    + lia.
Qed.

Lemma truncate_cut s maxLength :
  s <> [] -> maxLength < Z.of_nat (List.length s) ->
  truncateString (Some s) maxLength
  = take (Z.to_nat maxLength) s ++ dots.
Proof.
  intros Hne Hlong. unfold truncateString. destruct s as [|c s]; [done|].
  rewrite (proj2 (Z.leb_gt _ _)) by done. f_equal.
  unfold substring, clamp.
  rewrite Nat.min_l, Nat.max_r by lia.
  replace (Z.to_nat (Z.min (Z.max 0 0) _)) with 0%nat by lia.
  rewrite Nat.sub_0_r. simpl drop. f_equal. lia.
Qed.

(** X7 — [truncateString] returns a string that fits unchanged, and
    otherwise its first [maxLength] code units followed by three dots, so
    the result is never longer than [maxLength] + 3; [undefined] and the
    empty string give the empty string; truncating twice to the same
    length is truncating once. *)
Theorem truncate_is_bounded_and_stable (str : option (list N))
    (maxLength : Z) :
  Z.of_nat (List.length (truncateString str maxLength))
    <= Z.max maxLength 0 + 3
  /\ (forall s, str = Some s -> Z.of_nat (List.length s) <= maxLength ->
        truncateString str maxLength = s)
  /\ (forall s, str = Some s -> s <> [] ->
        maxLength < Z.of_nat (List.length s) ->
        truncateString str maxLength = take (Z.to_nat maxLength) s ++ dots)
  /\ (str = None \/ str = Some [] -> truncateString str maxLength = [])
  /\ truncateString (Some (truncateString str maxLength)) maxLength
     = truncateString str maxLength.
Proof.
  assert (forall s, Z.of_nat (List.length s) <= maxLength ->
            truncateString (Some s) maxLength = s) as Hfit.
  { intros s Hs. unfold truncateString. destruct s; [done|].
    by rewrite (proj2 (Z.leb_le _ _)). }
  split; [|split; [|split; [|split]]].
  - destruct str as [[|c s]|]; [simpl; lia| |simpl; lia].
    destruct (Z_le_gt_dec (Z.of_nat (List.length (c :: s))) maxLength)
      as [Hs|Hs].
    + rewrite Hfit by done. lia.
    + rewrite truncate_cut by (done || lia). rewrite length_app, length_take.
      unfold dots. simpl in Hs |- *. lia.
  - intros s -> Hs. by apply Hfit.
  - intros s -> Hne Hs. by apply truncate_cut.
  - by intros [->| ->].
  - destruct str as [[|c s]|]; [done| |done].
    destruct (Z_le_gt_dec (Z.of_nat (List.length (c :: s))) maxLength)
      as [Hs|Hs].
    + rewrite (Hfit (c :: s) Hs). exact (Hfit (c :: s) Hs).
    + rewrite (truncate_cut (c :: s)) by (done || lia). rewrite truncate_cut.
      * rewrite take_app_le by (rewrite length_take; lia).
        by rewrite take_take, Nat.min_id.
      * unfold dots. by destruct (take _ _).
      * rewrite length_app, length_take. unfold dots. simpl in Hs |- *. lia.
Qed.

Lemma truncate_is_bounded_and_stable_witness :
  truncateString (Some [104; 101; 108; 108; 111]%N) 2
  = [104; 101; 46; 46; 46]%N
  /\ truncateString (Some [104; 101; 108; 108; 111]%N) 5
     = [104; 101; 108; 108; 111]%N.
Proof.
  destruct (truncate_is_bounded_and_stable (Some [104; 101; 108; 108; 111]%N) 2)
    as (_ & _ & Hcut & _).
  destruct (truncate_is_bounded_and_stable (Some [104; 101; 108; 108; 111]%N) 5)
    as (_ & Hfit & _).
  split.
  - rewrite (Hcut _ eq_refl); [reflexivity|done|simpl; lia].
  - apply (Hfit _ eq_refl). simpl. lia.
Defined.

End TextFacts.

(** ** The approval gate: further properties *)

Section GateMoreFacts.
Import Gate.

Variable cwd : string.
Variable JSON_parse : string -> option PermissionRequest.

Lemma respond_effects id a msg s :
  effects (respond id a msg s)
  = effects s
    ++ match OMap.get id (pending s) with
       | Some p =>
           [HttpWrite (httpRes p) 200
              (Some {| behavior := if a then "allow" else "deny";
                       message := msg |})]
       | None => []
       end.
Proof.
  unfold respond. destruct (OMap.get id (pending s)); simpl; [done|].
  by rewrite app_nil_r.
Qed.

Lemma writesTo_map_pending h msg (m : list (string * PendingPermission)) :
  NoDup (map (fun e => httpRes e.2) m) ->
  (List.length
     (writesTo h (map (fun e => HttpWrite (httpRes e.2) 200 (Some (deny msg))) m))
   <= 1)%nat
  /\ (writesTo h (map (fun e => HttpWrite (httpRes e.2) 200 (Some (deny msg))) m)
      <> [] -> h ∈ map (fun e => httpRes e.2) m).
Proof.
  induction m as [|[id p] m IH]; [intros _; split; [simpl; lia|done]|].
  rewrite !map_cons. rewrite NoDup_cons. intros [Hp Hnd].
  destruct (IH Hnd) as [Hlen Hin]. cbn [writesTo snd].
  set (w := writesTo h _) in *.
  destruct (Nat.eqb_spec (httpRes p) h) as [<-|Hne].
  - split; [|intros _; left].
    destruct w eqn:Hw; [simpl; lia|]. exfalso. by apply Hp, Hin.
  - split; [done|]. intros Hw. right. by apply Hin.
Qed.

(** What an event adds to the effects: every write goes to a response
    object that had none, and to each at most once. *)
Lemma apply_adds e s :
  admissible e s -> wf s ->
  exists added,
    effects (apply cwd JSON_parse e s) = effects s ++ added
    /\ forall h,
         (List.length (writesTo h added) <= 1)%nat
         /\ (writesTo h added <> [] -> writesTo h (effects s) = []).
Proof.
  intros Hadm (Hk & Hh & Hw & Ht).
  assert (forall id a msg s0,
            (forall h, h ∈ handles s0 -> writesTo h (effects s0) = []) ->
            exists added,
              effects (respond id a msg s0) = effects s0 ++ added
              /\ forall h,
                   (List.length (writesTo h added) <= 1)%nat
                   /\ (writesTo h added <> [] -> writesTo h (effects s0) = []))
    as Hrespond.
  { intros id a msg s0 Hw0. eexists. split; [apply respond_effects|].
    intros h. destruct (OMap.get id (pending s0)) as [p|] eqn:Hget;
      simpl; [|split; [lia|done]].
    destruct (Nat.eqb_spec (httpRes p) h) as [<-|Hne]; simpl;
      [|split; [lia|done]].
    split; [lia|]. intros _. apply Hw0. by eapply handles_held. }
  assert (forall res status body,
            writesTo res (effects s) = [] ->
            forall h,
              (List.length (writesTo h [HttpWrite res status body]) <= 1)%nat
              /\ (writesTo h [HttpWrite res status body] <> [] ->
                  writesTo h (effects s) = [])) as Hone.
  { intros res status body Hnew h. simpl.
    destruct (Nat.eqb_spec res h) as [<-|Hne]; simpl; split; try lia; done. }
  destruct e as [method url body res now rnd|id r|id|id a| |]; cbn [apply].
  - destruct Hadm as [Hres Hnew]. unfold handleRequest.
    destruct (String.eqb method "POST" && String.eqb url "/permission-request");
      [|eexists; split; [reflexivity|by apply Hone]].
    destruct (JSON_parse body) as [data|];
      [|eexists; split; [reflexivity|by apply Hone]].
    unfold handlePermissionRequest.
    match goal with |- context [if ?b then _ else _] => destruct b end;
      [eexists; split; [reflexivity|by apply Hone]|].
    eexists. split; [reflexivity|]. intros h. simpl. split; [lia|done].
  - unfold handlePermissionRequest_resume. simpl.
    destruct r as [ts|]; [|by apply Hrespond].
    exists []. split; [|intros h; simpl; split; [lia|done]].
    rewrite app_nil_r. by repeat case_match.
  - unfold onTimeout.
    match goal with |- context [respond id false ?m ?s0] =>
      destruct (Hrespond id false m s0 Hw) as (added & Heq & Hadd)
    end.
    simpl. destruct (OMap.has id (pending s)).
    + exists added. split; [exact Heq|exact Hadd].
    + exists []. rewrite app_nil_r. split; [done|].
      intros h; simpl; split; [lia|done].
  - unfold resolveApproval.
    destruct (OMap.get id (pending s)) as [p|] eqn:Hget.
    2:{ exists []. rewrite app_nil_r. split; [done|].
        intros h; simpl; split; [lia|done]. }
    assert (forall h upd, (forall h', writesTo h' upd = []) ->
              (List.length
                 (writesTo h (upd ++ [HttpWrite (httpRes p) 200
                    (Some {| behavior := if a then "allow" else "deny";
                             message := if a then "Approved by user"
                                        else "Denied by user" |})])) <= 1)%nat
              /\ (writesTo h (upd ++ [HttpWrite (httpRes p) 200
                    (Some {| behavior := if a then "allow" else "deny";
                             message := if a then "Approved by user"
                                        else "Denied by user" |})]) <> []
                  -> writesTo h (effects s) = [])) as Hfinal.
    { intros h upd Hupd. rewrite writesTo_app, Hupd. simpl.
      destruct (Nat.eqb_spec (httpRes p) h) as [<-|Hne]; simpl;
        [|split; [lia|done]].
      split; [lia|]. intros _. apply Hw. by eapply handles_held. }
    rewrite respond_effects.
    destruct a, (truthy (workingDirectory p)), (truthy (messageTs p));
      simpl; rewrite Hget; eexists;
      (split; [by rewrite <- ?app_assoc|]); intros h;
      first [ apply (Hfinal h [_]); by intros h'
            | apply (Hfinal h []); by intros h' ].
  - exists []. rewrite app_nil_r. split; [done|].
    intros h; simpl; split; [lia|done].
  - unfold stop. rewrite (stop_loop _ (pending s)) by done. simpl.
    eexists. split; [by rewrite <- app_assoc|]. intros h.
    rewrite writesTo_app. simpl. rewrite app_nil_r.
    destruct (writesTo_map_pending h "Server shutting down" (pending s) Hh)
      as [Hlen Hin].
    split; [done|]. intros Hne. by apply Hw, Hin.
Qed.

Lemma once_steps s tr s' :
  steps cwd JSON_parse s tr s' -> wf s ->
  (forall h, (List.length (writesTo h (effects s)) <= 1)%nat) ->
  forall h, (List.length (writesTo h (effects s')) <= 1)%nat.
Proof.
  induction 1 as [|s e tr s' Hadm Hsteps IH]; [done|]. intros Hwf Hone.
  apply IH; [by apply wf_apply|]. intros h.
  destruct (apply_adds e s Hadm Hwf) as (added & -> & Hadd).
  rewrite writesTo_app, length_app. destruct (Hadd h) as [Hlen Hfresh].
  destruct (writesTo h added) eqn:Hw.
  - simpl. specialize (Hone h). lia.
  - rewrite Hfresh by done. simpl in *. lia.
Qed.

(** X8 — in every reachable state no response object has been written
    to more than once, and the response object of an approval that is
    still pending has not been written to at all: a requester never
    receives two decisions. *)
Theorem response_written_at_most_once (s : PermissionHandler) (h : nat) :
  reachable cwd JSON_parse s ->
  (List.length (writesTo h (effects s)) <= 1)%nat
  /\ (h ∈ handles s -> writesTo h (effects s) = []).
Proof.
  intros [tr Htr]. split.
  - eapply once_steps; [exact Htr|apply wf_init|]. intros h'. simpl. lia.
  - destruct (wf_steps cwd JSON_parse _ _ _ Htr wf_init) as (_ & _ & Hw & _).
    apply Hw.
Qed.

(** *** When the prompt cannot be posted *)

(** X9 — if posting the prompt fails, the requester is denied at once
    with "Failed to send Slack message" and the approval is no longer
    pending; the timer is armed all the same and does nothing when it
    fires; memory is untouched. *)
Theorem post_failure_denies (s : PermissionHandler) (approvalId : string)
    (p : PendingPermission) :
  OMap.get approvalId (pending s) = Some p ->
  let s' := handlePermissionRequest_resume approvalId PostFailed s in
  effects s'
  = effects s
    ++ [HttpWrite (httpRes p) 200 (Some (deny "Failed to send Slack message"))]
  /\ OMap.get approvalId (pending s') = None
  /\ approvedTools s' = approvedTools s
  /\ timers s' = timers s ++ [(approvalId, 300000)]
  /\ effects (apply cwd JSON_parse (TimerFires approvalId) s') = effects s'
  /\ pending (apply cwd JSON_parse (TimerFires approvalId) s') = pending s'.
Proof.
  intros Hget s'. subst s'. unfold handlePermissionRequest_resume.
  pose proof (respond_forgets approvalId false "Failed to send Slack message" s)
    as Hgone.
  split; [simpl; by rewrite respond_effects, Hget|].
  split; [exact Hgone|]. split; [simpl; apply respond_memory|].
  split; [simpl; by rewrite (respond_present _ _ _ _ p)|].
  cbn [apply]. unfold onTimeout, OMap.has. simpl. by rewrite Hgone.
Qed.

(** *** What an approval covers *)

Lemma isAutoApproved_lookup T inp D s1 s2 :
  approvedTools s1 !! D = approvedTools s2 !! D ->
  isAutoApproved cwd T inp D s1 = isAutoApproved cwd T inp D s2.
Proof. intros H. unfold isAutoApproved. by rewrite H. Qed.

Lemma resolveApproval_memory id p s :
  OMap.get id (pending s) = Some p ->
  approvedTools (resolveApproval id true s)
  = match truthy (workingDirectory p) with
    | Some D =>
        <[D := default ∅ (approvedTools s !! D) ∪ {[toolName p]}]>
          (approvedTools s)
    | None => approvedTools s
    end.
Proof.
  intros Hget. unfold resolveApproval. rewrite Hget, respond_memory.
  by destruct (truthy (workingDirectory p)), (truthy (messageTs p)).
Qed.

(** X11 — an approval covers exactly its tool in exactly its working
    directory, compared as strings: for every other tool, and for every
    other directory string, what is answered from memory is the same
    before and after the approval; and an approval of a request that
    carried no working directory changes nothing in memory. *)
Theorem approval_is_scoped (s : PermissionHandler) (approvalId : string)
    (p : PendingPermission) :
  OMap.get approvalId (pending s) = Some p ->
  let s' := resolveApproval approvalId true s in
  (forall D, truthy (workingDirectory p) = Some D ->
     forall T' D' inp,
       T' <> toolName p \/ D' <> D ->
       isAutoApproved cwd T' inp D' s' = isAutoApproved cwd T' inp D' s)
  /\ (truthy (workingDirectory p) = None ->
      approvedTools s' = approvedTools s).
Proof.
  intros Hget s'. subst s'. split.
  - intros D HD T' D' inp Hother.
    unfold isAutoApproved. rewrite (resolveApproval_memory _ p) by done.
    rewrite HD. destruct (decide (D' = D)) as [->|HDD].
    + destruct Hother as [HT|]; [|done]. rewrite lookup_insert_eq.
      destruct (approvedTools s !! D) as [tools|] eqn:Htools; simpl.
      * assert (T' ∈ tools ∪ {[toolName p]} <-> T' ∈ tools) as Hiff
          by set_solver.
        repeat case_bool_decide; tauto.
      * case_bool_decide as Hin; [|done]. set_solver.
    + by rewrite lookup_insert_ne.
  - intros HD. rewrite (resolveApproval_memory _ p) by done. by rewrite HD.
Qed.

(** X12 — a tool whose input has neither [file_path] nor [path] (Bash,
    for one) is approved for the whole directory: once a request for it
    was approved with a working directory, and until approvals are
    cleared, every request for that tool carrying that directory and no
    such path is answered allow at once, whatever else its input
    holds. *)
Theorem pathless_tool_is_approved_for_directory (s s' : PermissionHandler)
    (approvalId : string) (p : PendingPermission) (D : string)
    (tr : list Event) (data : PermissionRequest) (res : nat)
    (now rnd : string) :
  OMap.get approvalId (pending s) = Some p ->
  truthy (workingDirectory p) = Some D ->
  steps cwd JSON_parse (resolveApproval approvalId true s) tr s' ->
  ClearApprovals ∉ tr ->
  tool_name data = toolName p ->
  truthy (working_directory data) = Some D ->
  truthy (file_path (input data)) = None ->
  truthy (path (input data)) = None ->
  handlePermissionRequest cwd data res now rnd s'
  = emit (HttpWrite res 200 (Some autoApproved)) s'.
Proof.
  intros Hget HD Hsteps Hclear HT Hwd Hfp Hpath.
  pose proof (approval_is_remembered JSON_parse _ _ _ _ Hget HD) as Hrem.
  pose proof (memory_kept cwd JSON_parse _ _ _ _ _ Hsteps Hclear Hrem) as Hkept.
  unfold handlePermissionRequest, isAutoApproved, extractToolTargetPath.
  rewrite Hwd, Hfp, Hpath, HT.
  destruct (approvedTools s' !! D) as [tools|]; simpl in Hkept; [|set_solver].
  by rewrite bool_decide_eq_true_2.
Qed.

(** *** Clicks that come late *)

(** X13 — a click on Approve or Deny for an approval that is no longer
    pending (it timed out, was answered, or the gate was stopped) changes
    nothing: no decision is written, nothing is remembered; yet the
    handler answers the click with the same text as for a pending one. *)
Theorem late_click_changes_nothing (s : PermissionHandler)
    (approvalId : string) (r : Resolution) :
  let s' := resolveBy r approvalId s in
  Buttons.approve_tool approvalId s' = (s', "✅ Tool execution approved")
  /\ Buttons.deny_tool approvalId s' = (s', "❌ Tool execution denied")
  /\ forall s0, (Buttons.approve_tool approvalId s0).2
                = "✅ Tool execution approved".
Proof.
  intros s'. unfold Buttons.approve_tool, Buttons.deny_tool.
  pose proof (resolveBy_forgets r approvalId s) as Hgone. fold s' in Hgone.
  unfold resolveApproval. by rewrite Hgone.
Qed.

End GateMoreFacts.

Section GateMoreWitnesses.
Import Gate.

Lemma response_written_at_most_once_witness :
  let s := apply sample_cwd sample_parse (TimerFires id1)
             (prompted "Write" "/repo/sub/x.txt" "/repo") in
  reachable sample_cwd sample_parse s
  /\ List.length (writesTo 1 (effects s)) = 1%nat.
Proof.
  intros s.
  assert (reachable sample_cwd sample_parse s) as Hreach.
  { exists (prompted_trace ++ [TimerFires id1]). unfold prompted_trace. simpl.
    apply steps_cons.
    { split; [apply not_elem_of_nil|reflexivity]. }
    apply steps_cons.
    { vm_compute. left. }
    apply steps_cons.
    { vm_compute. left. }
    apply steps_nil. }
  split; [exact Hreach|].
  destruct (response_written_at_most_once sample_cwd sample_parse s 1 Hreach) as [Hle _].
  assert (writesTo 1 (effects s) <> []) as Hne by (vm_compute; discriminate).
  destruct (writesTo 1 (effects s)) as [|w [|w' l]]; [done|done|].
  simpl in Hle. lia.
Defined.


Lemma post_failure_denies_witness :
  let s := handlePermissionRequest sample_cwd
             (request "Write" "/repo/sub/x.txt" (Some "/repo")) 1
             "1712000000000" "k3j9x2m1q" init in
  (exists p, OMap.get id1 (pending s) = Some p)
  /\ writesTo 1 (effects (handlePermissionRequest_resume id1 PostFailed s))
     = [(200, Some (deny "Failed to send Slack message"))].
Proof.
  intros s.
  destruct (OMap.get id1 (pending s)) as [p|] eqn:Hget;
    [|vm_compute in Hget; discriminate].
  split; [by exists p|].
  destruct (post_failure_denies sample_cwd sample_parse s id1 p Hget) as (Heff & _).
  rewrite Heff. vm_compute in Hget. injection Hget as <-. reflexivity.
Defined.


Lemma approval_is_scoped_witness :
  let s := prompted "Write" "/repo/a.txt" "/repo" in
  (exists p, OMap.get id1 (pending s) = Some p
             /\ truthy (workingDirectory p) = Some "/repo")
  /\ isAutoApproved sample_cwd "Write"
       (input (request "Write" "/repo/a.txt" (Some "/repo/"))) "/repo/"
       (resolveApproval id1 true s) = false
  /\ isAutoApproved sample_cwd "Write"
       (input (request "Write" "/repo/a.txt" (Some "/repo"))) "/repo"
       (resolveApproval id1 true s) = true.
Proof.
  intros s.
  destruct (OMap.get id1 (pending s)) as [p|] eqn:Hget;
    [|vm_compute in Hget; discriminate].
  assert (truthy (workingDirectory p) = Some "/repo") as HD.
  { vm_compute in Hget. by injection Hget as <-. }
  split; [by exists p|].
  destruct (approval_is_scoped sample_cwd sample_parse s id1 p Hget) as [Hscope _].
  split; [|reflexivity].
  rewrite (Hscope "/repo" HD); [reflexivity|]. right. discriminate.
Defined.


Lemma pathless_tool_is_approved_for_directory_witness :
  let bash := fun cmd =>
    {| tool_name := "Bash";
       input := {| file_path := None; path := None;
                   others := [("command", cmd)] |};
       channel := "C0123"; thread_ts := None; user := Some "U42";
       working_directory := Some "/repo" |} in
  let s := handlePermissionRequest_resume id1 (PostOk (Some "1712.000200"))
             (handlePermissionRequest sample_cwd (bash "ls") 1
                "1712000000000" "k3j9x2m1q" init) in
  writesTo 2
    (effects (handlePermissionRequest sample_cwd (bash "rm -rf /") 2
                "1712000060000" "z8c1v5b7n" (resolveApproval id1 true s)))
  = [(200, Some autoApproved)].
Proof.
  intros bash s.
  destruct (OMap.get id1 (pending s)) as [p|] eqn:Hget;
    [|vm_compute in Hget; discriminate].
  assert (truthy (workingDirectory p) = Some "/repo" /\ toolName p = "Bash")
    as [HD HT].
  { vm_compute in Hget. by injection Hget as <-. }
  rewrite (pathless_tool_is_approved_for_directory sample_cwd sample_parse
             s (resolveApproval id1 true s) id1 p "/repo" []
             (bash "rm -rf /") 2 "1712000060000" "z8c1v5b7n" Hget HD
             (steps_nil _ _ _) (not_elem_of_nil _));
    [reflexivity|by rewrite HT|reflexivity..].
Defined.


End GateMoreWitnesses.

(** *** When a request is answered from memory *)

Section UntypedFacts.
Import Gate.

Variable cwd : string.






End UntypedFacts.

Section UntypedWitnesses.
Import Gate.


End UntypedWitnesses.

Section RelayFacts.
Import Gate.

Variable cwd : string.
Variable JSON_parse : string -> option PermissionRequest.

Lemma relay_inv_respond id approved msg s :
  (approved = true -> msg = "Approved by user") ->
  approvedTools s = ∅
  /\ Forall (fun e : string * PendingPermission => workingDirectory e.2 = None)
       (pending s)
  /\ Forall (fun ef => forall res st d,
               ef = HttpWrite res st (Some d) -> behavior d = "allow" ->
               message d = "Approved by user") (effects s) ->
  approvedTools (respond id approved msg s) = ∅
  /\ Forall (fun e : string * PendingPermission => workingDirectory e.2 = None)
       (pending (respond id approved msg s))
  /\ Forall (fun ef => forall res st d,
               ef = HttpWrite res st (Some d) -> behavior d = "allow" ->
               message d = "Approved by user")
       (effects (respond id approved msg s)).
Proof.
  intros Hmsg (Hmem & Hpend & Heff). unfold respond.
  destruct (OMap.get id (pending s)) as [p|]; [|done]. simpl.
  split; [done|]. split; [by apply omap_Forall_delete|].
  apply Forall_app. split; [done|]. constructor; [|constructor].
  intros res st d [= _ _ <-]. simpl. destruct approved; [|done].
  intros _. by apply Hmsg.
Qed.

Lemma relay_inv_apply e s :
  Relay.relayed JSON_parse ->
  approvedTools s = ∅
  /\ Forall (fun e : string * PendingPermission => workingDirectory e.2 = None)
       (pending s)
  /\ Forall (fun ef => forall res st d,
               ef = HttpWrite res st (Some d) -> behavior d = "allow" ->
               message d = "Approved by user") (effects s) ->
  approvedTools (apply cwd JSON_parse e s) = ∅
  /\ Forall (fun e : string * PendingPermission => workingDirectory e.2 = None)
       (pending (apply cwd JSON_parse e s))
  /\ Forall (fun ef => forall res st d,
               ef = HttpWrite res st (Some d) -> behavior d = "allow" ->
               message d = "Approved by user")
       (effects (apply cwd JSON_parse e s)).
Proof.
  intros Hrelay Hinv.
  destruct e as [method url body res now rnd|id result|id|id approved| |];
    cbn [apply].
  - destruct Hinv as (Hmem & Hpend & Heff). unfold handleRequest.
    destruct (_ && _).
    + destruct (JSON_parse body) as [data|] eqn:Hparse.
      * destruct (Hrelay body data Hparse) as (t & i & ctx & ->).
        unfold handlePermissionRequest. simpl.
        split; [done|]. split.
        -- by apply omap_Forall_set_key.
        -- apply Forall_app. split; [done|]. by repeat constructor.
      * simpl. split; [done|]. split; [done|].
        apply Forall_app. split; [done|]. constructor; [|constructor].
        by intros res' st d [= _ _ <-].
    + simpl. split; [done|]. split; [done|].
      apply Forall_app. split; [done|]. by repeat constructor.
  - unfold handlePermissionRequest_resume. destruct result as [ts|]; simpl.
    + destruct Hinv as (Hmem & Hpend & Heff).
      destruct (OMap.get id (pending s)) as [p|] eqn:Hget; [|done].
      destruct (truthy ts) as [t|]; [|done]. simpl.
      split; [done|]. split; [|done].
      apply omap_Forall_set_key; [|done]. simpl.
      apply omap_get_Some_elem in Hget. rewrite Forall_forall in Hpend.
      exact (Hpend _ Hget).
    + by apply relay_inv_respond.
  - unfold onTimeout. simpl. destruct (OMap.has id (pending s)); [|done].
    by apply (relay_inv_respond id false _
                {| pending := pending s; approvedTools := approvedTools s;
                   posting := posting s;
                   timers := removeTimer id (timers s);
                   effects := effects s |}).
  - unfold resolveApproval.
    destruct (OMap.get id (pending s)) as [p|] eqn:Hget; [|done].
    assert (workingDirectory p = None) as Hwd.
    { destruct Hinv as (_ & Hpend & _).
      apply omap_get_Some_elem in Hget. rewrite Forall_forall in Hpend.
      exact (Hpend _ Hget). }
    rewrite Hwd. change (truthy None) with (@None string).
    apply relay_inv_respond; [by destruct approved|].
    assert (match (if approved then None else None) with
            | Some wd => rememberApproval (toolName p) wd s
            | None => s
            end = s) as Hs1 by (by destruct approved).
    destruct approved; cbv iota; destruct (truthy (messageTs p)); try done;
      destruct Hinv as (Hmem & Hpend & Heff); simpl;
      (split; [done|]); (split; [done|]);
      (apply Forall_app; split; [done|]); by repeat constructor.
  - destruct Hinv as (Hmem & Hpend & Heff). by repeat split.
  - unfold stop.
    assert (forall ids s0,
              approvedTools s0 = ∅
              /\ Forall (fun e : string * PendingPermission =>
                           workingDirectory e.2 = None) (pending s0)
              /\ Forall (fun ef => forall res st d,
                           ef = HttpWrite res st (Some d) ->
                           behavior d = "allow" ->
                           message d = "Approved by user") (effects s0) ->
              approvedTools
                (fold_left (fun st approvalId =>
                              respond approvalId false "Server shutting down" st)
                   ids s0) = ∅
              /\ Forall (fun e : string * PendingPermission =>
                           workingDirectory e.2 = None)
                   (pending (fold_left (fun st approvalId =>
                              respond approvalId false "Server shutting down" st)
                               ids s0))
              /\ Forall (fun ef => forall res st d,
                           ef = HttpWrite res st (Some d) ->
                           behavior d = "allow" ->
                           message d = "Approved by user")
                   (effects (fold_left (fun st approvalId =>
                              respond approvalId false "Server shutting down" st)
                               ids s0))) as Hloop.
    { induction ids as [|id ids IH]; intros s0 Hs0; simpl; [done|].
      by apply IH, relay_inv_respond. }
    destruct (Hloop (OMap.keys (pending s)) s Hinv) as (Hmem & Hpend & Heff).
    simpl. split; [done|]. split; [done|].
    apply Forall_app. split; [done|]. by repeat constructor.
Qed.

Lemma relay_inv_steps s0 tr s :
  Relay.relayed JSON_parse ->
  steps cwd JSON_parse s0 tr s ->
  approvedTools s0 = ∅
  /\ Forall (fun e : string * PendingPermission => workingDirectory e.2 = None)
       (pending s0)
  /\ Forall (fun ef => forall res st d,
               ef = HttpWrite res st (Some d) -> behavior d = "allow" ->
               message d = "Approved by user") (effects s0) ->
  approvedTools s = ∅
  /\ Forall (fun e : string * PendingPermission => workingDirectory e.2 = None)
       (pending s)
  /\ Forall (fun ef => forall res st d,
               ef = HttpWrite res st (Some d) -> behavior d = "allow" ->
               message d = "Approved by user") (effects s).
Proof.
  intros Hrelay. induction 1 as [|s0 e tr s' _ _ IH]; [done|].
  intros Hs0. by apply IH, relay_inv_apply.
Qed.

(** X24 — the request the relay posts has no [working_directory]; so
    when every request comes from the relay, nothing is ever remembered:
    in every reachable state the approval memory is empty, no pending
    record has a working directory, and every allow that was written is
    a human's click ("Approved by user"), never an automatic one. *)
Theorem relayed_requests_are_never_remembered (s : PermissionHandler) :
  Relay.relayed JSON_parse ->
  reachable cwd JSON_parse s ->
  approvedTools s = ∅
  /\ (forall id p, OMap.get id (pending s) = Some p ->
        workingDirectory p = None)
  /\ (forall res st d,
        HttpWrite res st (Some d) ∈ effects s -> behavior d = "allow" ->
        message d = "Approved by user").
Proof.
  intros Hrelay [tr Hsteps].
  assert (approvedTools s = ∅
          /\ Forall (fun e : string * PendingPermission =>
                       workingDirectory e.2 = None) (pending s)
          /\ Forall (fun ef => forall res st d,
                       ef = HttpWrite res st (Some d) ->
                       behavior d = "allow" ->
                       message d = "Approved by user") (effects s))
    as (Hmem & Hpend & Heff).
  { apply (relay_inv_steps init tr s Hrelay Hsteps).
    repeat split; constructor. }
  split; [done|]. split.
  - intros id p Hget. apply omap_get_Some_elem in Hget.
    rewrite Forall_forall in Hpend. exact (Hpend _ Hget).
  - intros res st d Hin. rewrite Forall_forall in Heff.
    by apply (Heff _ Hin res st d).
Qed.

End RelayFacts.

Section RelayWitnesses.
Import Gate.

Lemma relayed_requests_are_never_remembered_witness :
  let s := fold_left (fun s e => apply sample_cwd Relay.sample_parse e s)
             Relay.sample_trace init in
  writesTo 1 (effects s)
  = [(200, Some {| behavior := "allow"; message := "Approved by user" |})]
  /\ approvedTools s = ∅.
Proof.
  intros s. split; [reflexivity|].
  assert (Relay.relayed Relay.sample_parse) as Hrelay.
  { intros body data. unfold Relay.sample_parse.
    destruct (String.eqb body "bash-ls"); [|done].
    intros [= <-]. by eexists _, _, _. }
  assert (reachable sample_cwd Relay.sample_parse s) as Hreach.
  { exists Relay.sample_trace. unfold Relay.sample_trace.
    apply steps_cons.
    { split; [apply not_elem_of_nil|reflexivity]. }
    apply steps_cons.
    { vm_compute. left. }
    apply steps_cons; [exact I|]. apply steps_nil. }
  by destruct (relayed_requests_are_never_remembered sample_cwd
                 Relay.sample_parse s Hrelay Hreach) as (Hmem & _).
Defined.

End RelayWitnesses.

Section WorkDirFacts.
Import WorkDir.

Variable cwd : string.
Variable baseDirectory : string.
Variable path_join : string -> string -> string.

(** *** [path.resolve] returns a fixed point of itself *)

Lemma split_clean seg : Posix.hasSep seg = false -> Posix.split seg = [seg].
Proof.
  induction seg as [|c seg IH]; simpl; [done|].
  intros [Hc Hseg]%orb_false_iff. rewrite Hc, (IH Hseg). done.
Qed.

Lemma split_append_sep seg rest :
  Posix.hasSep seg = false ->
  Posix.split (seg +:+ Posix.sep +:+ rest) = seg :: Posix.split rest.
Proof.
  induction seg as [|c seg IH]; rewrite ?append_nil_l, ?append_cons; simpl;
    [done|].
  intros [Hc Hseg]%orb_false_iff. rewrite Hc, (IH Hseg). done.
Qed.

Lemma split_join segs :
  segs <> [] -> Forall Posix.clean segs -> Posix.split (Posix.join segs) = segs.
Proof.
  induction segs as [|seg segs IH]; [done|]. intros _ Hall.
  apply Forall_cons in Hall as [[_ Hseg] Hall].
  destruct segs as [|seg' segs].
  - rewrite join_single. by apply split_clean.
  - rewrite join_cons2, split_append_sep by done. f_equal. by apply IH.
Qed.

Lemma pushSegment_kept_fold segs res :
  Forall (fun seg => forall r, Posix.pushSegment r seg = r ++ [seg]) res ->
  Forall (fun seg => forall r, Posix.pushSegment r seg = r ++ [seg])
    (fold_left Posix.pushSegment segs res).
Proof.
  set (P := fun seg => forall r, Posix.pushSegment r seg = r ++ [seg]).
  revert res. induction segs as [|seg segs IH]; intros res Hres; simpl;
    [done|].
  apply IH. unfold Posix.pushSegment.
  destruct (String.eqb seg "") eqn:H1; [done|].
  destruct (String.eqb seg ".") eqn:H2; [done|].
  destruct (String.eqb seg "..") eqn:H3; [by apply Forall_removelast|].
  apply Forall_app. split; [done|]. constructor; [|constructor].
  intros r. unfold Posix.pushSegment. by rewrite H1, H2, H3.
Qed.

Lemma fold_pushSegment_kept segs res :
  Forall (fun seg => forall r, Posix.pushSegment r seg = r ++ [seg]) segs ->
  fold_left Posix.pushSegment segs res = res ++ segs.
Proof.
  revert res. induction segs as [|seg segs IH]; intros res Hall; simpl.
  - by rewrite app_nil_r.
  - apply Forall_cons in Hall as [Hseg Hall].
    rewrite Hseg, IH by done. by rewrite <- app_assoc.
Qed.

Lemma resolve_fixed cwd' p :
  Posix.resolve cwd' (Posix.resolve cwd p) = Posix.resolve cwd p.
Proof.
  unfold Posix.resolve at 1 3. f_equal. f_equal.
  unfold Posix.segments at 1. unfold Posix.resolve.
  change (Posix.isAbsolute (Posix.sep +:+ _)) with true. cbv iota.
  change (Posix.split (Posix.sep +:+ ?x)) with ("" :: Posix.split x).
  pose proof (segments_clean cwd p) as Hclean.
  assert (Forall (fun seg => forall r, Posix.pushSegment r seg = r ++ [seg])
            (Posix.segments cwd p)) as Hkept.
  { apply pushSegment_kept_fold. constructor. }
  destruct (Posix.segments cwd p) as [|seg segs] eqn:Hsegs; [done|].
  rewrite split_join by done.
  unfold Posix.normalizeString. simpl.
  change (Posix.pushSegment [] "") with (@nil string).
  apply Forall_cons in Hkept as [Hseg Hkept].
  rewrite Hseg, fold_pushSegment_kept by done. done.
Qed.

(** *** Keys *)

Lemma getConfigKey_falsy t u c :
  truthy t = None -> getConfigKey c t u = getConfigKey c None u.
Proof. intros Ht. unfold getConfigKey. by rewrite Ht. Qed.

Lemma getConfigKey_thread t ts u c :
  truthy t = Some ts -> getConfigKey c t u = c +:+ "-" +:+ ts.
Proof. intros Ht. unfold getConfigKey. by rewrite Ht. Qed.

Lemma truthy_Some_idem t ts : truthy t = Some ts -> truthy (Some ts) = Some ts.
Proof.
  unfold truthy, Gate.truthy. destruct t as [x|]; [|done].
  destruct (String.eqb x "") eqn:Hx; [done|]. intros [= <-]. by rewrite Hx.
Qed.

Lemma append_dash_inj x y a b :
  hasDash x = false -> hasDash y = false ->
  x +:+ String "-" a = y +:+ String "-" b -> x = y /\ a = b.
Proof.
  revert y. induction x as [|c x IH]; intros [|d y];
    rewrite ?append_nil_l, ?append_cons; simpl.
  - by intros _ _ [= ->].
  - intros _ Hy [= <- _]. done.
  - intros Hx _ [= -> _]. done.
  - intros Hx Hy [= -> Heq].
    apply orb_false_iff in Hx as [_ Hx]. apply orb_false_iff in Hy as [_ Hy].
    destruct (IH y Hx Hy Heq) as [-> ->]. done.
Qed.

Lemma append_dash_has_dash x a : hasDash (x +:+ String "-" a) = true.
Proof.
  induction x as [|c x IH]; rewrite ?append_nil_l, ?append_cons; simpl;
    [done|].
  rewrite IH. apply orb_true_r.
Qed.

(** Keys of dash-free channel ids: the channel-level key of [c'] for
    user [u'] is the thread key of [c], [ts] only if [c' = c] is a direct
    message channel and [u'] is [ts]. *)
Lemma channel_key_is_thread_key c c' ts u' :
  hasDash c = false -> hasDash c' = false ->
  getConfigKey c' None u' = c +:+ "-" +:+ ts ->
  c' = c /\ truthy u' = Some ts /\ Posix.startsWith c' "D" = true.
Proof.
  intros Hc Hc'. unfold getConfigKey.
  change (truthy None) with (@None string). cbv iota.
  assert (c' <> c +:+ "-" +:+ ts) as Hplain.
  { intros Heq. rewrite Heq in Hc'.
    change (c +:+ "-" +:+ ts) with (c +:+ String "-" ts) in Hc'.
    by rewrite append_dash_has_dash in Hc'. }
  destruct (truthy u') as [us|]; [|done].
  destruct (Posix.startsWith c' "D"); [|done].
  intros Heq. by destruct (append_dash_inj c' c us ts Hc' Hc Heq) as [-> ->].
Qed.

(** *** Setting and reading *)

Lemma save_configs fs s : configs (savePersistedConfigs fs s) = configs s.
Proof.
  unfold savePersistedConfigs.
  destruct (persistedEntries _); [|done]. by destruct (writable fs).
Qed.

Lemma resolveDirectory_resolved fs d r :
  resolveDirectory cwd baseDirectory path_join fs d = Some r ->
  exists x, r = Posix.resolve cwd x.
Proof.
  unfold resolveDirectory. intros H.
  repeat case_match; simplify_eq; by eexists.
Qed.

Lemma truthy_resolve x :
  truthy (Some (Posix.resolve cwd x)) = Some (Posix.resolve cwd x).
Proof. done. Qed.

Lemma setWorkingDirectory_cases fs c d t u now s :
  let out := setWorkingDirectory cwd baseDirectory path_join fs c d t u now s in
  (success out.2 = false /\ out.1 = s /\ resolvedPath out.2 = None
   /\ error out.2 <> None)
  \/ (exists x,
        resolveDirectory cwd baseDirectory path_join fs d
        = Some (Posix.resolve cwd x)
        /\ isDirectory fs (Posix.resolve cwd x) = Some true
        /\ out.2 = {| success := true;
                      resolvedPath := Some (Posix.resolve cwd x);
                      error := None |}
        /\ out.1 = savePersistedConfigs fs
                     {| configs :=
                          OMap.set (getConfigKey c t u)
                            {| channelId := c; threadTs := t; userId := u;
                               directory := Posix.resolve cwd x;
                               setAt := Some now |} (configs s);
                        file := file s |}).
Proof.
  intros out. subst out. unfold setWorkingDirectory.
  destruct (resolveDirectory cwd baseDirectory path_join fs d) as [r|] eqn:Hr;
    [|by left].
  destruct (resolveDirectory_resolved _ _ _ Hr) as [x ->].
  rewrite truthy_resolve.
  destruct (isDirectory fs (Posix.resolve cwd x)) as [[|]|] eqn:Hdir;
    [|by left..].
  right. by exists x.
Qed.

Lemma get_own_key c t u cfg s :
  OMap.get (getConfigKey c t u) (configs s) = Some cfg ->
  getWorkingDirectory c t u s = Some (directory cfg).
Proof.
  unfold getWorkingDirectory.
  destruct (truthy t) as [ts|] eqn:Ht.
  - rewrite (getConfigKey_thread t ts u c Ht).
    rewrite (getConfigKey_thread (Some ts) ts None c (truthy_Some_idem _ _ Ht)).
    by intros ->.
  - rewrite (getConfigKey_falsy t u c Ht). by intros ->.
Qed.

Lemma getWorkingDirectory_configs c t u s1 s2 :
  configs s1 = configs s2 ->
  getWorkingDirectory c t u s1 = getWorkingDirectory c t u s2.
Proof. intros H. unfold getWorkingDirectory. by rewrite H. Qed.

(** X14 — a successful [setWorkingDirectory] stores a path that names a
    directory and that [path.resolve] returns unchanged (absolute,
    normalised), and the same channel, thread and user read exactly that
    path back. *)
Theorem set_then_get (fs : Fs) (c d : string) (t u : option string)
    (now : Z) (s s' : Manager) (r : SetResult) :
  setWorkingDirectory cwd baseDirectory path_join fs c d t u now s = (s', r) ->
  success r = true ->
  exists dir,
    resolvedPath r = Some dir /\ error r = None
    /\ isDirectory fs dir = Some true
    /\ canonical dir
    /\ getWorkingDirectory c t u s' = Some dir.
Proof.
  intros Hset Hok.
  pose proof (setWorkingDirectory_cases fs c d t u now s) as Hcases.
  rewrite Hset in Hcases. simpl in Hcases.
  destruct Hcases as [(Hfail & _)|(x & _ & Hdir & -> & ->)]; [congruence|].
  exists (Posix.resolve cwd x). repeat split; try done.
  - intros cwd'. apply resolve_fixed.
  - apply (get_own_key c t u
             {| channelId := c; threadTs := t; userId := u;
                directory := Posix.resolve cwd x; setAt := Some now |}).
    rewrite save_configs. simpl. apply omap_get_set_eq.
Qed.

(** X15 — a [setWorkingDirectory] that fails (nothing found, not a
    directory, or [statSync] throws) changes neither the map nor the
    file, and reports an error and no path. *)
Theorem failed_set_changes_nothing (fs : Fs) (c d : string)
    (t u : option string) (now : Z) (s s' : Manager) (r : SetResult) :
  setWorkingDirectory cwd baseDirectory path_join fs c d t u now s = (s', r) ->
  success r = false ->
  s' = s /\ resolvedPath r = None /\ error r <> None
  /\ (forall dir,
        truthy (resolveDirectory cwd baseDirectory path_join fs d) = Some dir ->
        isDirectory fs dir <> Some true).
Proof.
  intros Hset Hfail.
  pose proof (setWorkingDirectory_cases fs c d t u now s) as Hcases.
  rewrite Hset in Hcases. simpl in Hcases.
  destruct Hcases as [(_ & -> & Hp & He)|(x & _ & _ & -> & _)];
    [|done].
  repeat split; try done.
  intros dir Hdir Hstat. unfold setWorkingDirectory in Hset.
  rewrite Hdir, Hstat in Hset. injection Hset as _ <-. done.
Qed.

(** *** One conversation's setting does not leak into another *)

Lemma get_frame c' t' u' k cfg cfgs f f' :
  getConfigKey c' None u' <> k ->
  (forall ts', truthy t' = Some ts' -> c' +:+ "-" +:+ ts' <> k) ->
  getWorkingDirectory c' t' u' {| configs := OMap.set k cfg cfgs; file := f |}
  = getWorkingDirectory c' t' u' {| configs := cfgs; file := f' |}.
Proof.
  intros Hchan Hthread. unfold getWorkingDirectory. simpl.
  rewrite (omap_get_set_ne k) by done.
  destruct (truthy t') as [ts'|] eqn:Ht'; [|done].
  rewrite (getConfigKey_thread (Some ts') ts' None c'
             (truthy_Some_idem _ _ Ht')).
  rewrite (omap_get_set_ne k); [done|]. intros Heq. by apply (Hthread ts').
Qed.

(** X16 — for channel ids without a dash: what [setWorkingDirectory]
    does for a thread of channel [c] is not seen from another channel,
    nor from another thread of [c], nor as the default of [c]; the one
    exception is a direct-message channel whose user id is the thread's
    timestamp, because thread keys and direct-message keys are built the
    same way. *)
Theorem thread_override_is_local (fs : Fs) (c d : string)
    (t u : option string) (ts : string) (now : Z) (s : Manager)
    (c' : string) (t' u' : option string) :
  hasDash c = false -> hasDash c' = false ->
  truthy t = Some ts ->
  c' <> c
  \/ (truthy t' <> Some ts
      /\ (truthy u' <> Some ts \/ Posix.startsWith c' "D" = false)) ->
  getWorkingDirectory c' t' u'
    (setWorkingDirectory cwd baseDirectory path_join fs c d t u now s).1
  = getWorkingDirectory c' t' u' s.
Proof.
  intros Hc Hc' Ht Hother.
  pose proof (setWorkingDirectory_cases fs c d t u now s) as Hcases.
  destruct Hcases as [(_ & -> & _)|(x & _ & _ & _ & ->)]; [done|].
  erewrite getWorkingDirectory_configs; [|by rewrite save_configs].
  rewrite (getConfigKey_thread t ts u c Ht).
  rewrite (get_frame c' t' u' _ _ _ _ (file s));
    [by apply getWorkingDirectory_configs| |].
  - intros Hkey.
    destruct (channel_key_is_thread_key c c' ts u' Hc Hc' Hkey)
      as (-> & Hu & HD).
    destruct Hother as [|[_ [|]]]; congruence.
  - intros ts' Ht' Hkey.
    destruct (append_dash_inj c' c ts' ts Hc' Hc Hkey) as [-> ->].
    destruct Hother as [|[]]; congruence.
Qed.

(** *** Removing *)

(** X17 — [removeWorkingDirectory] returns whether the key was there;
    if it was not, nothing changes; afterwards the key is gone, a second
    removal returns false, and a thread that lost its override reads the
    default of its channel. *)
Theorem remove_falls_back (fs : Fs) (c : string) (t u : option string)
    (s : Manager) :
  let out := removeWorkingDirectory fs c t u s in
  out.2 = OMap.has (getConfigKey c t u) (configs s)
  /\ (out.2 = false -> out.1 = s)
  /\ OMap.get (getConfigKey c t u) (configs out.1) = None
  /\ (forall fs', (removeWorkingDirectory fs' c t u out.1).2 = false)
  /\ (forall ts, truthy t = Some ts ->
        getWorkingDirectory c t u out.1 = getWorkingDirectory c None u out.1).
Proof.
  intros out.
  assert (out.2 = OMap.has (getConfigKey c t u) (configs s)
          /\ (out.2 = false -> out.1 = s)
          /\ OMap.get (getConfigKey c t u) (configs out.1) = None)
    as (Hres & Hsame & Hgone).
  { subst out. unfold removeWorkingDirectory.
    destruct (OMap.has _ _) eqn:Hhas; simpl.
    - repeat split; [done|]. rewrite save_configs. simpl.
      apply omap_get_delete_eq.
    - repeat split. unfold OMap.has in Hhas. by destruct (OMap.get _ _). }
  clearbody out. repeat split; try done.
  - intros fs'. unfold removeWorkingDirectory, OMap.has. by rewrite Hgone.
  - intros ts Ht. rewrite (getConfigKey_thread t ts u c Ht) in Hgone.
    unfold getWorkingDirectory. rewrite Ht.
    rewrite (getConfigKey_thread (Some ts) ts None c (truthy_Some_idem _ _ Ht)).
    by rewrite Hgone.
Qed.

(** *** The two readers agree *)

(** X18 — [getWorkingDirectoryWithSource] returns the directory that
    [getWorkingDirectory] returns; the source is [thread] only when the
    thread has an override of its own, and otherwise [dm] or [channel]
    by the first letter of the channel id alone. *)
Theorem source_agrees_with_directory (c : string) (t u : option string)
    (s : Manager) :
  option_map fst (getWorkingDirectoryWithSource c t u s)
  = getWorkingDirectory c t u s
  /\ (forall d, getWorkingDirectoryWithSource c t u s = Some (d, thread) ->
        exists ts cfg,
          truthy t = Some ts
          /\ OMap.get (c +:+ "-" +:+ ts) (configs s) = Some cfg
          /\ directory cfg = d)
  /\ (forall d src,
        getWorkingDirectoryWithSource c t u s = Some (d, src) ->
        src <> thread ->
        src = (if Posix.startsWith c "D" then dm else channel)
        /\ getWorkingDirectory c None u s = Some d).
Proof.
  unfold getWorkingDirectoryWithSource, getWorkingDirectory.
  change (truthy None) with (@None string). cbv iota.
  assert (forall d,
            match OMap.get (getConfigKey c None u) (configs s) with
            | Some channelConfig =>
                Some (directory channelConfig,
                      if Posix.startsWith c "D" then dm else channel)
            | None => None
            end <> Some (d, thread)) as Hnot.
  { intros d. destruct (OMap.get _ _); [|done].
    by destruct (Posix.startsWith c "D"). }
  assert (forall d src,
            match OMap.get (getConfigKey c None u) (configs s) with
            | Some channelConfig =>
                Some (directory channelConfig,
                      if Posix.startsWith c "D" then dm else channel)
            | None => None
            end = Some (d, src) ->
            src = (if Posix.startsWith c "D" then dm else channel)
            /\ match OMap.get (getConfigKey c None u) (configs s) with
               | Some channelConfig => Some (directory channelConfig)
               | None => None
               end = Some d) as Hchan.
  { intros d src. destruct (OMap.get _ _); [|done]. by intros [= <- <-]. }
  assert (option_map fst
            match OMap.get (getConfigKey c None u) (configs s) with
            | Some channelConfig =>
                Some (directory channelConfig,
                      if Posix.startsWith c "D" then dm else channel)
            | None => None
            end
          = match OMap.get (getConfigKey c None u) (configs s) with
            | Some channelConfig => Some (directory channelConfig)
            | None => None
            end) as Hfst.
  { by destruct (OMap.get _ _). }
  destruct (truthy t) as [ts|] eqn:Ht.
  - rewrite (getConfigKey_thread (Some ts) ts None c (truthy_Some_idem _ _ Ht)).
    destruct (OMap.get (c +:+ "-" +:+ ts) (configs s)) as [cfg|] eqn:Hth.
    + split; [done|split].
      * intros d [= <-]. by exists ts, cfg.
      * by intros d src [= <- <-] Hne.
    + split; [done|split].
      * intros d Hd. by destruct (Hnot d).
      * intros d src Hd _. by apply Hchan.
  - split; [done|split].
    + intros d Hd. by destruct (Hnot d).
    + intros d src Hd _. by apply Hchan.
Qed.

(** *** What is kept across a restart *)

Lemma persistedEntries_configs cfgs :
  Forall (fun e : string * WorkingDirectoryConfig => setAt e.2 <> None) cfgs ->
  persistedEntries (map snd cfgs)
  = Some (map (fun e : string * WorkingDirectoryConfig =>
                 {| p_channelId := channelId e.2; p_userId := userId e.2;
                    p_directory := directory e.2; p_setAt := setAt e.2 |})
            (List.filter (fun e => negb (isThread e)) cfgs)).
Proof.
  induction 1 as [|[k cfg] cfgs Hdate _ IH]; simpl; [done|].
  unfold isThread at 1. simpl.
  destruct (truthy (threadTs cfg)); simpl; [done|].
  destruct (setAt cfg) as [d|] eqn:Hd; [|done]. by rewrite IH.
Qed.

Lemma persistedEntries_dirs (P : string -> Prop) vals entries :
  persistedEntries vals = Some entries ->
  Forall (fun c => P (directory c)) vals ->
  Forall (fun e => P (p_directory e)) entries.
Proof.
  revert entries. induction vals as [|c vals IH]; intros entries; simpl.
  - intros [= <-] _. constructor.
  - intros Hes [Hc Hvals]%Forall_cons.
    destruct (truthy (threadTs c)); [by apply IH|].
    destruct (setAt c); [|done].
    destruct (persistedEntries vals) as [es|]; [|done].
    injection Hes as <-. constructor; [done|by apply IH].
Qed.

Lemma load_fold fs l acc :
  NoDup (OMap.keys l) ->
  (forall k, k ∈ OMap.keys l -> k ∉ OMap.keys acc) ->
  Forall (fun e : string * WorkingDirectoryConfig =>
            e.1 = getConfigKey (channelId e.2) (threadTs e.2) (userId e.2)
            /\ isThread e = false) l ->
  fold_left (loadEntry fs)
    (map (fun e : string * WorkingDirectoryConfig =>
            {| p_channelId := channelId e.2; p_userId := userId e.2;
               p_directory := directory e.2; p_setAt := setAt e.2 |}) l) acc
  = acc ++ map restored
             (List.filter (fun e => existsSync fs (directory e.2)) l).
Proof.
  revert acc. induction l as [|[k cfg] l IH]; intros acc Hnd Hfresh Hall;
    simpl; [by rewrite app_nil_r|].
  apply NoDup_cons in Hnd as [Hk Hnd].
  apply Forall_cons in Hall as [[Hkey Hth] Hall]. simpl in Hkey, Hth.
  unfold loadEntry at 2. simpl.
  assert (getConfigKey (channelId cfg) None (userId cfg) = k) as ->.
  { rewrite Hkey. symmetry. apply getConfigKey_falsy.
    unfold isThread in Hth. simpl in Hth. by destruct (truthy (threadTs cfg)). }
  destruct (existsSync fs (directory cfg)) eqn:Hex; simpl.
  - rewrite omap_set_absent.
    2:{ apply omap_get_None, Hfresh. left. }
    rewrite IH; [by rewrite <- app_assoc|done| |done].
    intros k' Hk'. unfold OMap.keys. rewrite map_app. simpl.
    rewrite not_elem_of_app, not_elem_of_cons. split; [|split].
    + apply Hfresh. by right.
    + intros ->. done.
    + apply not_elem_of_nil.
  - apply IH; [done| |done]. intros k' Hk'. apply Hfresh. by right.
Qed.

Lemma filter_filter_andb {A} (f g : A -> bool) l :
  List.filter g (List.filter f l) = List.filter (fun x => f x && g x) l.
Proof.
  induction l as [|x l IH]; simpl; [done|].
  destruct (f x); simpl; [|done]. destruct (g x); by rewrite IH.
Qed.

Lemma tidy_save fs s : tidy s -> tidy (savePersistedConfigs fs s).
Proof.
  intros (Hnd & Hall & Hfile). unfold savePersistedConfigs.
  rewrite persistedEntries_configs.
  2:{ eapply Forall_impl; [exact Hall|]. by intros e [_ He]. }
  destruct (writable fs); [|done].
  split; [done|]. split; [done|]. simpl.
  apply Forall_map. apply Forall_forall. intros e He. simpl.
  apply list_elem_of_In, filter_In in He as [He _].
  apply list_elem_of_In in He.
  rewrite Forall_forall in Hall. by destruct (Hall e He).
Qed.

Lemma tidy_load fs entries cfgs :
  Forall (fun e => p_setAt e <> None) entries ->
  NoDup (OMap.keys cfgs)
  /\ Forall (fun e : string * WorkingDirectoryConfig =>
       e.1 = getConfigKey (channelId e.2) (threadTs e.2) (userId e.2)
       /\ setAt e.2 <> None) cfgs ->
  NoDup (OMap.keys (fold_left (loadEntry fs) entries cfgs))
  /\ Forall (fun e : string * WorkingDirectoryConfig =>
       e.1 = getConfigKey (channelId e.2) (threadTs e.2) (userId e.2)
       /\ setAt e.2 <> None) (fold_left (loadEntry fs) entries cfgs).
Proof.
  intros Hentries. revert cfgs.
  induction Hentries as [|e entries He _ IH]; intros cfgs [Hnd Hall];
    simpl; [done|].
  apply IH. unfold loadEntry. destruct (existsSync fs (p_directory e));
    [|done].
  split; [by apply omap_NoDup_set|]. by apply omap_Forall_set_key.
Qed.

Lemma tidy_apply op s : tidy s -> tidy (apply cwd baseDirectory path_join op s).
Proof.
  intros Htidy. pose proof Htidy as (Hnd & Hall & Hfile).
  destruct op as [fs c d t u now|fs c t u|fs]; simpl.
  - destruct (setWorkingDirectory_cases fs c d t u now s)
      as [(_ & -> & _)|(x & _ & _ & _ & ->)]; [done|].
    apply tidy_save. split; [by apply omap_NoDup_set|]. split; [|done].
    simpl. by apply omap_Forall_set_key.
  - unfold removeWorkingDirectory. destruct (OMap.has _ _); [|done]. simpl.
    apply tidy_save. split; [by apply omap_NoDup_delete|]. split; [|done].
    simpl. by apply omap_Forall_delete.
  - unfold new, loadPersistedConfigs. simpl.
    destruct (file s) as [| |entries] eqn:Hf; [|done|].
    + repeat split; simpl; [constructor|constructor].
    + destruct (tidy_load fs entries [] Hfile) as [Hnd' Hall'].
      { split; constructor. }
      by repeat split.
Qed.

Lemma tidy_reachable s :
  reachable cwd baseDirectory path_join s -> tidy s.
Proof.
  intros (fs & ops & ->).
  assert (tidy (new fs Missing)) as Hinit.
  { repeat split; simpl; constructor. }
  revert Hinit. generalize (new fs Missing).
  induction ops as [|op ops IH]; intros s0 Hs0; simpl; [done|].
  by apply IH, tidy_apply.
Qed.

Lemma save_restartsTo fs s :
  tidy s -> writable fs = true -> restartsTo (savePersistedConfigs fs s).
Proof.
  intros (Hnd & Hall & Hfile) Hw fs'. unfold savePersistedConfigs.
  rewrite persistedEntries_configs.
  2:{ eapply Forall_impl; [exact Hall|]. by intros e [_ He]. }
  rewrite Hw. unfold new, loadPersistedConfigs. simpl.
  rewrite load_fold.
  - simpl. by rewrite filter_filter_andb.
  - eapply sublist_NoDup; [exact Hnd|]. unfold OMap.keys.
    clear. induction (configs s) as [|e l IH]; simpl; [constructor|].
    destruct (negb (isThread e)); simpl; by constructor.
  - intros k _. apply not_elem_of_nil.
  - apply Forall_forall. intros e He.
    apply list_elem_of_In, filter_In in He as [He Hth].
    apply list_elem_of_In in He. rewrite Forall_forall in Hall.
    destruct (Hall e He) as [Hkey _]. split; [done|].
    by destruct (isThread e).
Qed.

(** X19 — the file written by a successful [setWorkingDirectory] or
    [removeWorkingDirectory] restores, at the next start, exactly the
    entries that are not thread overrides and whose directory still
    exists, under the same keys and in the same order; thread overrides
    do not survive a restart. *)
Theorem saved_file_restores_all_but_threads (fs : Fs) (s : Manager) :
  reachable cwd baseDirectory path_join s ->
  writable fs = true ->
  (forall c d t u now,
     let out := setWorkingDirectory cwd baseDirectory path_join fs c d t u
                  now s in
     success out.2 = true -> restartsTo out.1)
  /\ (forall c t u,
        let out := removeWorkingDirectory fs c t u s in
        out.2 = true -> restartsTo out.1).
Proof.
  intros Hreach Hw. pose proof (tidy_reachable s Hreach) as Htidy.
  split.
  - intros c d t u now out Hok.
    pose proof (tidy_apply (SetWorkingDirectory fs c d t u now) s Htidy)
      as Hafter. simpl in Hafter. fold out in Hafter.
    destruct (setWorkingDirectory_cases fs c d t u now s)
      as [(Hfail & _)|(x & _ & _ & _ & Hout)]; fold out in Hfail || fold out in Hout.
    + congruence.
    + rewrite Hout. apply save_restartsTo; [|done].
      pose proof Htidy as (Hnd & Hall & Hfile).
      split; [by apply omap_NoDup_set|]. split; [|done].
      simpl. by apply omap_Forall_set_key.
  - intros c t u out Hok. subst out. unfold removeWorkingDirectory in *.
    destruct (OMap.has _ _); [|done]. simpl.
    apply save_restartsTo; [|done].
    pose proof Htidy as (Hnd & Hall & Hfile).
    split; [by apply omap_NoDup_delete|]. split; [|done].
    simpl. by apply omap_Forall_delete.
Qed.

(** *** Every directory handed out is absolute and normalised *)

Lemma canonical_load fs entries cfgs :
  Forall (fun e => canonical (p_directory e)) entries ->
  Forall (fun e : string * WorkingDirectoryConfig => canonical (directory e.2))
    cfgs ->
  Forall (fun e : string * WorkingDirectoryConfig => canonical (directory e.2))
    (fold_left (loadEntry fs) entries cfgs).
Proof.
  intros Hentries. revert cfgs.
  induction Hentries as [|e entries He _ IH]; intros cfgs Hall; simpl;
    [done|].
  apply IH. unfold loadEntry. destruct (existsSync fs (p_directory e));
    [|done].
  by apply omap_Forall_set_key.
Qed.

Lemma canonical_save fs s :
  Forall (fun e : string * WorkingDirectoryConfig => canonical (directory e.2))
    (configs s) ->
  match file s with
  | Entries entries => Forall (fun e => canonical (p_directory e)) entries
  | _ => True
  end ->
  Forall (fun e : string * WorkingDirectoryConfig => canonical (directory e.2))
    (configs (savePersistedConfigs fs s))
  /\ match file (savePersistedConfigs fs s) with
     | Entries entries => Forall (fun e => canonical (p_directory e)) entries
     | _ => True
     end.
Proof.
  intros Hall Hfile. unfold savePersistedConfigs.
  destruct (persistedEntries (map snd (configs s))) as [entries|] eqn:Hes;
    [|done].
  destruct (writable fs); [|done]. split; [done|]. simpl.
  eapply (persistedEntries_dirs canonical); [exact Hes|].
  by apply Forall_map.
Qed.

Lemma canonical_apply op s :
  Forall (fun e : string * WorkingDirectoryConfig => canonical (directory e.2))
    (configs s)
  /\ match file s with
     | Entries entries => Forall (fun e => canonical (p_directory e)) entries
     | _ => True
     end ->
  Forall (fun e : string * WorkingDirectoryConfig => canonical (directory e.2))
    (configs (apply cwd baseDirectory path_join op s))
  /\ match file (apply cwd baseDirectory path_join op s) with
     | Entries entries => Forall (fun e => canonical (p_directory e)) entries
     | _ => True
     end.
Proof.
  intros [Hall Hfile].
  destruct op as [fs c d t u now|fs c t u|fs]; simpl.
  - destruct (setWorkingDirectory_cases fs c d t u now s)
      as [(_ & -> & _)|(x & _ & _ & _ & ->)]; [done|].
    apply canonical_save; [|done]. simpl.
    apply omap_Forall_set_key; [|done]. simpl. intros cwd'.
    apply resolve_fixed.
  - unfold removeWorkingDirectory. destruct (OMap.has _ _); [|done]. simpl.
    apply canonical_save; [|done]. simpl. by apply omap_Forall_delete.
  - unfold new, loadPersistedConfigs. simpl.
    destruct (file s) as [| |entries] eqn:Hf; simpl; rewrite ?Hf;
      [by split; [constructor|]..|].
    split; [|done]. apply canonical_load; [done|constructor].
Qed.

Lemma get_Some_elem c t u s d :
  getWorkingDirectory c t u s = Some d ->
  exists e, e ∈ configs s /\ directory e.2 = d.
Proof.
  unfold getWorkingDirectory.
  assert (forall k, match OMap.get k (configs s) with
                    | Some cfg => Some (directory cfg)
                    | None => None
                    end = Some d ->
                    exists e, e ∈ configs s /\ directory e.2 = d) as Hget.
  { intros k. destruct (OMap.get k (configs s)) as [cfg|] eqn:Hk; [|done].
    intros [= <-]. exists (k, cfg). split; [|done].
    by apply omap_get_Some_elem. }
  destruct (truthy t) as [ts|]; [|apply Hget].
  destruct (OMap.get (getConfigKey c (Some ts) None) (configs s))
    as [cfg|] eqn:Hk; [|apply Hget].
  intros [= <-]. exists (getConfigKey c (Some ts) None, cfg).
  split; [|done]. by apply omap_get_Some_elem.
Qed.

(** X20 — every directory [getWorkingDirectory] hands out, in any state
    the manager reaches, restarts included, is a path that
    [path.resolve] returns unchanged; so the approval gate's containment
    test compares the resolved target with that very string. *)
Theorem handed_out_directory_is_canonical (s : Manager) (c : string)
    (t u : option string) (d : string) :
  reachable cwd baseDirectory path_join s ->
  getWorkingDirectory c t u s = Some d ->
  canonical d
  /\ forall target,
       Gate.isPathWithinDirectory cwd target d
       = (String.eqb (Posix.resolve cwd target) d
          || Posix.startsWith (Posix.resolve cwd target) (d +:+ Posix.sep)).
Proof.
  intros (fs & ops & ->) Hget.
  assert (canonical d) as Hcan.
  { destruct (get_Some_elem _ _ _ _ _ Hget) as (e & He & <-).
    clear Hget. revert e He. apply Forall_forall.
    assert (Forall (fun e : string * WorkingDirectoryConfig =>
                      canonical (directory e.2)) (configs (new fs Missing))
            /\ match file (new fs Missing) with
               | Entries entries =>
                   Forall (fun e => canonical (p_directory e)) entries
               | _ => True
               end) as Hinit.
    { split; [constructor|done]. }
    revert Hinit. generalize (new fs Missing).
    induction ops as [|op ops IH]; intros s0 Hs0; simpl; [by destruct Hs0|].
    by apply IH, canonical_apply. }
  split; [done|]. intros target. unfold Gate.isPathWithinDirectory.
  by rewrite (Hcan cwd).
Qed.

End WorkDirFacts.

Section WorkDirWitnesses.
Import WorkDir.

Lemma set_then_get_witness :
  let fs := sample_fs ["/srv/projects/app"] in
  success (sample_set fs).2 = true
  /\ getWorkingDirectory "C0123" (Some "1712.000100") (Some "U42")
       (sample_set fs).1 = Some "/srv/projects/app".
Proof.
  intros fs.
  assert (success (sample_set fs).2 = true) as Hok by reflexivity.
  split; [exact Hok|].
  destruct (set_then_get Gate.sample_cwd sample_base sample_join fs
              "C0123" "app" (Some "1712.000100") (Some "U42") 1712000000000
              (new fs Missing) (sample_set fs).1 (sample_set fs).2
              (surjective_pairing _) Hok)
    as (dir & Hr & _ & _ & _ & Hget).
  rewrite Hget, <- Hr. reflexivity.
Defined.

Lemma failed_set_changes_nothing_witness :
  let fs := sample_fs ["/srv/projects/app"] in
  let s := (sample_set fs).1 in
  let out := setWorkingDirectory Gate.sample_cwd sample_base sample_join fs
               "C0123" "nope" None None 1712000060000 s in
  success out.2 = false /\ out.1 = s.
Proof.
  intros fs s out.
  assert (success out.2 = false) as Hfail by reflexivity.
  split; [exact Hfail|].
  by destruct (failed_set_changes_nothing Gate.sample_cwd sample_base
                 sample_join fs "C0123" "nope" None None 1712000060000
                 s out.1 out.2 (surjective_pairing _) Hfail) as (Hs & _).
Defined.

Lemma thread_override_is_local_witness :
  let fs := sample_fs ["/srv/projects/app"] in
  getWorkingDirectory "C0123" (Some "1712.000999") (Some "U42")
    (sample_set fs).1 = None
  /\ getWorkingDirectory "C0123" None (Some "U42") (sample_set fs).1 = None.
Proof.
  intros fs. unfold sample_set. split.
  - rewrite (thread_override_is_local Gate.sample_cwd sample_base sample_join
               fs "C0123" "app" (Some "1712.000100") (Some "U42")
               "1712.000100" 1712000000000 (new fs Missing)
               "C0123" (Some "1712.000999") (Some "U42"));
      [reflexivity..|].
    right. split; [discriminate|left; discriminate].
  - rewrite (thread_override_is_local Gate.sample_cwd sample_base sample_join
               fs "C0123" "app" (Some "1712.000100") (Some "U42")
               "1712.000100" 1712000000000 (new fs Missing)
               "C0123" None (Some "U42"));
      [reflexivity..|].
    right. split; [discriminate|left; discriminate].
Defined.

Lemma saved_file_restores_all_but_threads_witness :
  let fs := sample_fs ["/srv/projects/app"] in
  let s1 := (sample_set fs).1 in
  let out := setWorkingDirectory Gate.sample_cwd sample_base sample_join fs
               "C0123" "/srv/projects/app" None None 1712000060000 s1 in
  reachable Gate.sample_cwd sample_base sample_join s1
  /\ OMap.keys (configs out.1) = ["C0123-1712.000100"; "C0123"]
  /\ OMap.keys (configs (new fs (file out.1))) = ["C0123"]
  /\ configs (new (sample_fs []) (file out.1)) = [].
Proof.
  intros fs s1 out.
  assert (reachable Gate.sample_cwd sample_base sample_join s1) as Hreach.
  { exists fs,
      [SetWorkingDirectory fs "C0123" "app" (Some "1712.000100") (Some "U42")
         1712000000000].
    reflexivity. }
  split; [exact Hreach|]. split; [reflexivity|].
  destruct (saved_file_restores_all_but_threads Gate.sample_cwd sample_base
              sample_join fs s1 Hreach eq_refl) as [Hset _].
  pose proof (Hset "C0123" "/srv/projects/app" None None 1712000060000
                eq_refl) as Hrestart.
  fold out in Hrestart.
  split; [rewrite (Hrestart fs)|rewrite (Hrestart (sample_fs []))];
    reflexivity.
Defined.

Lemma handed_out_directory_is_canonical_witness :
  let fs := sample_fs ["/srv/projects/app"] in
  reachable Gate.sample_cwd sample_base sample_join (sample_set fs).1
  /\ Posix.resolve "/elsewhere" "/srv/projects/app" = "/srv/projects/app"
  /\ Gate.isPathWithinDirectory Gate.sample_cwd "/srv/projects/app/../app2/x"
       "/srv/projects/app" = false.
Proof.
  intros fs.
  assert (reachable Gate.sample_cwd sample_base sample_join (sample_set fs).1)
    as Hreach.
  { exists fs,
      [SetWorkingDirectory fs "C0123" "app" (Some "1712.000100") (Some "U42")
         1712000000000].
    reflexivity. }
  split; [exact Hreach|].
  destruct (handed_out_directory_is_canonical Gate.sample_cwd sample_base
              sample_join (sample_set fs).1 "C0123" (Some "1712.000100")
              (Some "U42") "/srv/projects/app" Hreach eq_refl)
    as [Hcan Hwithin].
  split; [apply Hcan|]. rewrite Hwithin. reflexivity.
Defined.

End WorkDirWitnesses.

Section FilesFacts.
Import Files.

(** *** Magic bytes *)

Lemma every_prefix firstBytes magic i :
  every firstBytes 0 i magic = true <-> magic `prefix_of` drop i firstBytes.
Proof.
  revert i. induction magic as [|byte magic IH]; intros i; simpl.
  - split; [intros _; apply prefix_nil|done].
  - rewrite andb_true_iff, IH.
    destruct (firstBytes !! i) as [b|] eqn:Hb.
    + rewrite (drop_S _ _ _ Hb), N.eqb_eq. split.
      * intros [-> Hrest]. by apply prefix_cons.
      * intros Hpre. split.
        -- by apply prefix_cons_inv_1 in Hpre.
        -- by apply prefix_cons_inv_2 in Hpre.
    + rewrite (drop_ge _ i) by (by apply lookup_ge_None_1).
      split; [by intros []|]. intros Hpre. by apply prefix_nil_inv in Hpre.
Qed.

Lemma prefix_take {A} (l k : list A) n :
  (List.length l <= n)%nat -> l `prefix_of` take n k <-> l `prefix_of` k.
Proof.
  intros Hlen. split.
  - intros [r Hr]. exists (r ++ drop n k).
    by rewrite app_assoc, <- Hr, take_drop.
  - intros [r ->]. exists (take (n - List.length l) r).
    by apply take_app_ge.
Qed.

Lemma includes_elem_of l x : includes l x = true <-> x ∈ l.
Proof.
  unfold includes. rewrite existsb_exists. split.
  - intros (y & Hy & ->%String.eqb_eq). by apply list_elem_of_In.
  - intros Hx. exists x. split; [by apply list_elem_of_In|apply String.eqb_refl].
Qed.

Lemma checkSignatures_find firstBytes mt sigs :
  match find (fun sig => includes (mimetype sig) mt) sigs with
  | Some sig =>
      exists result,
        checkSignatures firstBytes mt sigs = Some result
        /\ valid result
           = every firstBytes (default 0%nat (offset sig)) 0 (magic sig)
  | None => checkSignatures firstBytes mt sigs = None
  end.
Proof.
  induction sigs as [|sig sigs IH]; cbn [checkSignatures find]; [done|].
  destruct (includes (mimetype sig) mt); [|exact IH].
  destruct (every firstBytes _ 0 (magic sig)); [by eexists|].
  destruct (detect firstBytes signatures); by eexists.
Qed.

Lemma signatures_disjoint mt sig :
  sig ∈ signatures -> includes (mimetype sig) mt = true ->
  find (fun s => includes (mimetype s) mt) signatures = Some sig
  /\ offset sig = None /\ (List.length (magic sig) <= 16)%nat.
Proof.
  intros Hin Hinc. unfold signatures in Hin.
  repeat (apply elem_of_cons in Hin as [->|Hin]);
    [..|by apply elem_of_nil in Hin];
    apply includes_elem_of in Hinc; simpl in Hinc;
    repeat (apply elem_of_cons in Hinc as [->|Hinc]);
    try (by apply elem_of_nil in Hinc);
    (split; [reflexivity|split; [reflexivity|simpl; lia]]).
Qed.

(** X21 — downloaded content is accepted exactly when its first hundred
    bytes, read as ASCII and trimmed of white space on the left, do not
    begin with <!DOCTYPE or <html — whatever the expected type, text/html
    included — and the content begins with the magic bytes of the
    signature that lists the expected mimetype, if one does. *)
Theorem content_is_accepted_iff (isTextFile : string -> string -> bool)
    (buffer : Buffer) (expectedMimetype filename : string) :
  valid (validateFileContent isTextFile buffer expectedMimetype filename)
  = true
  <-> looksHtml buffer = false
      /\ forall sig, sig ∈ signatures ->
           expectedMimetype ∈ mimetype sig ->
           magic sig `prefix_of` buffer.
Proof.
  unfold validateFileContent.
  destruct (looksHtml buffer); [by split; [|intros []]|].
  pose proof (checkSignatures_find (take 16 buffer) expectedMimetype signatures)
    as Hfind.
  destruct (find _ signatures) as [sig0|] eqn:Hsig0.
  - destruct Hfind as (result & -> & ->).
    apply find_some in Hsig0 as [Hin0 Hinc0].
    apply list_elem_of_In in Hin0.
    destruct (signatures_disjoint _ _ Hin0 Hinc0) as (Hfirst & -> & Hlen).
    simpl. rewrite every_prefix, drop_0, prefix_take by done. split.
    + intros Hpre. split; [done|]. intros sig Hin Hinc.
      apply includes_elem_of in Hinc.
      destruct (signatures_disjoint _ _ Hin Hinc) as (Hfirst' & _).
      congruence.
    + intros [_ Hall]. apply Hall; [done|]. by apply includes_elem_of.
  - rewrite Hfind. split.
    + intros _. split; [done|]. intros sig Hin Hinc.
      apply includes_elem_of in Hinc. apply list_elem_of_In in Hin.
      by rewrite (find_none _ _ Hsig0 sig Hin) in Hinc.
    + intros _. by destruct (_ || _).
Qed.

(** *** The redirect loop *)

Lemma fetchLoop_S fetch URL_href fuel currentUrl redirectCount fetched :
  fetchLoop fetch URL_href (S fuel) currentUrl redirectCount fetched
  = match fetch (List.length fetched) currentUrl with
    | Rejected => Some (Thrown, fetched ++ [currentUrl])
    | Resolved response =>
        if (300 <=? status response) && (status response <? 400) then
          match Gate.truthy (location response) with
          | None => Some (NoLocation (status response), fetched ++ [currentUrl])
          | Some location =>
              match URL_href location currentUrl with
              | None => Some (Thrown, fetched ++ [currentUrl])
              | Some nextUrl =>
                  if contains nextUrl "?redir=" || contains nextUrl "/signin"
                  then Some (LoginPage nextUrl, fetched ++ [currentUrl])
                  else if (MAX_REDIRECTS <? S redirectCount)%nat
                  then Some (TooManyRedirects (S redirectCount),
                             fetched ++ [currentUrl])
                  else fetchLoop fetch URL_href fuel nextUrl (S redirectCount)
                         (fetched ++ [currentUrl])
              end
          end
        else Some (Arrived response currentUrl redirectCount,
                   fetched ++ [currentUrl])
    end.
Proof. reflexivity. Qed.

Lemma tail_snoc {A} (l : list A) x :
  l <> [] -> tail (l ++ [x]) = tail l ++ [x].
Proof. by destruct l. Qed.

Lemma fetchLoop_bounded fetch URL_href n :
  forall redirectCount currentUrl fetched,
    (redirectCount + n = 6)%nat ->
    (redirectCount <= 5)%nat ->
    List.length fetched = redirectCount ->
    Forall (fun u => contains u "?redir=" = false
                     /\ contains u "/signin" = false)
      (tail (fetched ++ [currentUrl])) ->
    exists out more,
      (forall fuel, (n <= fuel)%nat ->
         fetchLoop fetch URL_href fuel currentUrl redirectCount fetched
         = Some (out, fetched ++ currentUrl :: more))
      /\ (List.length (fetched ++ currentUrl :: more) <= 6)%nat
      /\ Forall (fun u => contains u "?redir=" = false
                          /\ contains u "/signin" = false)
           (tail (fetched ++ currentUrl :: more))
      /\ (forall r u c, out = Arrived r u c ->
            (c <= 5)%nat
            /\ List.length (fetched ++ currentUrl :: more) = S c
            /\ last (fetched ++ currentUrl :: more) = Some u
            /\ ~ (300 <= status r < 400))
      /\ (forall c, out = TooManyRedirects c ->
            c = 6%nat /\ List.length (fetched ++ currentUrl :: more) = 6%nat).
Proof.
  induction n as [|n IH]; intros cnt url fetched Hcnt Hle Hlen Hclean;
    [lia|].
  assert (List.length (fetched ++ [url]) = S cnt) as Hlen'.
  { rewrite length_app. simpl. lia. }
  assert (forall out,
            fetchLoop fetch URL_href 1 url cnt fetched
            = Some (out, fetched ++ [url]) ->
            (forall fuel', fetchLoop fetch URL_href (S fuel') url cnt fetched
                           = Some (out, fetched ++ [url])) ->
            (forall r u c, out = Arrived r u c ->
               c = cnt /\ u = url /\ ~ (300 <= status r < 400)) ->
            (forall c, out = TooManyRedirects c -> c = 6%nat /\ cnt = 5%nat) ->
            exists out more,
              (forall fuel, (S n <= fuel)%nat ->
                 fetchLoop fetch URL_href fuel url cnt fetched
                 = Some (out, fetched ++ url :: more))
              /\ (List.length (fetched ++ url :: more) <= 6)%nat
              /\ Forall (fun u => contains u "?redir=" = false
                                  /\ contains u "/signin" = false)
                   (tail (fetched ++ url :: more))
              /\ (forall r u c, out = Arrived r u c ->
                    (c <= 5)%nat
                    /\ List.length (fetched ++ url :: more) = S c
                    /\ last (fetched ++ url :: more) = Some u
                    /\ ~ (300 <= status r < 400))
              /\ (forall c, out = TooManyRedirects c ->
                    c = 6%nat
                    /\ List.length (fetched ++ url :: more) = 6%nat))
    as Hstop.
  { intros out _ Hall Harr Htoo. exists out, [].
    split; [intros [|fuel'] Hfuel; [lia|apply Hall]|].
    split; [lia|]. split; [done|]. split.
    - intros r u c Hout. destruct (Harr r u c Hout) as (-> & -> & Hst).
      repeat split; [lia|done|by rewrite last_snoc|done].
    - intros c Hout. destruct (Htoo c Hout) as [-> ->]. by rewrite Hlen'. }
  destruct (fetch (List.length fetched) url) as [response|] eqn:Hfetch.
  2:{ apply (Hstop Thrown); try done.
      - by rewrite fetchLoop_S, Hfetch.
      - intros fuel'. by rewrite fetchLoop_S, Hfetch. }
  destruct ((300 <=? status response) && (status response <? 400)) eqn:Hredir.
  2:{ apply (Hstop (Arrived response url cnt)); try done.
      - by rewrite fetchLoop_S, Hfetch, Hredir.
      - intros fuel'. by rewrite fetchLoop_S, Hfetch, Hredir.
      - intros r u c [= <- <- <-]. repeat split.
        apply andb_false_iff in Hredir as [H|H]; lia. }
  destruct (Gate.truthy (location response)) as [loc|] eqn:Hloc.
  2:{ apply (Hstop (NoLocation (status response))); try done.
      - by rewrite fetchLoop_S, Hfetch, Hredir, Hloc.
      - intros fuel'. by rewrite fetchLoop_S, Hfetch, Hredir, Hloc. }
  destruct (URL_href loc url) as [next|] eqn:Hnext.
  2:{ apply (Hstop Thrown); try done.
      - by rewrite fetchLoop_S, Hfetch, Hredir, Hloc, Hnext.
      - intros fuel'. by rewrite fetchLoop_S, Hfetch, Hredir, Hloc, Hnext. }
  destruct (contains next "?redir=" || contains next "/signin") eqn:Hmark.
  { apply (Hstop (LoginPage next)); try done.
    - by rewrite fetchLoop_S, Hfetch, Hredir, Hloc, Hnext, Hmark.
    - intros fuel'. by rewrite fetchLoop_S, Hfetch, Hredir, Hloc, Hnext, Hmark. }
  destruct (MAX_REDIRECTS <? S cnt)%nat eqn:Hmax.
  { apply (Hstop (TooManyRedirects (S cnt))); try done.
    - by rewrite fetchLoop_S, Hfetch, Hredir, Hloc, Hnext, Hmark, Hmax.
    - intros fuel'.
      by rewrite fetchLoop_S, Hfetch, Hredir, Hloc, Hnext, Hmark, Hmax.
    - intros c [= <-]. apply Nat.ltb_lt in Hmax. unfold MAX_REDIRECTS in Hmax.
      lia. }
  apply Nat.ltb_ge in Hmax. unfold MAX_REDIRECTS in Hmax.
  apply orb_false_iff in Hmark as [Hm1 Hm2].
  destruct (IH (S cnt) next (fetched ++ [url])) as (out & more & Hrun & Hsize & Hmarks & Harr & Htoo);
    [lia|lia|done| |].
  { rewrite tail_snoc by (by destruct fetched).
    apply Forall_app. split; [done|]. by repeat constructor. }
  exists out, (next :: more).
  replace (fetched ++ url :: next :: more)
    with ((fetched ++ [url]) ++ next :: more) by (by rewrite <- app_assoc).
  split; [|done].
  intros [|fuel'] Hfuel; [lia|].
  rewrite fetchLoop_S, Hfetch, Hredir, Hloc, Hnext, Hm1, Hm2. simpl.
  apply Nat.ltb_ge in Hmax. unfold MAX_REDIRECTS. rewrite Hmax.
  apply Hrun. lia.
Qed.

(** X22 — the redirect loop of [downloadFile] ends whatever the servers
    answer: it fetches at most six urls, the first being the file's; every
    url it goes on to has neither ?redir= nor /signin in it; it is left
    with a response only after at most five redirects, and that response
    is no redirect; the sixth redirect ends the download. *)
Theorem redirects_are_bounded (fetch : nat -> string -> Fetched)
    (URL_href : string -> string -> option string) (downloadUrl : string) :
  exists out more,
    (forall fuel, (6 <= fuel)%nat ->
       fetchLoop fetch URL_href fuel downloadUrl 0 []
       = Some (out, downloadUrl :: more))
    /\ (List.length more <= 5)%nat
    /\ Forall (fun u => contains u "?redir=" = false
                        /\ contains u "/signin" = false) more
    /\ (forall r u c, out = Arrived r u c ->
          (c <= 5)%nat /\ List.length more = c
          /\ last (downloadUrl :: more) = Some u
          /\ ~ (300 <= status r < 400))
    /\ (forall c, out = TooManyRedirects c ->
          c = 6%nat /\ List.length more = 5%nat).
Proof.
  destruct (fetchLoop_bounded fetch URL_href 6 0 downloadUrl [])
    as (out & more & Hrun & Hsize & Hmarks & Harr & Htoo);
    [done|lia|done|constructor|].
  exists out, more. simpl in *. split; [done|]. split; [lia|].
  split; [done|]. split.
  - intros r u c Hout. destruct (Harr r u c Hout) as (Hc & Hlen & Hlast & Hst).
    repeat split; [done|lia|done|done].
  - intros c Hout. destruct (Htoo c Hout) as [-> Hlen]. split; [done|lia].
Qed.

End FilesFacts.

Section LoggerFacts.
Import Logger.

(** X23 — with a configured level that is one of the five names, an
    error is always logged and a message that is logged at some level is
    logged at every higher one; with any other configured level nothing
    is logged at all, errors included. *)
Theorem unknown_level_silences_logger (logLevel : string) :
  (LOG_LEVELS logLevel = None -> forall level, shouldLog logLevel level = false)
  /\ (LOG_LEVELS logLevel <> None -> shouldLog logLevel "error" = true)
  /\ (forall level level' l l',
        LOG_LEVELS level = Some l -> LOG_LEVELS level' = Some l' -> l <= l' ->
        shouldLog logLevel level = true -> shouldLog logLevel level' = true)
  /\ (logLevel ∉ ["trace"; "debug"; "info"; "warn"; "error"] ->
      LOG_LEVELS logLevel = None).
Proof.
  repeat split.
  - intros Hnone level. unfold shouldLog. rewrite Hnone.
    by destruct (LOG_LEVELS level).
  - unfold shouldLog, LOG_LEVELS. intros Hsome.
    repeat (case_match; try done).
  - intros level level' l l' Hl Hl' Hle. unfold shouldLog. rewrite Hl, Hl'.
    destruct (LOG_LEVELS logLevel) as [c|]; [|done]. lia.
  - intros Hnot. unfold LOG_LEVELS.
    rewrite !not_elem_of_cons in Hnot.
    destruct Hnot as (H1 & H2 & H3 & H4 & H5 & _).
    destruct (String.eqb_spec logLevel "trace"); [done|].
    destruct (String.eqb_spec logLevel "debug"); [done|].
    destruct (String.eqb_spec logLevel "info"); [done|].
    destruct (String.eqb_spec logLevel "warn"); [done|].
    by destruct (String.eqb_spec logLevel "error").
Qed.

End LoggerFacts.
